(** * Reverse-diffusion sampling core of [task/diffusion.py]

    A shallow embedding of the noise schedule, the forward process, the
    reverse-step strategies, the two sampling loops, the loss dispatch and
    the note extraction of [diffusion.py], with the properties of the
    specification stated and proved over it.

    Numbers.  Tensor entries are modelled as real numbers: every statement
    below is a statement about the exact-arithmetic reading of the code
    (no rounding, no NaN or infinity).  Timestep counts and timestep
    indices are natural numbers: every index the source produces comes from
    [range(0, n)], [torch.randint(0, n, ...)] or [torch.full(..., n - 1)]. *)

From Stdlib Require Import String Reals Lra Lia Bool Arith List.
From Stdlib Require Import FunctionalExtensionality.
From Stdlib Require Import QArith Qround Sorted.
Import ListNotations.

Close Scope Q_scope.

Local Open Scope R_scope.

(** ** Python exceptions and results *)

Inductive exn : Type :=
| IndexError
| TypeError
| RuntimeError
| AttributeError
| NotImplementedError
| NameError
| ValueError.

Inductive result (A : Type) : Type :=
| Ok (a : A)
| Raise (e : exn).

Arguments Ok {A} a.
Arguments Raise {A} e.

Definition rbind {A B : Type} (r : result A) (k : A -> result B) : result B :=
  match r with
  | Ok a => k a
  | Raise e => Raise e
  end.

(** [l[i]] on a one-dimensional tensor, for a non-negative index. *)
Definition index {A : Type} (l : list A) (i : nat) : result A :=
  match nth_error l i with
  | Some a => Ok a
  | None => Raise IndexError
  end.

(** Element-wise combination of two one-dimensional tensors of one length. *)
Fixpoint zip_with {A B C : Type} (f : A -> B -> C) (l : list A) (m : list B)
  : list C :=
  match l, m with
  | a :: l', b :: m' => f a b :: zip_with f l' m'
  | _, _ => []
  end.

(** ** Noise schedule *)

Module Schedule.

(** [torch.linspace(start, stop, steps)]. *)
Definition linspace (start stop : R) (steps : nat) : list R :=
  map (fun i => start + INR i * ((stop - start) / (INR steps - 1)))
      (seq 0 steps).

Definition linear_beta_schedule (beta_start beta_end : R) (timesteps : nat)
  : list R :=
  linspace beta_start beta_end timesteps.

(** [torch.clip(x, lo, hi)]. *)
Definition clip (lo hi x : R) : R := Rmin (Rmax x lo) hi.

(** The interval into which [cosine_beta_schedule] clips. *)
Definition in_clip_range (b : R) : Prop := 1 / 10000 <= b <= 9999 / 10000.

Definition default_s : R := 8 / 1000.

Definition cosine_beta_schedule (timesteps : nat) (s : R) : list R :=
  let steps := (timesteps + 1)%nat in
  let x := linspace 0 (INR timesteps) steps in
  let alphas_cumprod :=
    map (fun xi => (cos (((xi / INR timesteps) + s) / (1 + s) * PI * (5 / 10))) ^ 2)
        x in
  let alphas_cumprod :=
    map (fun a => a / nth 0 alphas_cumprod 0) alphas_cumprod in
  let betas :=
    map (fun q => 1 - q)
        (zip_with Rdiv (tl alphas_cumprod) (removelast alphas_cumprod)) in
  map (clip (1 / 10000) (9999 / 10000)) betas.

(** [torch.cumprod(l, axis=0)]. *)
Fixpoint cumprod_from (acc : R) (l : list R) : list R :=
  match l with
  | [] => []
  | a :: l' => acc * a :: cumprod_from (acc * a) l'
  end.

Definition cumprod (l : list R) : list R := cumprod_from 1 l.

(** The coefficient tables that [__init__] stores on the module.
    [SpecRollDiffusion.__init__] and [LatentRollDiffusion.__init__] compute
    them with the same statements. *)
Record t : Type := mk {
  betas : list R;
  alphas : list R;
  sqrt_recip_alphas : list R;
  sqrt_alphas_cumprod : list R;
  sqrt_one_minus_alphas_cumprod : list R;
  posterior_variance : list R
}.

Definition alphas_of (betas : list R) : list R := map (fun b => 1 - b) betas.

Definition alphas_cumprod_of (betas : list R) : list R :=
  cumprod (alphas_of betas).

(** [F.pad(alphas_cumprod[:-1], (1, 0), value=1.0)]. *)
Definition alphas_cumprod_prev_of (betas : list R) : list R :=
  1 :: removelast (alphas_cumprod_of betas).

Definition posterior_variance_of (betas : list R) : list R :=
  zip_with Rdiv
    (zip_with Rmult betas (map (fun a => 1 - a) (alphas_cumprod_prev_of betas)))
    (map (fun a => 1 - a) (alphas_cumprod_of betas)).

Definition of_betas (betas : list R) : t :=
  let alphas := alphas_of betas in
  let alphas_cumprod := alphas_cumprod_of betas in
  {| betas := betas;
     alphas := alphas;
     sqrt_recip_alphas := map (fun a => sqrt (1 / a)) alphas;
     sqrt_alphas_cumprod := map sqrt alphas_cumprod;
     sqrt_one_minus_alphas_cumprod := map (fun a => sqrt (1 - a)) alphas_cumprod;
     posterior_variance := posterior_variance_of betas |}.

(** The schedule built at construction: [cosine_beta_schedule(timesteps)]. *)
Definition build (timesteps : nat) : t :=
  of_betas (cosine_beta_schedule timesteps default_s).

End Schedule.

(** ** Tensors of shape (B, 1, T, F) and the collaborators of the core *)

(** Keyword arguments that the step methods pass to the network:
    none, [sampling=True], or [inpainting_t=..., inpainting_f=...]. *)
Inductive kwargs : Type :=
| NoKwargs
| SamplingTrue
| Inpainting (inpainting_t inpainting_f : R).

(** What the core takes from outside [diffusion.py]: the denoising network
    ([forward], the [self(...)] calls), [self.normalize], both defined in
    the model subclasses, and torch's loss functions.  [Idx] is the set of
    positions of one (1, T, F) sample, so that a batch tensor is a list of
    samples; the network returns a prediction for every batch element of
    its input, and [normalize] keeps the batch size. *)
Class Backend : Type := {
  Idx : Type;
  Cond : Type;
  Side : Type;
  forward :
    list (Idx -> R) -> Cond -> list nat -> kwargs -> list (Idx -> R) * Side;
  forward_shape :
    forall x c t k, length (fst (forward x c t k)) = length x;
  zeros_like : Cond -> Cond;
  cond_of_roll : list (Idx -> R) -> Cond;
  normalize : list (Idx -> R) -> list (Idx -> R);
  normalize_shape : forall x, length (normalize x) = length x;
  l1_loss : list (Idx -> R) -> list (Idx -> R) -> R;
  mse_loss : list (Idx -> R) -> list (Idx -> R) -> R;
  smooth_l1_loss : list (Idx -> R) -> list (Idx -> R) -> R
}.

(** One sample of shape (1, T, F), and a batch of them. *)
Abbreviation Sample := (Idx -> R) (only parsing).
Abbreviation Tensor := (list (Idx -> R)) (only parsing).

Section TensorOps.
Context `{Backend}.

Definition smul (c : R) (s : Sample) : Sample := fun i => c * s i.
Definition sdiv (s : Sample) (c : R) : Sample := fun i => s i / c.
Definition sadd (a b : Sample) : Sample := fun i => a i + b i.
Definition ssub (a b : Sample) : Sample := fun i => a i - b i.

(** A zero-dimensional coefficient times, or dividing, a batch tensor. *)
Definition scale (c : R) (x : Tensor) : Tensor := map (smul c) x.
Definition tdiv (x : Tensor) (c : R) : Tensor := map (fun s => sdiv s c) x.

(** A binary operation along the batch dimension, with torch's broadcasting
    rule for that dimension: equal sizes, or one of them is 1. *)
Definition broadcast2 {A B C : Type} (f : A -> B -> C)
    (a : list A) (b : list B) : result (list C) :=
  if (length a =? length b)%nat then Ok (zip_with f a b)
  else
    match a, b with
    | [a0], _ => Ok (map (f a0) b)
    | _, [b0] => Ok (map (fun ai => f ai b0) a)
    | _, _ => Raise RuntimeError
    end.

Definition tadd (a b : Tensor) : result Tensor := broadcast2 sadd a b.
Definition tsub (a b : Tensor) : result Tensor := broadcast2 ssub a b.

(** [table[t]] for a vector [t] of indices. *)
Fixpoint gather (table : list R) (t : list nat) : result (list R) :=
  match t with
  | [] => Ok []
  | i :: t' =>
      rbind (index table i) (fun c =>
      rbind (gather table t') (fun cs => Ok (c :: cs)))
  end.

(** ** Forward process *)

Definition q_sample (x_start : Tensor) (t : list nat)
    (sqrt_alphas_cumprod sqrt_one_minus_alphas_cumprod : list R)
    (noise : option Tensor) : result Tensor :=
  rbind (gather sqrt_alphas_cumprod t) (fun sqrt_alphas_cumprod_t =>
  rbind (gather sqrt_one_minus_alphas_cumprod t)
    (fun sqrt_one_minus_alphas_cumprod_t =>
  rbind (broadcast2 smul sqrt_alphas_cumprod_t x_start) (fun mean =>
  match noise with
  | None => Raise TypeError
  | Some noise =>
      rbind (broadcast2 smul sqrt_one_minus_alphas_cumprod_t noise)
        (fun spread => tadd mean spread)
  end))).

Definition extract_x0 (x_t epsilon : Tensor) (t : list nat)
    (sqrt_alphas_cumprod sqrt_one_minus_alphas_cumprod : list R)
  : result Tensor :=
  rbind (gather sqrt_alphas_cumprod t) (fun sqrt_alphas_cumprod_t =>
  rbind (gather sqrt_one_minus_alphas_cumprod t)
    (fun sqrt_one_minus_alphas_cumprod_t =>
  rbind (broadcast2 smul sqrt_one_minus_alphas_cumprod_t epsilon)
    (fun spread =>
  rbind (tsub x_t spread) (fun diff =>
  broadcast2 sdiv diff sqrt_alphas_cumprod_t)))).

End TensorOps.

(** ** Randomness and the effect monad of the step methods *)

(** torch's global random generator: [randn] draws one sample-shaped block
    of standard-normal values and advances the generator state [G]. *)
Class Generator `{Backend} (G : Type) : Type := {
  randn : G -> Sample * G
}.

(** A computation that may raise and that reads and advances the generator. *)
Definition M (G A : Type) : Type := G -> result (A * G).

Definition ret {G A : Type} (a : A) : M G A := fun g => Ok (a, g).

Definition mbind {G A B : Type} (m : M G A) (k : A -> M G B) : M G B :=
  fun g =>
    match m g with
    | Ok (a, g') => k a g'
    | Raise e => Raise e
    end.

(** A computation that does not touch the generator. *)
Definition lift {G A : Type} (r : result A) : M G A :=
  fun g =>
    match r with
    | Ok a => Ok (a, g)
    | Raise e => Raise e
    end.

Notation "x <- e ;; k" := (mbind e (fun x => k))
  (at level 61, e at next level, right associativity).
Notation "' p <- e ;; k" := (mbind e (fun p => k))
  (at level 61, p pattern, e at next level, right associativity).

(** [torch.randn_like(x)]: one draw per batch element of [x]. *)
Fixpoint randn_like `{Backend} {G : Type} `{!Generator G} (x : Tensor)
  : M G Tensor :=
  match x with
  | [] => ret []
  | _ :: x' =>
      fun g =>
        let (s, g1) := randn g in
        match randn_like x' g1 with
        | Ok (rest, g2) => Ok (s :: rest, g2)
        | Raise e => Raise e
        end
  end.

(** ** The module object *)

Record hparams : Type := {
  timesteps : nat;
  loss_type : string;
  debug : bool;
  sampling_type : string;
  sampling_w : R;
  inpainting_t : option R;
  inpainting_f : option R
}.

(** [self.hparams.<name>] for a hyper-parameter that may be absent. *)
Definition hparam {A : Type} (v : option A) : result A :=
  match v with
  | Some a => Ok a
  | None => Raise AttributeError
  end.

Record module : Type := {
  hp : hparams;
  schedule : Schedule.t
}.

(** ** Reverse-step strategies

    [SpecRollDiffusion] and [LatentRollDiffusion] define these methods with
    the same statements (only the name of the second result differs), so
    one embedding serves both classes. *)

Section Steps.
Context `{Backend} {G : Type} `{!Generator G}.
Variable self : module.

Let betas := Schedule.betas (schedule self).
Let alphas := Schedule.alphas (schedule self).
Let sqrt_recip_alphas := Schedule.sqrt_recip_alphas (schedule self).
Let sqrt_alphas_cumprod := Schedule.sqrt_alphas_cumprod (schedule self).
Let sqrt_one_minus_alphas_cumprod :=
  Schedule.sqrt_one_minus_alphas_cumprod (schedule self).
Let posterior_variance := Schedule.posterior_variance (schedule self).
Let w := sampling_w (hp self).

(** [torch.tensor(t_index).repeat(x.shape[0])]. *)
Definition t_tensor_of (x : Tensor) (t_index : nat) : list nat :=
  repeat t_index (length x).

Definition ddpm (x : Tensor) (waveform : Cond) (t_index : nat)
  : M G (Tensor * Side) :=
  betas_t <- lift (index betas t_index) ;;
  sqrt_one_minus_alphas_cumprod_t <-
    lift (index sqrt_one_minus_alphas_cumprod t_index) ;;
  sqrt_recip_alphas_t <- lift (index sqrt_recip_alphas t_index) ;;
  let t_tensor := t_tensor_of x t_index in
  let '(epsilon, spec) := forward x waveform t_tensor NoKwargs in
  d <- lift (tsub x (tdiv (scale betas_t epsilon)
                          sqrt_one_minus_alphas_cumprod_t)) ;;
  let model_mean := scale sqrt_recip_alphas_t d in
  if (t_index =? 0)%nat then ret (model_mean, spec)
  else
    posterior_variance_t <- lift (index posterior_variance t_index) ;;
    noise <- randn_like x ;;
    r <- lift (tadd model_mean (scale (sqrt posterior_variance_t) noise)) ;;
    ret (r, spec).

(** The [else] branch shared by the x0-parameterised methods:
    [sqrt_alphas_cumprod[t-1] * x0_pred
     + sqrt(1 - sqrt_alphas_cumprod[t-1]**2 - sigma**2)
       * (x - sqrt_alphas_cumprod[t] * x0_pred)
       / sqrt_one_minus_alphas_cumprod[t]
     + sigma * torch.randn_like(x)]. *)
Definition x0_posterior (sigma : R) (x0_pred x : Tensor) (t_index : nat)
  : M G Tensor :=
  a_prev <- lift (index sqrt_alphas_cumprod (t_index - 1)) ;;
  a_t <- lift (index sqrt_alphas_cumprod t_index) ;;
  d <- lift (tsub x (scale a_t x0_pred)) ;;
  b_t <- lift (index sqrt_one_minus_alphas_cumprod t_index) ;;
  s <- lift (tadd (scale a_prev x0_pred)
                  (tdiv (scale (sqrt (1 - a_prev ^ 2 - sigma ^ 2)) d) b_t)) ;;
  noise <- randn_like x ;;
  lift (tadd s (scale sigma noise)).

(** The [if t_index == 0: ... else: ...] block that [ddpm_x0],
    [cfdg_ddpm_x0], [generation_ddpm_x0] and [inpainting_ddpm_x0] repeat
    verbatim. *)
Definition ddpm_x0_update (x0_pred x : Tensor) (t_index : nat) : M G Tensor :=
  if (t_index =? 0)%nat then
    b_t <- lift (index sqrt_one_minus_alphas_cumprod t_index) ;;
    alphas_t <- lift (index alphas t_index) ;;
    let sigma := (1 / b_t) * sqrt (1 - alphas_t) in
    a_t <- lift (index sqrt_alphas_cumprod t_index) ;;
    ret (tdiv x0_pred a_t)
  else
    b_prev <- lift (index sqrt_one_minus_alphas_cumprod (t_index - 1)) ;;
    b_t <- lift (index sqrt_one_minus_alphas_cumprod t_index) ;;
    alphas_t <- lift (index alphas t_index) ;;
    let sigma := (b_prev / b_t) * sqrt (1 - alphas_t) in
    x0_posterior sigma x0_pred x t_index.

(** The same block with [sigma = 0], as in [ddim_x0] and [cfdg_ddim_x0]. *)
Definition ddim_x0_update (x0_pred x : Tensor) (t_index : nat) : M G Tensor :=
  if (t_index =? 0)%nat then
    let sigma := 0 in
    a_t <- lift (index sqrt_alphas_cumprod t_index) ;;
    ret (tdiv x0_pred a_t)
  else
    let sigma := 0 in
    x0_posterior sigma x0_pred x t_index.

(** [(1 + w) * x0_pred_c - w * x0_pred_0]. *)
Definition guided (x0_pred_c x0_pred_0 : Tensor) : result Tensor :=
  tsub (scale (1 + w) x0_pred_c) (scale w x0_pred_0).

Definition ddpm_x0 (x : Tensor) (waveform : Cond) (t_index : nat)
  : M G (Tensor * Side) :=
  let t_tensor := t_tensor_of x t_index in
  let '(x0_pred, spec) := forward x waveform t_tensor NoKwargs in
  model_mean <- ddpm_x0_update x0_pred x t_index ;;
  ret (model_mean, spec).

Definition ddim_x0 (x : Tensor) (waveform : Cond) (t_index : nat)
  : M G (Tensor * Side) :=
  let t_tensor := t_tensor_of x t_index in
  let '(x0_pred, spec) := forward x waveform t_tensor NoKwargs in
  model_mean <- ddim_x0_update x0_pred x t_index ;;
  ret (model_mean, spec).

Definition ddim (x : Tensor) (waveform : Cond) (t_index : nat)
  : M G (Tensor * Side) :=
  let t_tensor := t_tensor_of x t_index in
  let '(epsilon, spec) := forward x waveform t_tensor NoKwargs in
  if (t_index =? 0)%nat then
    b_t <- lift (index sqrt_one_minus_alphas_cumprod t_index) ;;
    d <- lift (tsub x (scale b_t epsilon)) ;;
    a_t <- lift (index sqrt_alphas_cumprod t_index) ;;
    ret (tdiv d a_t, spec)
  else
    a_prev <- lift (index sqrt_alphas_cumprod (t_index - 1)) ;;
    b_t <- lift (index sqrt_one_minus_alphas_cumprod t_index) ;;
    d <- lift (tsub x (scale b_t epsilon)) ;;
    a_t <- lift (index sqrt_alphas_cumprod t_index) ;;
    b_prev <- lift (index sqrt_one_minus_alphas_cumprod (t_index - 1)) ;;
    model_mean <- lift (tadd (scale a_prev (tdiv d a_t))
                             (scale b_prev epsilon)) ;;
    ret (model_mean, spec).

Definition ddim2ddpm (x : Tensor) (waveform : Cond) (t_index : nat)
  : M G (Tensor * Side) :=
  let t_tensor := t_tensor_of x t_index in
  let '(epsilon, spec) := forward x waveform t_tensor NoKwargs in
  if (t_index =? 0)%nat then
    b_t <- lift (index sqrt_one_minus_alphas_cumprod t_index) ;;
    d <- lift (tsub x (scale b_t epsilon)) ;;
    a_t <- lift (index sqrt_alphas_cumprod t_index) ;;
    ret (tdiv d a_t, spec)
  else
    b_prev <- lift (index sqrt_one_minus_alphas_cumprod (t_index - 1)) ;;
    b_t <- lift (index sqrt_one_minus_alphas_cumprod t_index) ;;
    alphas_t <- lift (index alphas t_index) ;;
    let sigma := (b_prev / b_t) * sqrt (1 - alphas_t) in
    a_prev <- lift (index sqrt_alphas_cumprod (t_index - 1)) ;;
    d <- lift (tsub x (scale b_t epsilon)) ;;
    a_t <- lift (index sqrt_alphas_cumprod t_index) ;;
    s <- lift (tadd (scale a_prev (tdiv d a_t))
                    (scale (sqrt (1 - a_prev ^ 2 - sigma ^ 2)) epsilon)) ;;
    noise <- randn_like x ;;
    model_mean <- lift (tadd s (scale sigma noise)) ;;
    ret (model_mean, spec).

Definition cfdg_ddpm_x0 (x : Tensor) (waveform : Cond) (t_index : nat)
  : M G (Tensor * Side) :=
  let t_tensor := t_tensor_of x t_index in
  let '(x0_pred_c, spec) := forward x waveform t_tensor NoKwargs in
  let '(x0_pred_0, _) :=
    forward x (zeros_like waveform) t_tensor SamplingTrue in
  x0_pred <- lift (guided x0_pred_c x0_pred_0) ;;
  model_mean <- ddpm_x0_update x0_pred x t_index ;;
  ret (model_mean, spec).

Definition generation_ddpm_x0 (x : Tensor) (waveform : Cond) (t_index : nat)
  : M G (Tensor * Side) :=
  let t_tensor := t_tensor_of x t_index in
  let '(x0_pred_0, side) :=
    forward x (zeros_like waveform) t_tensor SamplingTrue in
  let x0_pred := x0_pred_0 in
  model_mean <- ddpm_x0_update x0_pred x t_index ;;
  ret (model_mean, side).

Definition inpainting_ddpm_x0 (x : Tensor) (waveform : Cond) (t_index : nat)
  : M G (Tensor * Side) :=
  let t_tensor := t_tensor_of x t_index in
  it <- lift (hparam (inpainting_t (hp self))) ;;
  i_f <- lift (hparam (inpainting_f (hp self))) ;;
  let '(x0_pred_c, spec) :=
    forward x waveform t_tensor (Inpainting it i_f) in
  let '(x0_pred_0, _) :=
    forward x (zeros_like waveform) t_tensor SamplingTrue in
  x0_pred <- lift (guided x0_pred_c x0_pred_0) ;;
  model_mean <- ddpm_x0_update x0_pred x t_index ;;
  ret (model_mean, spec).

Definition cfdg_ddim_x0 (x : Tensor) (waveform : Cond) (t_index : nat)
  : M G (Tensor * Side) :=
  let t_tensor := t_tensor_of x t_index in
  let '(_, _) := forward x waveform t_tensor NoKwargs in
  let '(x0_pred_c, spec) := forward x waveform t_tensor NoKwargs in
  let '(x0_pred_0, _) := forward x (zeros_like waveform) t_tensor NoKwargs in
  x0_pred <- lift (guided x0_pred_c x0_pred_0) ;;
  model_mean <- ddim_x0_update x0_pred x t_index ;;
  ret (model_mean, spec).

End Steps.

(** ** Selection of the strategy at construction *)

Inductive variant : Type :=
| Ddpm
| Ddpm_x0
| Ddim_x0
| Ddim
| Ddim2ddpm
| Cfdg_ddpm_x0
| Generation_ddpm_x0
| Inpainting_ddpm_x0
| Cfdg_ddim_x0.

Definition reverse_step `{Backend} {G : Type} `{!Generator G}
    (self : module) (v : variant)
  : Tensor -> Cond -> nat -> M G (Tensor * Side) :=
  match v with
  | Ddpm => ddpm self
  | Ddpm_x0 => ddpm_x0 self
  | Ddim_x0 => ddim_x0 self
  | Ddim => ddim self
  | Ddim2ddpm => ddim2ddpm self
  | Cfdg_ddpm_x0 => cfdg_ddpm_x0 self
  | Generation_ddpm_x0 => generation_ddpm_x0 self
  | Inpainting_ddpm_x0 => inpainting_ddpm_x0 self
  | Cfdg_ddim_x0 => cfdg_ddim_x0 self
  end.

(** The step methods by the names under which the class defines them. *)
Definition variant_names : list (string * variant) :=
  [ ("ddpm"%string, Ddpm);
    ("ddpm_x0"%string, Ddpm_x0);
    ("ddim_x0"%string, Ddim_x0);
    ("ddim"%string, Ddim);
    ("ddim2ddpm"%string, Ddim2ddpm);
    ("cfdg_ddpm_x0"%string, Cfdg_ddpm_x0);
    ("generation_ddpm_x0"%string, Generation_ddpm_x0);
    ("inpainting_ddpm_x0"%string, Inpainting_ddpm_x0);
    ("cfdg_ddim_x0"%string, Cfdg_ddim_x0) ].

Fixpoint assoc {A : Type} (name : string) (l : list (string * A)) : option A :=
  match l with
  | [] => None
  | (k, v) :: l' => if String.eqb name k then Some v else assoc name l'
  end.

Definition variant_of_name (name : string) : option variant :=
  assoc name variant_names.

(** The two classes that select their strategy by name. *)
Inductive diffusion_class : Type :=
| SpecRollDiffusion
| LatentRollDiffusion.

(** The other attributes that the object has when [__init__] reaches
    [getattr(self, sampling.type)]: the remaining methods of its class and
    the attributes assigned before that line ([self.alphas] and
    [self.reverse_diffusion] are assigned after it). *)
Definition shared_attribute_names : list string :=
  [ "__init__"; "training_step"; "validation_step"; "test_step";
    "predict_step"; "visualize_figure"; "step"; "sampling"; "p_losses";
    "configure_optimizers"; "animate_sampling";
    "betas"; "sqrt_recip_alphas"; "sqrt_alphas_cumprod";
    "sqrt_one_minus_alphas_cumprod"; "posterior_variance";
    "inner_loop" ]%string.

Definition other_attribute_names (cls : diffusion_class) : list string :=
  match cls with
  | SpecRollDiffusion => shared_attribute_names
  | LatentRollDiffusion =>
      shared_attribute_names ++
      [ "visualize_forward_diffusion"; "curriculum_learning";
        "curriculum_alpha"; "curriculum_min_t_ratio";
        "curriculum_full_t_ratio" ]%string
  end.

Inductive attribute : Type :=
| StepMethod (v : variant)
| OtherAttribute (name : string).

Definition mem_string (name : string) (l : list string) : bool :=
  existsb (String.eqb name) l.

(** [getattr(self, name)]; [inherited] lists the attribute names that the
    object has from its base classes and subclasses. *)
Definition getattr_self (cls : diffusion_class) (inherited : list string)
    (name : string) : result attribute :=
  match variant_of_name name with
  | Some v => Ok (StepMethod v)
  | None =>
      if mem_string name (other_attribute_names cls)
         || mem_string name inherited
      then Ok (OtherAttribute name)
      else Raise AttributeError
  end.

(** The object after [__init__]: hyper-parameters, coefficient tables and
    the resolved [self.reverse_diffusion]. *)
Record instance : Type := {
  self_of : module;
  reverse_diffusion_of : attribute
}.

(** [print('first timestep alpha', alphas_cumprod[0])] and
    [print('last timestep alpha', alphas_cumprod[-1])], which
    [LatentRollDiffusion.__init__] has and [SpecRollDiffusion.__init__] has
    not: the two reads of [alphas_cumprod].  On a tensor that is not empty
    the index [-1] reads the last entry; on an empty one both reads raise
    [IndexError]. *)
Definition print_alphas (cls : diffusion_class) (alphas_cumprod : list R)
  : result unit :=
  match cls with
  | SpecRollDiffusion => Ok tt
  | LatentRollDiffusion =>
      rbind (index alphas_cumprod 0) (fun _ =>
      rbind (index alphas_cumprod (length alphas_cumprod - 1)) (fun _ =>
      Ok tt))
  end.

(** [SpecRollDiffusion.__init__] and [LatentRollDiffusion.__init__]. *)
Definition init (cls : diffusion_class) (inherited : list string)
    (h : hparams) : result instance :=
  let betas :=
    Schedule.cosine_beta_schedule (timesteps h) Schedule.default_s in
  let alphas_cumprod := Schedule.alphas_cumprod_of betas in
  rbind (print_alphas cls alphas_cumprod) (fun _ =>
  let schedule := Schedule.build (timesteps h) in
  rbind (getattr_self cls inherited (sampling_type h))
    (fun reverse_diffusion =>
  Ok {| self_of := {| hp := h; schedule := schedule |};
        reverse_diffusion_of := reverse_diffusion |})).

(** [p_losses(label, prediction, loss_type)] of both classes. *)
Definition p_losses `{Backend} (label prediction : Tensor) (loss_type : string)
  : result R :=
  if String.eqb loss_type "l1" then Ok (l1_loss label prediction)
  else if String.eqb loss_type "l2" then Ok (mse_loss label prediction)
  else if String.eqb loss_type "huber"
       then Ok (smooth_l1_loss label prediction)
  else Raise NotImplementedError.

(** ** Sampling loops *)

Record batch `{Backend} : Type := {
  frame : Tensor;
  audio : Cond;
  dac_latents : Cond
}.

Section Sampling.
Context `{Backend} {G : Type} `{!Generator G}.

Definition strategy : Type := Tensor -> Cond -> nat -> M G (Tensor * Side).

Variable reverse_diffusion : strategy.

(** The body of [for t_index in reversed(range(0, n))]: one call of the
    strategy on the current state, the result appended to [noise_list]. *)
Fixpoint sampling_loop (condition : Cond) (t_indices : list nat)
    (noise : Tensor) (noise_list : list (Tensor * nat)) (spec : option Side)
  : M G (Tensor * list (Tensor * nat) * option Side) :=
  match t_indices with
  | [] => ret (noise, noise_list, spec)
  | t_index :: rest =>
      '(noise', spec') <- reverse_diffusion noise condition t_index ;;
      sampling_loop condition rest noise'
        (noise_list ++ [(noise', t_index)]) (Some spec')
  end.

(** [reversed(range(0, n))]. *)
Definition reversed_range (n : nat) : list nat := rev (seq 0 n).

Definition fixed_t : nat := 175.

(** [SpecRollDiffusion.sampling]. *)
Definition spec_sampling (self : module) (b : batch)
  : M G (list (Tensor * nat) * Side) :=
  let batch_size := length (frame b) in
  let roll := normalize (frame b) in
  let waveform := audio b in
  noise <- randn_like roll ;;
  let t := repeat (fixed_t - 1)%nat batch_size in
  x_t <- lift (q_sample roll t
                 (Schedule.sqrt_alphas_cumprod (schedule self))
                 (Schedule.sqrt_one_minus_alphas_cumprod (schedule self))
                 (Some noise)) ;;
  let noise := x_t in
  let noise_list := [(noise, fixed_t)] in
  let condition :=
    if debug (hp self) then cond_of_roll roll else waveform in
  '(_, noise_list, spec) <-
    sampling_loop condition (reversed_range fixed_t) noise noise_list None ;;
  match spec with
  | Some spec => ret (noise_list, spec)
  | None => lift (Raise NameError)
  end.

(** [LatentRollDiffusion.sampling]. *)
Definition latent_sampling (self : module) (b : batch)
  : M G (list (Tensor * nat) * Cond) :=
  let roll := normalize (frame b) in
  let latents := dac_latents b in
  noise <- randn_like roll ;;
  let noise_list := [(noise, timesteps (hp self))] in
  let condition :=
    if debug (hp self) then cond_of_roll roll else latents in
  '(_, noise_list, _) <-
    sampling_loop condition (reversed_range (timesteps (hp self)))
      noise noise_list None ;;
  ret (noise_list, latents).

End Sampling.

(** ** Observing the calls of the strategy

    A strategy can be wrapped so that every call that returns is recorded,
    in call order, in a log carried next to the generator state. *)

Record call `{Backend} : Type := {
  call_x : Tensor;
  call_condition : Cond;
  call_t : nat;
  call_out : Tensor
}.

#[export] Instance logged_generator `{Backend} {G : Type} `{!Generator G}
  : Generator (G * list call) := {
  randn := fun '(g, log) => let (s, g') := randn g in (s, (g', log))
}.

Definition logged `{Backend} {G : Type} `{!Generator G}
    (f : strategy (G := G)) : strategy (G := G * list call) :=
  fun x condition t_index '(g, log) =>
    match f x condition t_index g with
    | Ok ((y, side), g') =>
        Ok ((y, side),
            (g', log ++ [ {| call_x := x; call_condition := condition;
                             call_t := t_index; call_out := y |} ]))
    | Raise e => Raise e
    end.

(** ** Note extraction *)

Module Notes.

(** A two-dimensional numpy array: its shape and its entries; [at_ a i j]
    is meaningful for [i < nrows a] and [j < ncols a]. *)
Record ndarray (A : Type) : Type := {
  nrows : nat;
  ncols : nat;
  at_ : nat -> nat -> A
}.

Arguments nrows {A} n.
Arguments ncols {A} n.
Arguments at_ {A} n i j.

Section Arrays.
Context {A B C : Type}.

(** [a[i, j]] for non-negative indices. *)
Definition get (a : ndarray A) (i j : nat) : result A :=
  if (i <? nrows a)%nat && (j <? ncols a)%nat then Ok (at_ a i j)
  else Raise IndexError.

Definition amap (f : A -> B) (a : ndarray A) : ndarray B :=
  {| nrows := nrows a; ncols := ncols a; at_ := fun i j => f (at_ a i j) |}.

(** numpy's broadcasting of one dimension, and the index read along it. *)
Definition bdim (n m : nat) : option nat :=
  if (n =? m)%nat then Some n
  else if (n =? 1)%nat then Some m
  else if (m =? 1)%nat then Some n
  else None.

Definition bidx (dim i : nat) : nat := if (dim =? 1)%nat then 0%nat else i.

(** An element-wise binary operation with broadcasting. *)
Definition amap2 (f : A -> B -> C) (a : ndarray A) (b : ndarray B)
  : result (ndarray C) :=
  match bdim (nrows a) (nrows b), bdim (ncols a) (ncols b) with
  | Some n, Some m =>
      Ok {| nrows := n; ncols := m;
            at_ := fun i j =>
              f (at_ a (bidx (nrows a) i) (bidx (ncols a) j))
                (at_ b (bidx (nrows b) i) (bidx (ncols b) j)) |}
  | _, _ => Raise ValueError
  end.

(** [a[:1, :]], [a[1:, :]] and [a[:-1, :]]. *)
Definition first_row (a : ndarray A) : ndarray A :=
  {| nrows := Nat.min 1 (nrows a); ncols := ncols a; at_ := at_ a |}.

Definition rows_from_1 (a : ndarray A) : ndarray A :=
  {| nrows := nrows a - 1; ncols := ncols a;
     at_ := fun i j => at_ a (i + 1) j |}.

Definition rows_but_last (a : ndarray A) : ndarray A :=
  {| nrows := nrows a - 1; ncols := ncols a; at_ := at_ a |}.

(** [np.concatenate([a, b], axis=0)]. *)
Definition concatenate0 (a b : ndarray A) : result (ndarray A) :=
  if (ncols a =? ncols b)%nat then
    Ok {| nrows := nrows a + nrows b; ncols := ncols a;
          at_ := fun i j =>
            if (i <? nrows a)%nat then at_ a i j else at_ b (i - nrows a) j |}
  else Raise ValueError.

End Arrays.

(** [np.nonzero(a)]: the positions of the true entries, in row-major
    order. *)
Definition nonzero (a : ndarray bool) : list (nat * nat) :=
  flat_map
    (fun i => map (pair i) (filter (fun j => at_ a i j) (seq 0 (ncols a))))
    (seq 0 (nrows a)).

(** The [while] loop that looks for the end of a note.  [None] stands for
    a loop that is still running when [fuel] iterations are used up. *)
Fixpoint note_end (onsets frames : ndarray Z) (pitch fuel offset : nat)
  : option (result nat) :=
  match fuel with
  | O => None
  | S fuel' =>
      match get onsets offset pitch with
      | Raise e => Some (Raise e)
      | Ok o =>
          match (if Z.eqb o 0 then get frames offset pitch else Ok o) with
          | Raise e => Some (Raise e)
          | Ok c =>
              if Z.eqb c 0 then Some (Ok offset)
              else
                let offset := (offset + 1)%nat in
                if (offset =? nrows onsets)%nat then Some (Ok offset)
                else note_end onsets frames pitch fuel' offset
          end
      end
  end.

(** The [for frame, pitch in zip(frame_locs, pitch_locs)] loop. *)
Fixpoint collect (onsets frames : ndarray Z) (positions : list (nat * nat))
    (pitches : list nat) (intervals : list (nat * nat))
  : option (result (list nat * list (nat * nat))) :=
  match positions with
  | [] => Some (Ok (pitches, intervals))
  | (frame, pitch) :: rest =>
      let onset := frame in
      match note_end onsets frames pitch (nrows onsets) frame with
      | None => None
      | Some (Raise e) => Some (Raise e)
      | Some (Ok offset) =>
          if (onset <? offset)%nat
          then collect onsets frames rest
                 (pitches ++ [pitch]) (intervals ++ [(onset, offset)])
          else collect onsets frames rest pitches intervals
      end
  end.

(** The statements of [extract_notes_wo_velocity] between the thresholding
    and the loop: [onset_diff], from the thresholded grids and the rule. *)
Definition onset_mask (onsets frames : ndarray Z) (rule : string)
  : result (ndarray bool) :=
  rbind (amap2 Z.sub (rows_from_1 onsets) (rows_but_last onsets))
    (fun diff =>
  rbind (concatenate0 (first_row onsets) diff) (fun cat =>
  let onset_diff := amap (Z.eqb 1) cat in
  if String.eqb rule "rule2" then Ok onset_diff
  else if String.eqb rule "rule1"
       then amap2 andb onset_diff (amap (Z.eqb 1) frames)
  else Raise NameError)).

Section Extract.
Context {A : Type}.
(** [a > b] on the entries of the input grids. *)
Variable gtb : A -> A -> bool.

(** [(a > threshold).astype(int)]. *)
Definition above (threshold : A) (a : ndarray A) : ndarray Z :=
  amap (fun v => if gtb v threshold then 1%Z else 0%Z) a.

Definition extract_notes_wo_velocity (onsets frames : ndarray A)
    (onset_threshold frame_threshold : A) (rule : string)
  : option (result (list nat * list (nat * nat))) :=
  let onsets := above onset_threshold onsets in
  let frames := above frame_threshold frames in
  match onset_mask onsets frames rule with
  | Raise e => Some (Raise e)
  | Ok onset_diff => collect onsets frames (nonzero onset_diff) [] []
  end.

End Extract.

End Notes.



(** ** The training step *)

(** [torch.randint(0, high, (size,))] on the global generator: for a
    positive [high] it returns [size] integers below [high]. *)
Class IntGenerator (G : Type) : Type := {
  randint : G -> nat -> nat -> list nat * G;
  randint_length :
    forall g high size, length (fst (randint g high size)) = size;
  randint_range :
    forall g high size, (0 < high)%nat ->
      Forall (fun t => (t < high)%nat) (fst (randint g high size))
}.

(** [torch.randint] raises when the range [0, high) is empty. *)
Definition torch_randint {G : Type} `{!IntGenerator G} (high size : nat)
  : M G (list nat) :=
  fun g =>
    if (high =? 0)%nat then Raise RuntimeError
    else Ok (randint g high size).

(** [LatentRollDiffusion.step]; [mode] is [self.hparams.training.mode].
    The result is the value stored under ['diffusion_loss'] and the values
    stored under ['pred_roll'], ['label_roll'] and ['latents']. *)
Definition latent_step `{Backend} {G : Type} `{!Generator G}
    `{!IntGenerator G} (self : module) (mode : string) (b : batch)
  : M G (R * (Tensor * Tensor * Side)) :=
  let batch_size := length (frame b) in
  let roll := normalize (frame b) in
  let latents := dac_latents b in
  t <- torch_randint (timesteps (hp self)) batch_size ;;
  noise <- randn_like roll ;;
  x_t <- lift (q_sample roll t
                 (Schedule.sqrt_alphas_cumprod (schedule self))
                 (Schedule.sqrt_one_minus_alphas_cumprod (schedule self))
                 (Some noise)) ;;
  if String.eqb mode "epsilon" then
    let '(epsilon_pred, latent_features) :=
      forward x_t (if debug (hp self) then cond_of_roll roll else latents)
        t NoKwargs in
    diffusion_loss <-
      lift (p_losses noise epsilon_pred (loss_type (hp self))) ;;
    pred_roll <-
      lift (extract_x0 x_t epsilon_pred t
              (Schedule.sqrt_alphas_cumprod (schedule self))
              (Schedule.sqrt_one_minus_alphas_cumprod (schedule self))) ;;
    ret (diffusion_loss, (pred_roll, roll, latent_features))
  else if String.eqb mode "x_0" then
    let '(pred_roll, latent_features) := forward x_t latents t NoKwargs in
    diffusion_loss <-
      lift (p_losses roll pred_roll (loss_type (hp self))) ;;
    ret (diffusion_loss, (pred_roll, roll, latent_features))
  else lift (Raise NameError).

(** The loss types that [p_losses] knows. *)
Definition recognised_loss (loss_type : string) : Prop :=
  loss_type = "l1"%string \/ loss_type = "l2"%string
  \/ loss_type = "huber"%string.

(** ** MIDI export *)

Module Midi.

(** The ['on'] and ['off'] of an event and of the message made from it. *)
Inductive kind : Type :=
| On
| Off.

(** The dictionaries that [save_midi] collects; [P] is the type of the
    pitch values and times and velocities are exact rationals. *)
Record event (P : Type) : Type := {
  type : kind;
  pitch : P;
  time : Q;
  velocity : Q
}.

Arguments type {P} e.
Arguments pitch {P} e.
Arguments time {P} e.
Arguments velocity {P} e.

(** [Message('note_' + type, note=..., velocity=..., time=...)]. *)
Record message : Type := {
  msg_type : kind;
  msg_note : Z;
  msg_velocity : Z;
  msg_time : Z
}.

(** Python's [int(x)]: truncation towards zero. *)
Definition int (q : Q) : Z := Z.quot (Qnum q) (Z.pos (Qden q)).

Section SaveMidi.
Context {P : Type}.
(** [int(round(hz_to_midi(pitch)))], from [mir_eval], and
    [MidiFile().ticks_per_beat], from [mido]. *)
Variable to_note : P -> Z.
Variable ticks_per_beat : Z.

(** The body of [for i in range(len(pitches))], for the indices in [is]. *)
Fixpoint collect_events (pitches : list P) (intervals : list (Q * Q))
    (velocities : list Q) (indices : list nat) (events : list (event P))
  : result (list (event P)) :=
  match indices with
  | [] => Ok events
  | i :: rest =>
      rbind (index pitches i) (fun p =>
      rbind (index intervals i) (fun iv =>
      rbind (index velocities i) (fun v =>
      let on := {| type := On; pitch := p; time := fst iv; velocity := v |} in
      rbind (index pitches i) (fun p' =>
      rbind (index intervals i) (fun iv' =>
      rbind (index velocities i) (fun v' =>
      let off :=
        {| type := Off; pitch := p'; time := snd iv'; velocity := v' |} in
      collect_events pitches intervals velocities rest
        (events ++ [on; off])))))))
  end.

(** [events.sort(key=lambda row: row['time'])]: the stable sort by time. *)
Fixpoint insert_by_time (e : event P) (l : list (event P)) : list (event P) :=
  match l with
  | [] => [e]
  | x :: l' =>
      if Qle_bool (time e) (time x) then e :: l
      else x :: insert_by_time e l'
  end.

Definition sort_by_time (l : list (event P)) : list (event P) :=
  fold_right insert_by_time [] l.

(** The order that the sort establishes. *)
Definition by_time (a b : event P) : Prop := (time a <= time b)%Q.

(** mido's [Message('note_' + type, note=..., velocity=..., time=...)]: a
    data byte, [note] or [velocity], outside 0..127 raises [ValueError]. *)
Definition Message (type : kind) (note velocity time : Z) : result message :=
  if ((0 <=? note) && (note <=? 127)
      && (0 <=? velocity) && (velocity <=? 127))%Z
  then Ok {| msg_type := type; msg_note := note; msg_velocity := velocity;
             msg_time := time |}
  else Raise ValueError.

(** The [for event in events] loop, from [last_tick]: the messages appended
    to the track, or the exception of the first message that is refused. *)
Fixpoint messages (ticks_per_second : Q) (last_tick : Z)
    (events : list (event P)) : result (list message) :=
  match events with
  | [] => Ok []
  | e :: rest =>
      let current_tick := int (time e * ticks_per_second) in
      let velocity := int (velocity e * inject_Z 127) in
      let velocity := if (127 <? velocity)%Z then 127%Z else velocity in
      let pitch := to_note (pitch e) in
      rbind (Message (type e) pitch velocity (current_tick - last_tick)%Z)
        (fun m =>
      rbind (messages ticks_per_second current_tick rest) (fun track =>
      Ok (m :: track)))
  end.

(** [save_midi(path, pitches, intervals, velocities)]: the messages of the
    track that is handed to [file.save(path)]. *)
Definition save_midi (pitches : list P) (intervals : list (Q * Q))
    (velocities : list Q) : result (list message) :=
  let ticks_per_second := (inject_Z ticks_per_beat * inject_Z 2)%Q in
  rbind (collect_events pitches intervals velocities
           (seq 0 (length pitches)) [])
    (fun events => messages ticks_per_second 0 (sort_by_time events)).

End SaveMidi.

End Midi.

(** ** Vocabulary of the properties *)

(** The variants that draw noise in their general step. *)
Definition stochastic_variants : list variant :=
  [Ddpm; Ddpm_x0; Ddim2ddpm; Cfdg_ddpm_x0; Generation_ddpm_x0;
   Inpainting_ddpm_x0].

(** A computation that neither reads nor advances the generator: it is the
    lifting of one fixed result. *)
Definition generator_free {G A : Type} (m : M G A) : Prop :=
  exists r : result A, forall g : G, m g = lift r g.

(** A computation whose outcome, apart from the generator state it leaves
    behind, is the same for every generator state: it may draw, but the
    draws do not show in the value it returns or the exception it raises. *)
Definition value_determined {G A : Type} (m : M G A) : Prop :=
  exists r : result A, forall g : G,
    match r with
    | Ok a => exists g', m g = Ok (a, g')
    | Raise e => m g = Raise e
    end.

(** The variants in which the network predicts the clean signal. *)
Inductive x0_variant : Type :=
| X0_ddpm
| X0_ddim
| X0_cfdg_ddpm
| X0_cfdg_ddim
| X0_generation_ddpm
| X0_inpainting_ddpm.

Definition variant_of_x0 (v : x0_variant) : variant :=
  match v with
  | X0_ddpm => Ddpm_x0
  | X0_ddim => Ddim_x0
  | X0_cfdg_ddpm => Cfdg_ddpm_x0
  | X0_cfdg_ddim => Cfdg_ddim_x0
  | X0_generation_ddpm => Generation_ddpm_x0
  | X0_inpainting_ddpm => Inpainting_ddpm_x0
  end.

(** The value that each of these methods binds to [x0_pred]: the network
    prediction, or the guided combination of the conditional and the
    unconditional prediction. *)
Definition x0_estimate `{Backend} (self : module) (v : x0_variant)
    (x : Tensor) (waveform : Cond) (t_index : nat) : result Tensor :=
  let t_tensor := t_tensor_of x t_index in
  let uncond := fst (forward x (zeros_like waveform) t_tensor SamplingTrue) in
  match v with
  | X0_ddpm | X0_ddim => Ok (fst (forward x waveform t_tensor NoKwargs))
  | X0_cfdg_ddpm =>
      guided self (fst (forward x waveform t_tensor NoKwargs)) uncond
  | X0_cfdg_ddim =>
      guided self (fst (forward x waveform t_tensor NoKwargs))
        (fst (forward x (zeros_like waveform) t_tensor NoKwargs))
  | X0_generation_ddpm => Ok uncond
  | X0_inpainting_ddpm =>
      rbind (hparam (inpainting_t (hp self))) (fun it =>
      rbind (hparam (inpainting_f (hp self))) (fun i_f =>
      guided self (fst (forward x waveform t_tensor (Inpainting it i_f)))
        uncond))
  end.

(** A thresholded grid is set at frame [i], pitch [j]. *)
Definition lit (a : Notes.ndarray Z) (i j : nat) : bool :=
  negb (Z.eqb (Notes.at_ a i j) 0).

(** The positions of an [n] by [m] grid in row-major order. *)
Definition row_major (n m : nat) : list (nat * nat) :=
  flat_map (fun i => map (pair i) (seq 0 m)) (seq 0 n).

Section NoteVocabulary.
Context {A : Type}.
Variable gtb : A -> A -> bool.
Variables onsets frames : Notes.ndarray A.
Variables onset_threshold frame_threshold : A.

(** The onset grid is above its threshold at frame [i] and was not at
    frame [i - 1]. *)
Definition rising (i j : nat) : bool :=
  gtb (Notes.at_ onsets i j) onset_threshold
  && ((i =? 0)%nat
      || negb (gtb (Notes.at_ onsets (i - 1) j) onset_threshold)).

(** A note starts at frame [i] of pitch [j] under the given rule. *)
Definition note_start (rule : string) (i j : nat) : bool :=
  rising i j
  && (String.eqb rule "rule2" || gtb (Notes.at_ frames i j) frame_threshold).

(** One of the two grids is above its threshold at frame [i], pitch [j]. *)
Definition sounding (i j : nat) : bool :=
  gtb (Notes.at_ onsets i j) onset_threshold
  || gtb (Notes.at_ frames i j) frame_threshold.

End NoteVocabulary.

(** The module that [__init__] assembles from the hyper-parameters. *)
Definition module_of (h : hparams) : module :=
  {| hp := h; schedule := Schedule.build (timesteps h) |}.

(** ** A small concrete setting

    One position per sample, a network that returns its input unchanged, a
    generator that always draws zero and a strategy that returns its input
    state: enough to run the definitions above on concrete inputs. *)

Module Stub.

Definition backend : Backend := {|
  Idx := unit;
  Cond := unit;
  Side := unit;
  forward := fun x _ _ _ => (x, tt);
  forward_shape := fun _ _ _ _ => eq_refl;
  zeros_like := fun c => c;
  cond_of_roll := fun _ => tt;
  normalize := fun x => x;
  normalize_shape := fun _ => eq_refl;
  l1_loss := fun _ _ => 0;
  mse_loss := fun _ _ => 0;
  smooth_l1_loss := fun _ _ => 0
|}.

(** A network that predicts the constant [v] at every position of every
    batch element, whatever its input. *)
Definition constant (v : R) : Backend := {|
  Idx := unit;
  Cond := unit;
  Side := unit;
  forward := fun x _ _ _ => (map (fun _ => fun _ => v) x, tt);
  forward_shape := fun x _ _ _ => length_map (fun _ => fun _ => v) x;
  zeros_like := fun c => c;
  cond_of_roll := fun _ => tt;
  normalize := fun x => x;
  normalize_shape := fun _ => eq_refl;
  l1_loss := fun _ _ => 0;
  mse_loss := fun _ _ => 0;
  smooth_l1_loss := fun _ _ => 0
|}.

Definition constant_generator (v : R) : @Generator (constant v) unit := {|
  randn := fun g => (fun _ => 0, g)
|}.

Definition generator : @Generator backend unit := {|
  randn := fun g => (fun _ => 0, g)
|}.

Definition const (v : R) : @Idx backend -> R := fun _ => v.

Definition keep : @strategy backend unit :=
  fun x _ _ => ret (x, tt).

Definition one_frame : @batch backend :=
  {| frame := [const 0]; audio := tt; dac_latents := tt |}.

Definition hparams_of (timesteps : nat) (loss_type sampling_type : string)
  : hparams :=
  {| timesteps := timesteps;
     loss_type := loss_type;
     debug := false;
     sampling_type := sampling_type;
     sampling_w := 0;
     inpainting_t := None;
     inpainting_f := None |}.

(** A grid of two frames and one pitch with a note on the first frame,
    with entries compared as integers. *)
Definition grid_2x1 : Notes.ndarray Z :=
  {| Notes.nrows := 2; Notes.ncols := 1;
     Notes.at_ := fun i _ => if (i =? 0)%nat then 1%Z else 0%Z |}.

(** An integer generator that always draws zero. *)
Definition zero_randint : IntGenerator unit := {|
  randint := fun g _ size => (repeat 0%nat size, g);
  randint_length := fun _ _ size => repeat_length 0%nat size;
  randint_range := fun _ high size Hpos =>
    proj2 (Forall_forall (fun t => (t < high)%nat) (repeat 0%nat size))
      (fun t Hin =>
         eq_ind_r (fun u => (u < high)%nat) Hpos
           (repeat_spec size 0%nat t Hin))
|}.

(** A generator whose state counts the draws made so far. *)
Definition counting : @Generator backend nat := {|
  randn := fun n => (fun _ => INR n, S n)
|}.

(** A module with two timesteps and hand-written coefficient tables. *)
Definition two_steps : module :=
  {| hp := hparams_of 2 "l1" "ddpm";
     schedule :=
       {| Schedule.betas := [1; 1];
          Schedule.alphas := [1; 1];
          Schedule.sqrt_recip_alphas := [1; 1];
          Schedule.sqrt_alphas_cumprod := [1; 1];
          Schedule.sqrt_one_minus_alphas_cumprod := [1; 1];
          Schedule.posterior_variance := [1; 1] |} |}.

End Stub.

(** * Properties *)

(** ** Lists and results *)

Lemma zip_with_length {A B C : Type} (f : A -> B -> C) (l : list A)
    (m : list B) :
  length (zip_with f l m) = Nat.min (length l) (length m).
Proof.
  revert m; induction l as [|a l IH]; intros [|b m]; simpl; auto.
Qed.

Lemma zip_with_nth {A B C : Type} (f : A -> B -> C) (l : list A)
    (m : list B) (i : nat) (da : A) (db : B) (dc : C) :
  (i < length l)%nat -> (i < length m)%nat ->
  nth i (zip_with f l m) dc = f (nth i l da) (nth i m db).
Proof.
  revert m i; induction l as [|a l IH]; intros [|b m] [|i]; simpl;
    intros Hl Hm; try lia; auto.
  apply IH; lia.
Qed.

Lemma index_nth {A : Type} (l : list A) (i : nat) (d : A) :
  (i < length l)%nat -> index l i = Ok (nth i l d).
Proof.
  intros Hi. unfold index.
  rewrite (nth_error_nth' l d Hi). reflexivity.
Qed.

Lemma index_Ok_lt {A : Type} (l : list A) (i : nat) (a : A) :
  index l i = Ok a -> (i < length l)%nat.
Proof.
  unfold index. destruct (nth_error l i) eqn:E; [|discriminate].
  intros _. apply nth_error_Some. congruence.
Qed.

(** ** The noise schedule *)

Module ScheduleFacts.
Import Schedule.

Lemma linspace_length (a b : R) (n : nat) : length (linspace a b n) = n.
Proof. unfold linspace. now rewrite length_map, length_seq. Qed.

Lemma removelast_length {A : Type} (l : list A) :
  length (removelast l) = (length l - 1)%nat.
Proof.
  induction l as [|a [|b l] IH]; simpl in *; auto. rewrite IH. lia.
Qed.

Lemma tl_length {A : Type} (l : list A) : length (tl l) = (length l - 1)%nat.
Proof. destruct l; simpl; lia. Qed.

Lemma cosine_beta_schedule_length (timesteps : nat) (s : R) :
  length (cosine_beta_schedule timesteps s) = timesteps.
Proof.
  unfold cosine_beta_schedule.
  rewrite !length_map, zip_with_length, tl_length, removelast_length.
  rewrite !length_map, linspace_length. lia.
Qed.

Lemma clip_bounds (lo hi x : R) : lo <= hi -> lo <= clip lo hi x <= hi.
Proof.
  intros H. unfold clip, Rmin, Rmax.
  destruct (Rle_dec x lo); destruct (Rle_dec _ hi); lra.
Qed.

Lemma cosine_beta_schedule_range (timesteps : nat) (s : R) :
  Forall in_clip_range (cosine_beta_schedule timesteps s).
Proof.
  unfold cosine_beta_schedule. apply Forall_forall. intros b Hb.
  apply in_map_iff in Hb. destruct Hb as (q & <- & _).
  apply clip_bounds. lra.
Qed.

Lemma alphas_of_length (bs : list R) : length (alphas_of bs) = length bs.
Proof. unfold alphas_of. apply length_map. Qed.

Lemma cumprod_from_length (acc : R) (l : list R) :
  length (cumprod_from acc l) = length l.
Proof. revert acc; induction l; simpl; auto. Qed.

Lemma alphas_cumprod_of_length (bs : list R) :
  length (alphas_cumprod_of bs) = length bs.
Proof.
  unfold alphas_cumprod_of, cumprod.
  now rewrite cumprod_from_length, alphas_of_length.
Qed.

(** Each entry of a cumulative product is the previous entry times the
    next factor. *)
Lemma cumprod_from_nth_S (l : list R) (acc : R) (i : nat) :
  (S i < length l)%nat ->
  nth (S i) (cumprod_from acc l) 0 =
  nth i (cumprod_from acc l) 0 * nth (S i) l 0.
Proof.
  revert acc i; induction l as [|a l IH]; intros acc i Hi; simpl in Hi.
  - lia.
  - destruct i as [|i].
    + destruct l as [|b l]; simpl in *; [lia | reflexivity].
    + change (nth (S (S i)) (cumprod_from acc (a :: l)) 0)
        with (nth (S i) (cumprod_from (acc * a) l) 0).
      change (nth (S i) (cumprod_from acc (a :: l)) 0)
        with (nth i (cumprod_from (acc * a) l) 0).
      change (nth (S (S i)) (a :: l) 0) with (nth (S i) l 0).
      apply IH. lia.
Qed.

Lemma cumprod_from_nth_0 (l : list R) (acc : R) :
  (0 < length l)%nat ->
  nth 0 (cumprod_from acc l) 0 = acc * nth 0 l 0.
Proof. destruct l; simpl; [lia | reflexivity]. Qed.

Lemma alphas_of_nth (bs : list R) (i : nat) :
  (i < length bs)%nat -> nth i (alphas_of bs) 0 = 1 - nth i bs 0.
Proof.
  intros Hi. unfold alphas_of.
  rewrite (nth_indep _ 0 ((fun b => 1 - b) 0)) by (rewrite length_map; lia).
  apply map_nth.
Qed.

Lemma alphas_of_range (bs : list R) (i : nat) :
  Forall in_clip_range bs -> (i < length bs)%nat ->
  1 / 10000 <= nth i (alphas_of bs) 0 <= 9999 / 10000.
Proof.
  intros Hr Hi. rewrite alphas_of_nth by assumption.
  rewrite Forall_forall in Hr.
  specialize (Hr (nth i bs 0) (nth_In _ _ Hi)). unfold in_clip_range in Hr.
  lra.
Qed.

(** With every beta in the clip range, the cumulative products of the
    alphas lie in (0, 1). *)
Lemma alphas_cumprod_pos_lt_1 (bs : list R) (i : nat) :
  Forall in_clip_range bs -> (i < length bs)%nat ->
  0 < nth i (alphas_cumprod_of bs) 0 < 1.
Proof.
  intros Hr. induction i as [|i IH]; intros Hi.
  - unfold alphas_cumprod_of, cumprod.
    rewrite cumprod_from_nth_0 by (rewrite alphas_of_length; lia).
    pose proof (alphas_of_range bs 0 Hr Hi). lra.
  - unfold alphas_cumprod_of, cumprod in *.
    rewrite cumprod_from_nth_S by (rewrite alphas_of_length; lia).
    pose proof (alphas_of_range bs (S i) Hr Hi).
    assert (Hi' : (i < length bs)%nat) by lia. specialize (IH Hi').
    nra.
Qed.

Lemma alphas_cumprod_step (bs : list R) (i : nat) :
  Forall in_clip_range bs -> (S i < length bs)%nat ->
  nth (S i) (alphas_cumprod_of bs) 0 < nth i (alphas_cumprod_of bs) 0.
Proof.
  intros Hr Hi.
  assert (Hi' : (i < length bs)%nat) by lia.
  pose proof (alphas_cumprod_pos_lt_1 bs i Hr Hi') as Hp.
  pose proof (alphas_of_range bs (S i) Hr Hi) as Ha.
  unfold alphas_cumprod_of, cumprod in *.
  rewrite cumprod_from_nth_S by (rewrite alphas_of_length; lia).
  nra.
Qed.

Lemma alphas_cumprod_strict (bs : list R) (i j : nat) :
  Forall in_clip_range bs -> (i < j)%nat -> (j < length bs)%nat ->
  nth j (alphas_cumprod_of bs) 0 < nth i (alphas_cumprod_of bs) 0.
Proof.
  intros Hr Hij. induction Hij as [|j Hij IH]; intros Hj.
  - now apply alphas_cumprod_step.
  - apply Rlt_trans with (nth j (alphas_cumprod_of bs) 0).
    + now apply alphas_cumprod_step.
    + apply IH. lia.
Qed.

End ScheduleFacts.

Section ScheduleClaims.
Import Schedule ScheduleFacts.

Lemma removelast_nth {A : Type} (l : list A) (i : nat) (d : A) :
  (i < length l - 1)%nat -> nth i (removelast l) d = nth i l d.
Proof.
  revert i; induction l as [|a [|b l] IH]; intros i Hi; simpl in Hi;
    try lia.
  destruct i as [|i]; [reflexivity|].
  change (nth (S i) (removelast (a :: b :: l)) d)
    with (nth i (removelast (b :: l)) d).
  change (nth (S i) (a :: b :: l) d) with (nth i (b :: l) d).
  apply IH. simpl. lia.
Qed.

Lemma posterior_variance_of_length (bs : list R) :
  length (posterior_variance_of bs) = length bs.
Proof.
  unfold posterior_variance_of, alphas_cumprod_prev_of.
  rewrite !zip_with_length, !length_map. simpl.
  rewrite removelast_length, alphas_cumprod_of_length. lia.
Qed.

Lemma posterior_variance_of_nth (bs : list R) (i : nat) :
  (i < length bs)%nat ->
  nth i (posterior_variance_of bs) 0 =
  nth i bs 0 * (1 - nth i (alphas_cumprod_prev_of bs) 0)
  / (1 - nth i (alphas_cumprod_of bs) 0).
Proof.
  intros Hi. unfold posterior_variance_of.
  assert (Hprev : length (alphas_cumprod_prev_of bs) = length bs).
  { unfold alphas_cumprod_prev_of. simpl.
    rewrite removelast_length, alphas_cumprod_of_length. lia. }
  rewrite (zip_with_nth Rdiv _ _ i 0 0 0).
  2:{ rewrite zip_with_length, length_map, Hprev. lia. }
  2:{ rewrite length_map, alphas_cumprod_of_length. lia. }
  rewrite (zip_with_nth Rmult _ _ i 0 0 0).
  2:{ lia. }
  2:{ rewrite length_map, Hprev. lia. }
  rewrite (nth_indep (map _ (alphas_cumprod_prev_of bs)) 0
             ((fun a => 1 - a) 0)) by (rewrite length_map, Hprev; lia).
  rewrite (nth_indep (map _ (alphas_cumprod_of bs)) 0
             ((fun a => 1 - a) 0))
    by (rewrite length_map, alphas_cumprod_of_length; lia).
  rewrite !map_nth. reflexivity.
Qed.

(** C6: a cosine schedule built with [timesteps = 10] has exactly 10 beta
    values, each in the closed interval [1e-4, 0.9999]; the cumulative
    products of the alphas derived from it are non-increasing, and the last
    one is strictly below the first. *)
Theorem cosine_schedule_10 :
  let betas := Schedule.betas (Schedule.build 10) in
  let alphas_cumprod := Schedule.alphas_cumprod_of betas in
  betas = Schedule.cosine_beta_schedule 10 Schedule.default_s /\
  length betas = 10%nat /\
  Forall (fun b => 1 / 10000 <= b <= 9999 / 10000) betas /\
  length alphas_cumprod = 10%nat /\
  (forall i j : nat, (i <= j)%nat -> (j < 10)%nat ->
     nth j alphas_cumprod 0 <= nth i alphas_cumprod 0) /\
  nth 9 alphas_cumprod 0 < nth 0 alphas_cumprod 0.
Proof.
  cbv zeta. change (Schedule.betas (build 10))
    with (cosine_beta_schedule 10 default_s).
  pose proof (cosine_beta_schedule_length 10 default_s) as Hlen.
  pose proof (cosine_beta_schedule_range 10 default_s) as Hr.
  split; [reflexivity|]. split; [exact Hlen|]. split; [exact Hr|].
  split; [now rewrite alphas_cumprod_of_length|]. split.
  - intros i j Hij Hj.
    destruct (Nat.eq_dec i j) as [->|Hne]; [lra|].
    apply Rlt_le, alphas_cumprod_strict; [exact Hr | lia | lia].
  - apply alphas_cumprod_strict; [exact Hr | lia | lia].
Qed.

(** C10: for every schedule built at construction with [timesteps >= 1],
    the padded previous cumulative product starts with 1, so
    [posterior_variance[0]] is exactly 0, and [posterior_variance[t]] is
    non-negative for every [t >= 1]. *)
Theorem posterior_variance_first_zero (timesteps : nat) :
  (1 <= timesteps)%nat ->
  let s := Schedule.build timesteps in
  length (Schedule.posterior_variance s) = timesteps /\
  nth 0 (Schedule.alphas_cumprod_prev_of (Schedule.betas s)) 0 = 1 /\
  index (Schedule.posterior_variance s) 0 = Ok 0 /\
  forall t : nat, (1 <= t)%nat -> (t < timesteps)%nat ->
    exists v, index (Schedule.posterior_variance s) t = Ok v /\ 0 <= v.
Proof.
  intros HT. cbv zeta.
  change (Schedule.posterior_variance (build timesteps))
    with (posterior_variance_of (cosine_beta_schedule timesteps default_s)).
  change (Schedule.betas (build timesteps))
    with (cosine_beta_schedule timesteps default_s).
  set (bs := cosine_beta_schedule timesteps default_s).
  assert (Hlen : length bs = timesteps)
    by apply cosine_beta_schedule_length.
  assert (Hr : Forall in_clip_range bs)
    by apply cosine_beta_schedule_range.
  assert (Hpv : length (posterior_variance_of bs) = timesteps)
    by (rewrite posterior_variance_of_length; exact Hlen).
  split; [exact Hpv|]. split; [reflexivity|]. split.
  - rewrite (index_nth _ 0 0) by lia.
    rewrite posterior_variance_of_nth by lia.
    f_equal. unfold alphas_cumprod_prev_of. simpl nth at 2.
    unfold Rdiv. ring.
  - intros t Ht1 Ht. exists (nth t (posterior_variance_of bs) 0). split.
    + apply index_nth. lia.
    + rewrite posterior_variance_of_nth by lia.
      destruct t as [|k]; [lia|].
      unfold alphas_cumprod_prev_of.
      change (nth (S k) (1 :: removelast (alphas_cumprod_of bs)) 0)
        with (nth k (removelast (alphas_cumprod_of bs)) 0).
      rewrite removelast_nth by (rewrite alphas_cumprod_of_length; lia).
      assert (Hk : (k < length bs)%nat) by lia.
      assert (HSk : (S k < length bs)%nat) by lia.
      pose proof (alphas_cumprod_pos_lt_1 bs k Hr Hk) as H1.
      pose proof (alphas_cumprod_pos_lt_1 bs (S k) Hr HSk) as H2.
      rewrite Forall_forall in Hr.
      pose proof (Hr (nth (S k) bs 0) (nth_In _ _ HSk)) as Hb.
      unfold in_clip_range in Hb.
      apply Rmult_le_pos.
      * apply Rmult_le_pos; lra.
      * apply Rlt_le, Rinv_0_lt_compat. lra.
Qed.

(** Witness for C10: the schedule of 10 timesteps. *)
Lemma posterior_variance_first_zero_witness :
  (1 <= 10)%nat /\
  index (Schedule.posterior_variance (Schedule.build 10)) 0 = Ok 0.
Proof.
  split; [lia|].
  apply (posterior_variance_first_zero 10). lia.
Defined.

End ScheduleClaims.

(** ** The forward process *)

Section ForwardProcess.
Context `{Backend}.

Lemma broadcast2_same_length {A B C : Type} (f : A -> B -> C)
    (a : list A) (b : list B) :
  length a = length b -> broadcast2 f a b = Ok (zip_with f a b).
Proof.
  intros E. unfold broadcast2.
  now rewrite (proj2 (Nat.eqb_eq _ _) E).
Qed.

Lemma gather_Ok (table : list R) (t : list nat) :
  Forall (fun i => (i < length table)%nat) t ->
  gather table t = Ok (map (fun i => nth i table 0) t).
Proof.
  induction 1 as [|i t Hi _ IH]; simpl; [reflexivity|].
  rewrite (index_nth table i 0 Hi). simpl. rewrite IH. reflexivity.
Qed.

Lemma sample_round_trip (a b : R) (s m : Sample) :
  a <> 0 -> sdiv (ssub (sadd (smul a s) (smul b m)) (smul b m)) a = s.
Proof.
  intros Ha. extensionality i. unfold sdiv, ssub, sadd, smul. now field.
Qed.

Lemma zip_round_trip (x n : Tensor) (ca cb : list R) :
  length ca = length x -> length cb = length x -> length n = length x ->
  Forall (fun a => a <> 0) ca ->
  zip_with sdiv
    (zip_with ssub (zip_with sadd (zip_with smul ca x) (zip_with smul cb n))
       (zip_with smul cb n)) ca = x.
Proof.
  revert n ca cb; induction x as [|s x IH];
    intros [|m n] [|a ca] [|b cb]; simpl; intros Ea Eb En Hnz;
    try discriminate; try reflexivity.
  inversion Hnz; subst.
  rewrite sample_round_trip by assumption.
  f_equal. apply IH; auto.
Qed.

(** C3: with the noise given to [extract_x0] equal to the noise injected by
    [q_sample], a timestep vector with one valid index per batch element and
    a non-zero [sqrt_alphas_cumprod] at every index, [q_sample] returns and
    [extract_x0] recovers the clean sample exactly. *)
Theorem extract_x0_q_sample_round_trip (x0 n : Tensor) (t : list nat)
    (sqrt_alphas_cumprod sqrt_one_minus_alphas_cumprod : list R) :
  length t = length x0 ->
  length n = length x0 ->
  Forall (fun i => exists a, index sqrt_alphas_cumprod i = Ok a /\ a <> 0) t ->
  Forall (fun i => (i < length sqrt_one_minus_alphas_cumprod)%nat) t ->
  exists x_t,
    q_sample x0 t sqrt_alphas_cumprod sqrt_one_minus_alphas_cumprod (Some n)
      = Ok x_t /\
    extract_x0 x_t n t sqrt_alphas_cumprod sqrt_one_minus_alphas_cumprod
      = Ok x0.
Proof.
  intros Et En Ha Hb.
  assert (Ha' : Forall (fun i => (i < length sqrt_alphas_cumprod)%nat) t).
  { eapply Forall_impl; [|exact Ha]. intros i (a & Hi & _).
    eapply index_Ok_lt; eauto. }
  assert (Hnz : Forall (fun a => a <> 0)
                  (map (fun i => nth i sqrt_alphas_cumprod 0) t)).
  { apply Forall_map. eapply Forall_impl; [|exact Ha].
    intros i (a & Hi & Hne). cbv beta.
    rewrite (index_nth _ i 0) in Hi by (eapply index_Ok_lt; eauto).
    congruence. }
  set (ca := map (fun i => nth i sqrt_alphas_cumprod 0) t) in *.
  set (cb := map (fun i => nth i sqrt_one_minus_alphas_cumprod 0) t).
  assert (Eca : length ca = length x0) by (unfold ca; now rewrite length_map).
  assert (Ecb : length cb = length x0) by (unfold cb; now rewrite length_map).
  exists (zip_with sadd (zip_with smul ca x0) (zip_with smul cb n)).
  unfold q_sample, extract_x0, tadd, tsub.
  rewrite (gather_Ok _ _ Ha'), (gather_Ok _ _ Hb). fold ca cb. simpl.
  rewrite (broadcast2_same_length smul ca x0) by lia. simpl.
  rewrite (broadcast2_same_length smul cb n) by lia. simpl.
  rewrite broadcast2_same_length
    by (rewrite !zip_with_length; lia).
  split; [reflexivity|]. simpl.
  rewrite broadcast2_same_length
    by (rewrite !zip_with_length; lia).
  simpl.
  rewrite broadcast2_same_length
    by (rewrite !zip_with_length; lia).
  f_equal. apply zip_round_trip; auto.
Qed.

(** C5: called without a noise argument, [q_sample] draws nothing: once the
    coefficient lookups and the product with [x_start] have gone through, it
    raises [TypeError] on [... * noise] with [noise = None]. *)
Theorem q_sample_without_noise (x_start : Tensor) (t : list nat)
    (sqrt_alphas_cumprod sqrt_one_minus_alphas_cumprod : list R) :
  forall r,
    q_sample x_start t sqrt_alphas_cumprod sqrt_one_minus_alphas_cumprod None
      <> Ok r.
Proof.
  intros r. unfold q_sample.
  destruct (gather sqrt_alphas_cumprod t); simpl; [|discriminate].
  destruct (gather sqrt_one_minus_alphas_cumprod t); simpl; [|discriminate].
  destruct (broadcast2 smul a x_start); simpl; discriminate.
Qed.

End ForwardProcess.

(** ** The sampling loops *)

Section SamplingFacts.
Context `{Backend} {G : Type} `{!Generator G}.

Lemma randn_like_Ok (x : Tensor) (g : G) :
  exists r g', randn_like x g = Ok (r, g') /\ length r = length x.
Proof.
  revert g; induction x as [|s x IH]; intros g; simpl.
  - exists [], g. split; reflexivity.
  - destruct (randn g) as [s0 g1].
    destruct (IH g1) as (r & g2 & E & L). rewrite E.
    exists (s0 :: r), g2. split; [reflexivity | simpl; congruence].
Qed.


Lemma reversed_range_length (n : nat) : length (reversed_range n) = n.
Proof. unfold reversed_range. now rewrite length_rev, length_seq. Qed.


(** A strategy that returns at every timestep index below [bound], on every
    state, condition and generator state. *)
Variable f : strategy (G := G).
Variable bound : nat.
Hypothesis f_returns :
  forall x c t g, (t < bound)%nat ->
    exists y side g', f x c t g = Ok ((y, side), g').




End SamplingFacts.

Section SamplingClaims.
Import Schedule ScheduleFacts.

Lemma build_table_lengths (timesteps : nat) :
  length (Schedule.sqrt_alphas_cumprod (build timesteps)) = timesteps /\
  length (Schedule.sqrt_one_minus_alphas_cumprod (build timesteps))
    = timesteps.
Proof.
  unfold build, of_betas. simpl.
  rewrite !length_map, alphas_cumprod_of_length,
    cosine_beta_schedule_length.
  split; reflexivity.
Qed.



End SamplingClaims.

(** ** The reverse steps *)

Section StepFacts.
Context `{Backend} {G : Type} `{!Generator G}.

Lemma generator_free_ret {A : Type} (a : A) :
  generator_free (G := G) (ret a).
Proof. exists (Ok a). reflexivity. Qed.

Lemma generator_free_lift {A : Type} (r : result A) :
  generator_free (G := G) (lift r).
Proof. exists r. reflexivity. Qed.

Lemma generator_free_bind {A B : Type} (m : M G A) (k : A -> M G B) :
  generator_free m -> (forall a, generator_free (k a)) ->
  generator_free (mbind m k).
Proof.
  intros [[a|e] Hm] Hk.
  - destruct (Hk a) as [r Hr]. exists r. intros g.
    unfold mbind. rewrite Hm. simpl. apply Hr.
  - exists (Raise e). intros g. unfold mbind. rewrite Hm. reflexivity.
Qed.

Lemma generator_free_pair {A B C : Type} (p : A * B) (k : A -> B -> M G C) :
  (forall a b, generator_free (k a b)) ->
  generator_free (let '(a, b) := p in k a b).
Proof. intros Hk. destruct p. apply Hk. Qed.

End StepFacts.

Ltac generator_free_steps :=
  repeat first
    [ apply generator_free_ret
    | apply generator_free_lift
    | apply generator_free_bind; [|intro]
    | match goal with
      | |- generator_free (let '(_, _) := ?p in _) => destruct p
      end ].

Section StepClaims.
Context `{Backend} {G : Type} `{!Generator G}.
Variable self : module.

(** C2: at [t_index = 0] every stochastic variant is a function of the
    state, the condition and the network outputs alone: its result is one
    fixed outcome whatever the generator state, and the generator is not
    advanced, so two runs on the same inputs agree. *)
Theorem terminal_step_deterministic :
  Forall
    (fun v => forall (x : Tensor) (c : Cond),
       generator_free (G := G) (reverse_step self v x c 0))
    stochastic_variants.
Proof.
  unfold stochastic_variants.
  repeat (apply Forall_cons || apply Forall_nil); intros x c;
    unfold reverse_step.
  - unfold ddpm. simpl. generator_free_steps.
  - unfold ddpm_x0. simpl. generator_free_steps.
  - unfold ddim2ddpm. simpl. generator_free_steps.
  - unfold cfdg_ddpm_x0. simpl. generator_free_steps.
  - unfold generation_ddpm_x0. simpl. generator_free_steps.
  - unfold inpainting_ddpm_x0. simpl. generator_free_steps.
Qed.

End StepClaims.

Section X0Claims.
Context `{Backend} {G : Type} `{!Generator G}.

Lemma zip_guided_w0 (a b : Tensor) :
  length a = length b ->
  zip_with ssub (map (smul (1 + 0)) a) (map (smul 0) b) = a.
Proof.
  revert b; induction a as [|s a IH]; intros [|m b] E; simpl in *;
    try discriminate; [reflexivity|].
  f_equal.
  - extensionality i. unfold ssub, smul. ring.
  - apply IH. congruence.
Qed.

Lemma guided_w0 (self : module) (a b : Tensor) :
  sampling_w (hp self) = 0 -> length a = length b ->
  guided self a b = Ok a.
Proof.
  intros Hw E. unfold guided, tsub, scale. rewrite Hw.
  rewrite broadcast2_same_length by (rewrite !length_map; exact E).
  f_equal. now apply zip_guided_w0.
Qed.

(** C4: with guidance weight [w = 0], [cfdg_ddpm_x0] returns what
    [ddpm_x0] returns, for every state, condition, timestep and generator
    state (hence for the same noise draw): the guided prediction is the
    conditional prediction and the update block is the same. *)
Theorem cfdg_ddpm_x0_w0 (self : module) :
  sampling_w (hp self) = 0 ->
  forall (x : Tensor) (waveform : Cond) (t_index : nat) (g : G),
    cfdg_ddpm_x0 self x waveform t_index g
    = ddpm_x0 self x waveform t_index g.
Proof.
  intros Hw x waveform t_index g. unfold cfdg_ddpm_x0, ddpm_x0.
  pose proof (forward_shape x waveform (t_tensor_of x t_index) NoKwargs)
    as Lc.
  pose proof (forward_shape x (zeros_like waveform) (t_tensor_of x t_index)
                SamplingTrue) as L0.
  destruct (forward x waveform (t_tensor_of x t_index) NoKwargs)
    as [x0_pred_c spec].
  destruct (forward x (zeros_like waveform) (t_tensor_of x t_index)
              SamplingTrue) as [x0_pred_0 side0].
  simpl in Lc, L0.
  unfold mbind at 1.
  rewrite (guided_w0 self x0_pred_c x0_pred_0 Hw) by congruence.
  reflexivity.
Qed.

Lemma ddpm_x0_update_0 (self : module) (x0_pred x : Tensor) (g : G)
    (a0 b0 al0 : R) :
  index (Schedule.sqrt_alphas_cumprod (schedule self)) 0 = Ok a0 ->
  index (Schedule.sqrt_one_minus_alphas_cumprod (schedule self)) 0 = Ok b0 ->
  index (Schedule.alphas (schedule self)) 0 = Ok al0 ->
  ddpm_x0_update self x0_pred x 0 g = Ok (tdiv x0_pred a0, g).
Proof.
  intros Ea Eb Eal. unfold ddpm_x0_update. simpl.
  unfold mbind, lift. rewrite Eb, Eal, Ea. reflexivity.
Qed.

Lemma ddim_x0_update_0 (self : module) (x0_pred x : Tensor) (g : G)
    (a0 : R) :
  index (Schedule.sqrt_alphas_cumprod (schedule self)) 0 = Ok a0 ->
  ddim_x0_update self x0_pred x 0 g = Ok (tdiv x0_pred a0, g).
Proof.
  intros Ea. unfold ddim_x0_update. simpl.
  unfold mbind, lift. rewrite Ea. reflexivity.
Qed.

Lemma build_first_entries (timesteps : nat) :
  (1 <= timesteps)%nat ->
  exists a0 b0 al0,
    index (Schedule.sqrt_alphas_cumprod (Schedule.build timesteps)) 0
      = Ok a0 /\
    index (Schedule.sqrt_one_minus_alphas_cumprod (Schedule.build timesteps))
      0 = Ok b0 /\
    index (Schedule.alphas (Schedule.build timesteps)) 0 = Ok al0.
Proof.
  intros HT.
  destruct (build_table_lengths timesteps) as [La Lb].
  assert (Lal : length (Schedule.alphas (Schedule.build timesteps))
                = timesteps).
  { unfold Schedule.build, Schedule.of_betas. simpl.
    now rewrite ScheduleFacts.alphas_of_length,
      ScheduleFacts.cosine_beta_schedule_length. }
  eexists _, _, _. repeat split; apply (index_nth _ 0 0); lia.
Qed.

(** C8: for every x0-parameterised variant of a module built with at least
    one timestep, whenever the variant's x0 estimate is defined, the step at
    [t_index = 0] returns that estimate divided by
    [sqrt_alphas_cumprod[0]]: the current state enters the result only
    through the estimate, and the generator is left as it was. *)
Theorem x0_terminal_mean (h : hparams) (v : x0_variant) (x : Tensor)
    (waveform : Cond) (g : G) (x0_pred : Tensor) :
  (1 <= timesteps h)%nat ->
  x0_estimate (module_of h) v x waveform 0 = Ok x0_pred ->
  exists a0 side,
    index (Schedule.sqrt_alphas_cumprod (schedule (module_of h))) 0 = Ok a0 /\
    reverse_step (module_of h) (variant_of_x0 v) x waveform 0 g
    = Ok ((tdiv x0_pred a0, side), g).
Proof.
  intros HT Hx0.
  destruct (build_first_entries (timesteps h) HT) as (a0 & b0 & al0 & Ea & Eb & Eal).
  exists a0.
  assert (Hd : forall p, ddpm_x0_update (module_of h) p x 0 g
                         = Ok (tdiv p a0, g))
    by (intros p; apply (ddpm_x0_update_0 _ _ _ _ a0 b0 al0); assumption).
  assert (Hi : forall p, ddim_x0_update (module_of h) p x 0 g
                         = Ok (tdiv p a0, g))
    by (intros p; apply ddim_x0_update_0; assumption).
  unfold x0_estimate in Hx0.
  destruct v; cbn [variant_of_x0 reverse_step].
  - unfold ddpm_x0.
    destruct (forward x waveform (t_tensor_of x 0) NoKwargs) as [p spec].
    simpl in Hx0. injection Hx0 as <-. exists spec. split; [exact Ea|].
    unfold mbind. rewrite Hd. reflexivity.
  - unfold ddim_x0.
    destruct (forward x waveform (t_tensor_of x 0) NoKwargs) as [p spec].
    simpl in Hx0. injection Hx0 as <-. exists spec. split; [exact Ea|].
    unfold mbind. rewrite Hi. reflexivity.
  - unfold cfdg_ddpm_x0.
    destruct (forward x waveform (t_tensor_of x 0) NoKwargs) as [pc spec].
    destruct (forward x (zeros_like waveform) (t_tensor_of x 0) SamplingTrue)
      as [p0 side0].
    simpl in Hx0. exists spec. split; [exact Ea|].
    unfold mbind at 1. unfold lift at 1. rewrite Hx0.
    unfold mbind. rewrite Hd. reflexivity.
  - unfold cfdg_ddim_x0.
    destruct (forward x waveform (t_tensor_of x 0) NoKwargs) as [pc spec].
    destruct (forward x (zeros_like waveform) (t_tensor_of x 0) NoKwargs)
      as [p0 side0].
    simpl in Hx0. exists spec. split; [exact Ea|].
    unfold mbind at 1. unfold lift at 1. rewrite Hx0.
    unfold mbind. rewrite Hi. reflexivity.
  - unfold generation_ddpm_x0.
    destruct (forward x (zeros_like waveform) (t_tensor_of x 0) SamplingTrue)
      as [p0 side0].
    simpl in Hx0. injection Hx0 as <-. exists side0. split; [exact Ea|].
    unfold mbind. rewrite Hd. reflexivity.
  - unfold inpainting_ddpm_x0.
    destruct (inpainting_t (hp (module_of h))) as [it|];
      [|discriminate Hx0].
    destruct (inpainting_f (hp (module_of h))) as [i_f|];
      [|discriminate Hx0].
    simpl in Hx0. simpl hparam.
    unfold mbind at 1. unfold lift at 1.
    unfold mbind at 1. unfold lift at 1.
    destruct (forward x waveform (t_tensor_of x 0) (Inpainting it i_f))
      as [pc spec].
    destruct (forward x (zeros_like waveform) (t_tensor_of x 0) SamplingTrue)
      as [p0 side0].
    simpl in Hx0. exists spec. split; [exact Ea|].
    unfold mbind at 1. unfold lift at 1. rewrite Hx0.
    unfold mbind. rewrite Hd. reflexivity.
Qed.

End X0Claims.

(** Witness for C4: the stub network, one zero sample, timestep 3 of a
    schedule of 10. *)
Lemma cfdg_ddpm_x0_w0_witness :
  sampling_w (hp (module_of (Stub.hparams_of 10 "l1" "cfdg_ddpm_x0"))) = 0 /\
  @cfdg_ddpm_x0 Stub.backend unit Stub.generator
    (module_of (Stub.hparams_of 10 "l1" "cfdg_ddpm_x0"))
    [Stub.const 0] tt 3 tt
  = @ddpm_x0 Stub.backend unit Stub.generator
      (module_of (Stub.hparams_of 10 "l1" "cfdg_ddpm_x0"))
      [Stub.const 0] tt 3 tt.
Proof.
  split; [reflexivity|].
  apply (@cfdg_ddpm_x0_w0 Stub.backend unit Stub.generator). reflexivity.
Defined.

(** Witness for C8: [ddpm_x0] on the stub network, a schedule of 10. *)
Lemma x0_terminal_mean_witness :
  exists a0 side,
    index (Schedule.sqrt_alphas_cumprod
             (schedule (module_of (Stub.hparams_of 10 "l1" "ddpm_x0")))) 0
      = Ok a0 /\
    @reverse_step Stub.backend unit Stub.generator
      (module_of (Stub.hparams_of 10 "l1" "ddpm_x0")) Ddpm_x0
      [Stub.const 0] tt 0 tt
    = Ok ((@tdiv Stub.backend [Stub.const 0] a0, side), tt).
Proof.
  apply (@x0_terminal_mean Stub.backend unit Stub.generator
           (Stub.hparams_of 10 "l1" "ddpm_x0") X0_ddpm [Stub.const 0] tt tt
           [Stub.const 0]).
  - simpl. lia.
  - reflexivity.
Defined.

(** ** The forward process without noise *)

(** C5, at a concrete call: [q_sample] on one zero sample, timestep 0 and
    no noise argument raises [TypeError]; no noise is drawn and no corrupted
    sample is returned. *)
Theorem q_sample_without_noise_raises :
  @q_sample Stub.backend [Stub.const 0] [0%nat] [1] [0] None
  = Raise TypeError.
Proof. reflexivity. Qed.

(** ** Construction and loss dispatch *)

Section ConstructionClaims.

Lemma getattr_self_unknown (cls : diffusion_class)
    (inherited : list string) (name : string) :
  variant_of_name name = None ->
  mem_string name (other_attribute_names cls) = false ->
  mem_string name inherited = false ->
  getattr_self cls inherited name = Raise AttributeError.
Proof.
  intros Hv Ho Hi. unfold getattr_self. now rewrite Hv, Ho, Hi.
Qed.

Lemma print_alphas_Ok (cls : diffusion_class) (timesteps : nat) :
  (cls = LatentRollDiffusion -> (1 <= timesteps)%nat) ->
  print_alphas cls
    (Schedule.alphas_cumprod_of
       (Schedule.cosine_beta_schedule timesteps Schedule.default_s))
  = Ok tt.
Proof.
  intros HT. destruct cls; [reflexivity|].
  specialize (HT eq_refl). unfold print_alphas.
  set (ac := Schedule.alphas_cumprod_of
               (Schedule.cosine_beta_schedule timesteps Schedule.default_s)).
  assert (L : length ac = timesteps).
  { unfold ac.
    now rewrite ScheduleFacts.alphas_cumprod_of_length,
      ScheduleFacts.cosine_beta_schedule_length. }
  rewrite (index_nth ac 0 0) by lia. cbn [rbind].
  rewrite (index_nth ac (length ac - 1) 0) by lia. reflexivity.
Qed.

Lemma print_alphas_empty (timesteps : nat) :
  timesteps = 0%nat ->
  print_alphas LatentRollDiffusion
    (Schedule.alphas_cumprod_of
       (Schedule.cosine_beta_schedule timesteps Schedule.default_s))
  = Raise IndexError.
Proof. intros ->. reflexivity. Qed.

(** C7, as the code has it.  Construction that reaches
    [getattr(self, sampling.type)] (always for [SpecRollDiffusion]; for
    [LatentRollDiffusion] when there is at least one timestep, since with
    none its read of [alphas_cumprod[0]] raises [IndexError] first) raises
    an [AttributeError] when the sampling-variant name is not the name of
    any attribute of the object; it succeeds for every name of a step
    method whatever the loss type, which it never inspects; an unrecognised
    loss type raises [NotImplementedError] when [p_losses] is called.
    Nothing falls back to a default variant or loss. *)
Theorem unrecognised_configuration `{Backend} (cls : diffusion_class)
    (inherited : list string) (h : hparams) :
  (cls = LatentRollDiffusion -> timesteps h = 0%nat ->
   init cls inherited h = Raise IndexError) /\
  ((cls = LatentRollDiffusion -> (1 <= timesteps h)%nat) ->
   variant_of_name (sampling_type h) = None ->
   mem_string (sampling_type h) (other_attribute_names cls) = false ->
   mem_string (sampling_type h) inherited = false ->
   init cls inherited h = Raise AttributeError) /\
  ((cls = LatentRollDiffusion -> (1 <= timesteps h)%nat) ->
   forall v, variant_of_name (sampling_type h) = Some v ->
   init cls inherited h
   = Ok {| self_of := module_of h; reverse_diffusion_of := StepMethod v |}) /\
  (forall label prediction : Tensor,
   String.eqb (loss_type h) "l1" = false ->
   String.eqb (loss_type h) "l2" = false ->
   String.eqb (loss_type h) "huber" = false ->
   p_losses label prediction (loss_type h) = Raise NotImplementedError).
Proof.
  split; [|split; [|split]].
  - intros -> H0. unfold init. cbv zeta.
    now rewrite (print_alphas_empty _ H0).
  - intros HT Hv Ho Hi. unfold init. cbv zeta.
    rewrite (print_alphas_Ok cls _ HT). cbn [rbind].
    now rewrite (getattr_self_unknown _ _ _ Hv Ho Hi).
  - intros HT v Hv. unfold init. cbv zeta.
    rewrite (print_alphas_Ok cls _ HT). cbn [rbind].
    unfold getattr_self. rewrite Hv. reflexivity.
  - intros label prediction H1 H2 H3. unfold p_losses.
    now rewrite H1, H2, H3.
Qed.

Lemma init_other_attribute (cls : diffusion_class) (inherited : list string)
    (h : hparams) :
  (cls = LatentRollDiffusion -> (1 <= timesteps h)%nat) ->
  variant_of_name (sampling_type h) = None ->
  mem_string (sampling_type h) (other_attribute_names cls) = true ->
  init cls inherited h
  = Ok {| self_of := module_of h;
          reverse_diffusion_of := OtherAttribute (sampling_type h) |}.
Proof.
  intros HT Hv Ho. unfold init. cbv zeta.
  rewrite (print_alphas_Ok cls _ HT). cbn [rbind].
  unfold getattr_self. rewrite Hv, Ho. reflexivity.
Qed.

Lemma init_step_method (cls : diffusion_class) (inherited : list string)
    (h : hparams) (v : variant) :
  (cls = LatentRollDiffusion -> (1 <= timesteps h)%nat) ->
  variant_of_name (sampling_type h) = Some v ->
  init cls inherited h
  = Ok {| self_of := module_of h; reverse_diffusion_of := StepMethod v |}.
Proof.
  intros HT Hv. unfold init. cbv zeta.
  rewrite (print_alphas_Ok cls _ HT). cbn [rbind].
  unfold getattr_self. rewrite Hv. reflexivity.
Qed.

End ConstructionClaims.

(** Witness for C7: an unknown variant name and an unknown loss type, and
    [LatentRollDiffusion] without a timestep. *)
Lemma unrecognised_configuration_witness :
  init LatentRollDiffusion [] (Stub.hparams_of 10 "l3" "euler")
  = Raise AttributeError /\
  @p_losses Stub.backend [Stub.const 0] [Stub.const 0]
    (loss_type (Stub.hparams_of 10 "l3" "euler"))
  = Raise NotImplementedError /\
  init LatentRollDiffusion [] (Stub.hparams_of 0 "l1" "ddim")
  = Raise IndexError.
Proof.
  destruct (@unrecognised_configuration Stub.backend LatentRollDiffusion []
              (Stub.hparams_of 10 "l3" "euler"))
    as (_ & Hname & _ & Hloss).
  destruct (@unrecognised_configuration Stub.backend LatentRollDiffusion []
              (Stub.hparams_of 0 "l1" "ddim")) as (Hempty & _).
  split; [|split].
  - apply Hname; try reflexivity.
    intros _. unfold Stub.hparams_of; cbn [timesteps]. lia.
  - apply Hloss; reflexivity.
  - apply Hempty; reflexivity.
Defined.

(** C7 as stated fails: construction with the unrecognised loss type
    ["l3"] succeeds, and so does construction with the sampling-variant
    name ["p_losses"], which names a method that is no sampling variant. *)
Lemma construction_accepts_unrecognised :
  init LatentRollDiffusion [] (Stub.hparams_of 10 "l3" "ddim")
  = Ok {| self_of := module_of (Stub.hparams_of 10 "l3" "ddim");
          reverse_diffusion_of := StepMethod Ddim |} /\
  init SpecRollDiffusion [] (Stub.hparams_of 10 "l1" "p_losses")
  = Ok {| self_of := module_of (Stub.hparams_of 10 "l1" "p_losses");
          reverse_diffusion_of := OtherAttribute "p_losses" |}.
Proof.
  split.
  - apply init_step_method; [|reflexivity].
    intros _. unfold Stub.hparams_of; cbn [timesteps]. lia.
  - apply (init_other_attribute SpecRollDiffusion []
             (Stub.hparams_of 10 "l1" "p_losses"));
      [discriminate | reflexivity | reflexivity].
Qed.

(** ** Note extraction *)

Section NotesFacts.
Import Notes.
Local Open Scope nat_scope.

Lemma bdim_same (n : nat) : bdim n n = Some n.
Proof. unfold bdim. now rewrite Nat.eqb_refl. Qed.

Lemma bidx_in_range (dim i : nat) : i < dim -> bidx dim i = i.
Proof.
  intros Hi. unfold bidx. destruct (Nat.eqb_spec dim 1); [lia | reflexivity].
Qed.

Lemma in_nonzero (a : ndarray bool) (i j : nat) :
  In (i, j) (nonzero a) -> i < nrows a /\ j < ncols a /\ at_ a i j = true.
Proof.
  unfold nonzero. rewrite in_flat_map. intros (i' & Hi & Hj).
  apply in_map_iff in Hj. destruct Hj as (j' & E & Hj).
  injection E as -> ->.
  apply filter_In in Hj. destruct Hj as [Hj Hat].
  apply in_seq in Hi. apply in_seq in Hj.
  split; [lia | split; [lia | exact Hat]].
Qed.

Variables onsets frames : ndarray Z.
Hypothesis frames_nrows : nrows frames = nrows onsets.
Hypothesis frames_ncols : ncols frames = ncols onsets.

(** The [while] loop ends within the grid, and after the start when the
    onset grid is set there. *)
Lemma note_end_bounds (pitch : nat) :
  pitch < ncols onsets ->
  forall fuel offset,
    offset < nrows onsets -> nrows onsets - offset <= fuel ->
    exists off,
      note_end onsets frames pitch fuel offset = Some (Ok off) /\
      offset <= off <= nrows onsets /\
      (at_ onsets offset pitch <> 0%Z -> offset < off).
Proof.
  intros Hp. induction fuel as [|fuel IH]; intros offset Ho Hf; [lia|].
  simpl. unfold get.
  rewrite (proj2 (Nat.ltb_lt _ _) Ho), (proj2 (Nat.ltb_lt _ _) Hp). simpl.
  rewrite frames_nrows, frames_ncols.
  rewrite (proj2 (Nat.ltb_lt _ _) Ho), (proj2 (Nat.ltb_lt _ _) Hp). simpl.
  assert (Hnext : forall c : Z, c <> 0%Z ->
    exists off,
      (if Z.eqb c 0 then Some (Ok offset)
       else if offset + 1 =? nrows onsets then Some (Ok (offset + 1))
            else note_end onsets frames pitch fuel (offset + 1))
      = Some (Ok off) /\ offset < off <= nrows onsets).
  { intros c Hc. rewrite (proj2 (Z.eqb_neq _ _) Hc).
    destruct (Nat.eqb_spec (offset + 1) (nrows onsets)) as [E|E].
    - exists (offset + 1). split; [reflexivity | lia].
    - destruct (IH (offset + 1)) as (off & E1 & B & _); [lia | lia |].
      exists off. split; [exact E1 | lia]. }
  destruct (Z.eqb_spec (at_ onsets offset pitch) 0) as [Eo|Eo];
    cbv beta iota.
  - destruct (Z.eqb_spec (at_ frames offset pitch) 0) as [Ef|Ef].
    + exists offset. split; [reflexivity|].
      split; [lia | congruence].
    + destruct (Hnext _ Ef) as (off & E1 & B).
      rewrite (proj2 (Z.eqb_neq _ _) Ef) in E1.
      exists off. split; [exact E1|]. split; [lia | intros; lia].
  - destruct (Hnext _ Eo) as (off & E1 & B).
    exists off. split; [exact E1|]. split; [lia | intros; lia].
Qed.

Lemma collect_intervals (positions : list (nat * nat)) :
  Forall (fun p => fst p < nrows onsets /\ snd p < ncols onsets /\
                   at_ onsets (fst p) (snd p) <> 0%Z) positions ->
  forall pitches intervals,
    length pitches = length intervals ->
    Forall (fun iv => fst iv < snd iv <= nrows onsets) intervals ->
    exists pitches' intervals',
      collect onsets frames positions pitches intervals
        = Some (Ok (pitches', intervals')) /\
      length pitches' = length intervals' /\
      Forall (fun iv => fst iv < snd iv <= nrows onsets) intervals'.
Proof.
  induction 1 as [|[frame pitch] positions (Hf & Hp & Hat) _ IH];
    intros pitches intervals L Hv; simpl.
  - exists pitches, intervals. auto.
  - simpl in Hf, Hp, Hat.
    destruct (note_end_bounds pitch Hp (nrows onsets) frame Hf)
      as (off & E & B & Hlt); [lia|].
    rewrite E. specialize (Hlt Hat).
    rewrite (proj2 (Nat.ltb_lt _ _) Hlt).
    apply IH.
    + rewrite !length_app. simpl. lia.
    + apply Forall_app. split; [exact Hv|].
      constructor; [simpl; lia | constructor].
Qed.

End NotesFacts.

Section NotesClaims.
Import Notes.
Local Open Scope nat_scope.
Context {A : Type}.
Variable gtb : A -> A -> bool.

Lemma above_01 (threshold : A) (a : ndarray A) (i j : nat) :
  at_ (above gtb threshold a) i j = 0%Z \/
  at_ (above gtb threshold a) i j = 1%Z.
Proof. simpl. destruct (gtb _ _); auto. Qed.

Lemma extract_notes_unfold (onsets frames : ndarray A) (ot ft : A)
    (rule : string) :
  extract_notes_wo_velocity gtb onsets frames ot ft rule =
  match onset_mask (above gtb ot onsets) (above gtb ft frames) rule with
  | Raise e => Some (Raise e)
  | Ok onset_diff =>
      collect (above gtb ot onsets) (above gtb ft frames)
        (nonzero onset_diff) [] []
  end.
Proof. reflexivity. Qed.

(** Every position of the mask is a position of the grid at which the
    thresholded onset grid is set. *)
Lemma onset_mask_positions (onsets frames : ndarray Z) (rule : string) :
  nrows frames = nrows onsets -> ncols frames = ncols onsets ->
  (forall i j, at_ onsets i j = 0%Z \/ at_ onsets i j = 1%Z) ->
  rule = "rule1"%string \/ rule = "rule2"%string ->
  exists mask,
    onset_mask onsets frames rule = Ok mask /\
    forall i j, In (i, j) (nonzero mask) ->
      i < nrows onsets /\ j < ncols onsets /\ at_ onsets i j <> 0%Z.
Proof.
  intros Hn Hm H01 Hrule.
  assert (Hrows : Nat.min 1 (nrows onsets) + (nrows onsets - 1)
                  = nrows onsets) by lia.
  assert (Hcat : forall i j, i < nrows onsets -> j < ncols onsets ->
    Z.eqb 1
      (if i <? Nat.min 1 (nrows onsets) then at_ onsets i j
       else (at_ onsets (bidx (nrows onsets - 1)
                           (i - Nat.min 1 (nrows onsets)) + 1)
                        (bidx (ncols onsets) j)
             - at_ onsets (bidx (nrows onsets - 1)
                             (i - Nat.min 1 (nrows onsets)))
                          (bidx (ncols onsets) j))%Z) = true ->
    at_ onsets i j <> 0%Z).
  { intros i j Hi Hj Hc. apply Z.eqb_eq in Hc.
    destruct (Nat.ltb_spec i (Nat.min 1 (nrows onsets))) as [Hlt|Hge].
    - rewrite <- Hc. discriminate.
    - rewrite (bidx_in_range (ncols onsets) j Hj) in Hc.
      rewrite (bidx_in_range (nrows onsets - 1)) in Hc by lia.
      replace (i - Nat.min 1 (nrows onsets) + 1) with i in Hc by lia.
      destruct (H01 i j) as [E|E];
        destruct (H01 (i - Nat.min 1 (nrows onsets)) j) as [E'|E'];
        rewrite E, ?E' in *; try discriminate; rewrite E' in Hc;
        discriminate. }
  unfold onset_mask, amap2. cbn [nrows ncols rows_from_1 rows_but_last].
  rewrite !bdim_same. cbn [rbind].
  unfold concatenate0. cbn [nrows ncols first_row].
  rewrite Nat.eqb_refl. cbn [rbind].
  destruct Hrule as [-> | ->].
  - cbn [String.eqb Ascii.eqb Bool.eqb].
    cbn [nrows ncols amap]. rewrite Hrows, Hn, Hm, !bdim_same.
    eexists. split; [reflexivity|].
    intros i j Hin. apply in_nonzero in Hin.
    cbn [nrows ncols at_ amap first_row] in Hin.
    destruct Hin as (Hi & Hj & Hat).
    split; [exact Hi|]. split; [exact Hj|].
    apply andb_prop in Hat. destruct Hat as [Hat _].
    rewrite (bidx_in_range (ncols onsets) j Hj) in Hat.
    rewrite (bidx_in_range (nrows onsets) i Hi) in Hat.
    apply Hcat; assumption.
  - cbn [String.eqb Ascii.eqb Bool.eqb].
    eexists. split; [reflexivity|].
    intros i j Hin. apply in_nonzero in Hin.
    cbn [nrows ncols at_ amap first_row] in Hin.
    destruct Hin as (Hi & Hj & Hat).
    rewrite Hrows in Hi.
    split; [exact Hi|]. split; [exact Hj|].
    apply Hcat; assumption.
Qed.

End NotesClaims.

(** C9: for onset and frame grids of one shape, any two thresholds and
    either rule, [extract_notes_wo_velocity] returns, with as many pitches
    as intervals and with every interval [(onset, offset)] satisfying
    [onset < offset <= number of frames]; when no entry of the onset grid
    is above its threshold (in particular when both grids are at or below
    their thresholds), both lists are empty. *)
Theorem extract_notes_intervals {A : Type} (gtb : A -> A -> bool)
    (onsets frames : Notes.ndarray A) (onset_threshold frame_threshold : A)
    (rule : string) :
  Notes.nrows frames = Notes.nrows onsets ->
  Notes.ncols frames = Notes.ncols onsets ->
  rule = "rule1"%string \/ rule = "rule2"%string ->
  exists pitches intervals,
    Notes.extract_notes_wo_velocity gtb onsets frames
      onset_threshold frame_threshold rule
      = Some (Ok (pitches, intervals)) /\
    length pitches = length intervals /\
    Forall (fun iv => (fst iv < snd iv <= Notes.nrows onsets)%nat)
      intervals /\
    ((forall i j, (i < Notes.nrows onsets)%nat ->
                  (j < Notes.ncols onsets)%nat ->
                  gtb (Notes.at_ onsets i j) onset_threshold = false) ->
     pitches = [] /\ intervals = []).
Proof.
  intros Hn Hm Hrule.
  set (O := Notes.above gtb onset_threshold onsets).
  set (F := Notes.above gtb frame_threshold frames).
  destruct (onset_mask_positions O F rule) as (mask & Emask & Hpos);
    [exact Hn | exact Hm | apply above_01 | exact Hrule |].
  assert (Hall : Forall
    (fun p => (fst p < Notes.nrows O)%nat /\ (snd p < Notes.ncols O)%nat /\
              Notes.at_ O (fst p) (snd p) <> 0%Z) (Notes.nonzero mask)).
  { apply Forall_forall. intros [i j] Hin. apply (Hpos i j Hin). }
  destruct (collect_intervals O F Hn Hm (Notes.nonzero mask) Hall [] [])
    as (pitches & intervals & Ec & L & Hv); [reflexivity | constructor |].
  exists pitches, intervals.
  rewrite extract_notes_unfold. fold O F. rewrite Emask.
  split; [exact Ec|]. split; [exact L|]. split; [exact Hv|].
  intros Hbelow.
  assert (Hnil : Notes.nonzero mask = []).
  { destruct (Notes.nonzero mask) as [|[i j] rest] eqn:E; [reflexivity|].
    exfalso. destruct (Hpos i j) as (Hi & Hj & Hat).
    - try rewrite E. left. reflexivity.
    - apply Hat. unfold O. simpl. simpl in Hi, Hj.
      now rewrite (Hbelow i j Hi Hj). }
  rewrite Hnil in Ec. simpl in Ec. injection Ec as <- <-. auto.
Qed.

(** Witness for C9: two frames, one pitch, a note on the first frame. *)
Lemma extract_notes_intervals_witness :
  exists pitches intervals,
    Notes.extract_notes_wo_velocity Z.gtb Stub.grid_2x1 Stub.grid_2x1
      0%Z 0%Z "rule1"
      = Some (Ok (pitches, intervals)) /\
    length pitches = length intervals /\
    Forall (fun iv => (fst iv < snd iv <= 2)%nat) intervals.
Proof.
  destruct (extract_notes_intervals Z.gtb Stub.grid_2x1 Stub.grid_2x1
              0%Z 0%Z "rule1" eq_refl eq_refl (or_introl eq_refl))
    as (pitches & intervals & E & L & Hv & _).
  exists pitches, intervals. split; [exact E|]. split; [exact L | exact Hv].
Defined.

(** Witness for C3: one sample, timestep 0, coefficient tables [1] and
    [0]. *)
Lemma extract_x0_q_sample_round_trip_witness :
  exists x_t,
    @q_sample Stub.backend [Stub.const 2] [0%nat] [1] [0]
      (Some [Stub.const 3]) = Ok x_t /\
    @extract_x0 Stub.backend x_t [Stub.const 3] [0%nat] [1] [0]
    = Ok [Stub.const 2].
Proof.
  apply (@extract_x0_q_sample_round_trip Stub.backend
           [Stub.const 2] [Stub.const 3] [0%nat] [1] [0]).
  - reflexivity.
  - reflexivity.
  - constructor; [|constructor]. exists 1. split; [reflexivity | lra].
  - constructor; [simpl; lia | constructor].
Defined.

(** ** Further observations on the forward process and the fixed horizon *)

(** Without a noise argument [q_sample] raises on every input: either a
    coefficient lookup or the broadcast fails first, or the product with
    [None] does. *)
Lemma q_sample_without_noise_never_returns `{Backend} (x_start : Tensor)
    (t : list nat)
    (sqrt_alphas_cumprod sqrt_one_minus_alphas_cumprod : list R) :
  exists e,
    q_sample x_start t sqrt_alphas_cumprod sqrt_one_minus_alphas_cumprod None
    = Raise e.
Proof.
  unfold q_sample.
  destruct (gather sqrt_alphas_cumprod t) as [ca|e]; simpl;
    [|exists e; reflexivity].
  destruct (gather sqrt_one_minus_alphas_cumprod t) as [cb|e]; simpl;
    [|exists e; reflexivity].
  destruct (broadcast2 smul ca x_start) as [m|e]; simpl;
    [exists TypeError | exists e]; reflexivity.
Qed.

(** With fewer than 175 timesteps [SpecRollDiffusion.sampling] raises
    [IndexError] in its forward corruption to timestep 174, before any call
    of the strategy. *)
Lemma spec_sampling_short_schedule :
  @spec_sampling Stub.backend _ (@logged_generator _ _ Stub.generator)
    (@logged Stub.backend unit Stub.generator Stub.keep)
    (module_of (Stub.hparams_of 10 "l1" "ddim")) Stub.one_frame (tt, [])
  = Raise IndexError.
Proof.
  unfold spec_sampling, mbind, lift. simpl randn_like.
  unfold q_sample.
  assert (E : forall l : list R, length l = 10%nat ->
              gather l
                (repeat (fixed_t - 1)%nat
                   (length (frame Stub.one_frame))) = Raise IndexError).
  { intros l Hl. simpl. unfold index.
    destruct (nth_error l 174) eqn:En; [|reflexivity].
    assert (174 < length l)%nat
      by (apply nth_error_Some; congruence).
    lia. }
  destruct (build_table_lengths 10) as [La _].
  cbn [normalize Stub.backend].
  unfold module_of, Stub.hparams_of; cbn [schedule timesteps].
  rewrite (E _ La). reflexivity.
Qed.

(** ** The general step does draw noise *)

(** In contrast with the terminal step, [ddpm] and [ddpm_x0] at
    [t_index = 1] advance the generator by one draw per batch element. *)
Lemma general_step_draws :
  (exists r,
     @ddpm Stub.backend nat Stub.counting Stub.two_steps
       [Stub.const 0] tt 1 0%nat = Ok (r, 1%nat)) /\
  (exists r,
     @ddpm_x0 Stub.backend nat Stub.counting Stub.two_steps
       [Stub.const 0] tt 1 0%nat = Ok (r, 1%nat)).
Proof. split; eexists; cbn; reflexivity. Qed.

(** * Further properties of the code *)

(** ** The schedule for every number of timesteps *)

Section ScheduleInvariants.
Import Schedule ScheduleFacts.

(** For every number of timesteps the cosine schedule has that many betas,
    all inside the clip interval, and the cumulative products of the alphas
    lie strictly between 0 and 1 and decrease strictly. *)
Theorem cosine_schedule_invariants (timesteps : nat) :
  let betas := cosine_beta_schedule timesteps default_s in
  let alphas_cumprod := alphas_cumprod_of betas in
  length betas = timesteps /\
  Forall in_clip_range betas /\
  length alphas_cumprod = timesteps /\
  (forall t : nat, (t < timesteps)%nat -> 0 < nth t alphas_cumprod 0 < 1) /\
  (forall i j : nat, (i < j)%nat -> (j < timesteps)%nat ->
     nth j alphas_cumprod 0 < nth i alphas_cumprod 0).
Proof.
  cbv zeta.
  pose proof (cosine_beta_schedule_length timesteps default_s) as Hlen.
  pose proof (cosine_beta_schedule_range timesteps default_s) as Hr.
  split; [exact Hlen|]. split; [exact Hr|].
  split; [now rewrite alphas_cumprod_of_length|]. split.
  - intros t Ht. apply alphas_cumprod_pos_lt_1; [exact Hr | lia].
  - intros i j Hij Hj. apply alphas_cumprod_strict; [exact Hr | lia | lia].
Qed.

Lemma build_lengths (timesteps : nat) :
  let s := build timesteps in
  length (Schedule.betas s) = timesteps /\
  length (Schedule.alphas s) = timesteps /\
  length (Schedule.sqrt_recip_alphas s) = timesteps /\
  length (Schedule.sqrt_alphas_cumprod s) = timesteps /\
  length (Schedule.sqrt_one_minus_alphas_cumprod s) = timesteps /\
  length (Schedule.posterior_variance s) = timesteps.
Proof.
  cbv zeta. unfold build, of_betas. cbn [Schedule.betas Schedule.alphas
    Schedule.sqrt_recip_alphas Schedule.sqrt_alphas_cumprod
    Schedule.sqrt_one_minus_alphas_cumprod Schedule.posterior_variance].
  rewrite !length_map, posterior_variance_of_length,
    alphas_cumprod_of_length, alphas_of_length,
    cosine_beta_schedule_length.
  repeat split; reflexivity.
Qed.

Lemma map_nth_in_range {A B : Type} (f : A -> B) (l : list A) (i : nat)
    (da : A) (db : B) :
  (i < length l)%nat -> nth i (map f l) db = f (nth i l da).
Proof.
  intros Hi. rewrite (nth_indep _ db (f da)) by (rewrite length_map; lia).
  apply map_nth.
Qed.

(** In a built schedule, at every timestep, [sqrt_alphas_cumprod] and
    [sqrt_one_minus_alphas_cumprod] are positive and their squares add up
    to 1: the forward process preserves variance and never divides by
    zero. *)
Theorem schedule_coefficients (timesteps t : nat) :
  (t < timesteps)%nat ->
  exists a b,
    index (Schedule.sqrt_alphas_cumprod (build timesteps)) t = Ok a /\
    index (Schedule.sqrt_one_minus_alphas_cumprod (build timesteps)) t
      = Ok b /\
    0 < a /\ 0 < b /\ a ^ 2 + b ^ 2 = 1.
Proof.
  intros Ht.
  set (bs := cosine_beta_schedule timesteps default_s).
  assert (Hlen : length bs = timesteps)
    by apply cosine_beta_schedule_length.
  assert (Hr : Forall in_clip_range bs)
    by apply cosine_beta_schedule_range.
  assert (Hac : 0 < nth t (alphas_cumprod_of bs) 0 < 1)
    by (apply alphas_cumprod_pos_lt_1; [exact Hr | lia]).
  exists (sqrt (nth t (alphas_cumprod_of bs) 0)),
         (sqrt (1 - nth t (alphas_cumprod_of bs) 0)).
  unfold build, of_betas.
  cbn [Schedule.sqrt_alphas_cumprod Schedule.sqrt_one_minus_alphas_cumprod].
  fold bs. split; [|split; [|split; [|split]]].
  - rewrite (index_nth _ t 0)
      by (rewrite length_map, alphas_cumprod_of_length; lia).
    f_equal. apply map_nth_in_range.
    rewrite alphas_cumprod_of_length; lia.
  - rewrite (index_nth _ t 0)
      by (rewrite length_map, alphas_cumprod_of_length; lia).
    f_equal. apply (map_nth_in_range (fun a => sqrt (1 - a))).
    rewrite alphas_cumprod_of_length; lia.
  - apply sqrt_lt_R0. lra.
  - apply sqrt_lt_R0. lra.
  - simpl. rewrite !Rmult_1_r. rewrite !sqrt_sqrt by lra. lra.
Qed.

Lemma schedule_coefficients_witness :
  exists a b,
    index (Schedule.sqrt_alphas_cumprod (build 10)) 3 = Ok a /\
    index (Schedule.sqrt_one_minus_alphas_cumprod (build 10)) 3 = Ok b /\
    0 < a /\ 0 < b /\ a ^ 2 + b ^ 2 = 1.
Proof. apply (schedule_coefficients 10 3). lia. Defined.

(** After the first timestep the posterior variance is positive and
    strictly below the forward variance [betas[t]]. *)
Theorem posterior_variance_below_beta (timesteps t : nat) :
  (1 <= t)%nat -> (t < timesteps)%nat ->
  exists v b,
    index (Schedule.posterior_variance (build timesteps)) t = Ok v /\
    index (Schedule.betas (build timesteps)) t = Ok b /\
    0 < v < b.
Proof.
  intros Ht1 Ht.
  set (bs := cosine_beta_schedule timesteps default_s).
  assert (Hlen : length bs = timesteps)
    by apply cosine_beta_schedule_length.
  assert (Hr : Forall in_clip_range bs)
    by apply cosine_beta_schedule_range.
  exists (nth t (posterior_variance_of bs) 0), (nth t bs 0).
  unfold build, of_betas.
  cbn [Schedule.posterior_variance Schedule.betas]. fold bs.
  split; [apply index_nth; rewrite posterior_variance_of_length; lia|].
  split; [apply index_nth; lia|].
  rewrite posterior_variance_of_nth by lia.
  destruct t as [|k]; [lia|].
  unfold alphas_cumprod_prev_of.
  change (nth (S k) (1 :: removelast (alphas_cumprod_of bs)) 0)
    with (nth k (removelast (alphas_cumprod_of bs)) 0).
  rewrite removelast_nth by (rewrite alphas_cumprod_of_length; lia).
  assert (Hk : (k < length bs)%nat) by lia.
  assert (HSk : (S k < length bs)%nat) by lia.
  pose proof (alphas_cumprod_pos_lt_1 bs k Hr Hk) as H1.
  pose proof (alphas_cumprod_pos_lt_1 bs (S k) Hr HSk) as H2.
  pose proof (alphas_cumprod_step bs k Hr HSk) as H3.
  rewrite Forall_forall in Hr.
  pose proof (Hr (nth (S k) bs 0) (nth_In _ _ HSk)) as Hb.
  unfold in_clip_range in Hb.
  set (b := nth (S k) bs 0) in *.
  set (p := nth k (alphas_cumprod_of bs) 0) in *.
  set (c := nth (S k) (alphas_cumprod_of bs) 0) in *.
  assert (Hc : 0 < 1 - c) by lra.
  split.
  - apply Rdiv_lt_0_compat; [apply Rmult_lt_0_compat; lra | exact Hc].
  - apply (Rmult_lt_reg_r (1 - c)); [exact Hc|].
    unfold Rdiv. rewrite Rmult_assoc, Rinv_l by lra. nra.
Qed.

Lemma posterior_variance_below_beta_witness :
  exists v b,
    index (Schedule.posterior_variance (build 10)) 4 = Ok v /\
    index (Schedule.betas (build 10)) 4 = Ok b /\
    0 < v < b.
Proof. apply (posterior_variance_below_beta 10 4); lia. Defined.

End ScheduleInvariants.

(** ** The linear schedule *)

Section LinearSchedule.
Import Schedule.

Lemma linspace_nth (start stop : R) (steps i : nat) :
  (i < steps)%nat ->
  nth i (linspace start stop steps) 0
  = start + INR i * ((stop - start) / (INR steps - 1)).
Proof.
  intros Hi. unfold linspace.
  rewrite (map_nth_in_range _ _ i 0%nat 0) by (rewrite length_seq; lia).
  rewrite seq_nth by lia. reflexivity.
Qed.

(** With at least two timesteps, [linear_beta_schedule] has one value per
    timestep, starts at [beta_start], ends at [beta_end], and is
    non-decreasing when [beta_start <= beta_end]. *)
Theorem linear_beta_schedule_endpoints (beta_start beta_end : R)
    (timesteps : nat) :
  (2 <= timesteps)%nat ->
  let betas := linear_beta_schedule beta_start beta_end timesteps in
  length betas = timesteps /\
  index betas 0 = Ok beta_start /\
  index betas (timesteps - 1) = Ok beta_end /\
  (beta_start <= beta_end ->
   forall i j : nat, (i <= j)%nat -> (j < timesteps)%nat ->
     nth i betas 0 <= nth j betas 0).
Proof.
  intros HT. cbv zeta. unfold linear_beta_schedule.
  assert (Hn : 1 <= INR timesteps - 1).
  { apply le_INR in HT. simpl in HT. lra. }
  split; [apply ScheduleFacts.linspace_length|]. split; [|split].
  - rewrite (index_nth _ 0 0)
      by (rewrite ScheduleFacts.linspace_length; lia).
    rewrite linspace_nth by lia. simpl. f_equal. lra.
  - rewrite (index_nth _ _ 0)
      by (rewrite ScheduleFacts.linspace_length; lia).
    rewrite linspace_nth by lia. f_equal.
    rewrite minus_INR by lia. simpl. field. lra.
  - intros Hle i j Hij Hj.
    rewrite !linspace_nth by lia.
    apply le_INR in Hij.
    assert (0 <= (beta_end - beta_start) / (INR timesteps - 1)).
    { apply Rmult_le_pos; [lra|]. apply Rlt_le, Rinv_0_lt_compat. lra. }
    nra.
Qed.

Lemma linear_beta_schedule_endpoints_witness :
  index (linear_beta_schedule (1 / 10000) (2 / 100) 200) 199
  = Ok (2 / 100).
Proof.
  apply (linear_beta_schedule_endpoints (1 / 10000) (2 / 100) 200). lia.
Defined.

End LinearSchedule.

(** ** More on the forward process *)

Section ForwardExtras.
Context `{Backend}.

Lemma gather_Raise (table : list R) (t : list nat) :
  Exists (fun i => (length table <= i)%nat) t ->
  gather table t = Raise IndexError.
Proof.
  induction t as [|i t IH]; intros Hex; [inversion Hex|].
  simpl. unfold index at 1.
  destruct (nth_error table i) as [c|] eqn:E; [|reflexivity].
  simpl. rewrite IH; [reflexivity|].
  inversion Hex as [? ? Hi|? ? Ht]; subst; [|exact Ht].
  exfalso. assert (i < length table)%nat
    by (apply nth_error_Some; congruence). lia.
Qed.

Lemma gather_length (table : list R) (t : list nat) (cs : list R) :
  gather table t = Ok cs -> length cs = length t.
Proof.
  revert cs; induction t as [|i t IH]; intros cs; simpl.
  - intros E. injection E as <-. reflexivity.
  - destruct (index table i); simpl; [|discriminate].
    destruct (gather table t) as [cs'|]; simpl; [|discriminate].
    intros E. injection E as <-. simpl. f_equal. now apply IH.
Qed.

(** The postcondition of [q_sample]: with one valid timestep per batch
    element and noise of the batch size, the result has the batch size of
    [x_start] and, for every batch element [b] and position [i],
    [x_t[b][i] = sqrt_alphas_cumprod[t[b]] * x_start[b][i]
               + sqrt_one_minus_alphas_cumprod[t[b]] * noise[b][i]]. *)
Theorem q_sample_pointwise (x_start noise : Tensor) (t : list nat)
    (sqrt_alphas_cumprod sqrt_one_minus_alphas_cumprod : list R) :
  length t = length x_start ->
  length noise = length x_start ->
  Forall (fun i => (i < length sqrt_alphas_cumprod)%nat) t ->
  Forall (fun i => (i < length sqrt_one_minus_alphas_cumprod)%nat) t ->
  exists x_t,
    q_sample x_start t sqrt_alphas_cumprod sqrt_one_minus_alphas_cumprod
      (Some noise) = Ok x_t /\
    length x_t = length x_start /\
    forall (b : nat) (i : Idx), (b < length x_start)%nat ->
      nth b x_t (fun _ => 0) i
      = nth (nth b t 0%nat) sqrt_alphas_cumprod 0
          * nth b x_start (fun _ => 0) i
        + nth (nth b t 0%nat) sqrt_one_minus_alphas_cumprod 0
          * nth b noise (fun _ => 0) i.
Proof.
  intros Et En Ha Hb.
  set (ca := map (fun i => nth i sqrt_alphas_cumprod 0) t).
  set (cb := map (fun i => nth i sqrt_one_minus_alphas_cumprod 0) t).
  assert (Eca : length ca = length x_start)
    by (unfold ca; now rewrite length_map).
  assert (Ecb : length cb = length x_start)
    by (unfold cb; now rewrite length_map).
  exists (zip_with sadd (zip_with smul ca x_start) (zip_with smul cb noise)).
  split; [|split].
  - unfold q_sample, tadd.
    rewrite (gather_Ok _ _ Ha), (gather_Ok _ _ Hb). fold ca cb. simpl.
    rewrite (broadcast2_same_length smul ca x_start) by lia. simpl.
    rewrite (broadcast2_same_length smul cb noise) by lia. simpl.
    rewrite broadcast2_same_length by (rewrite !zip_with_length; lia).
    reflexivity.
  - rewrite !zip_with_length. lia.
  - intros b i Hb0.
    rewrite (zip_with_nth sadd _ _ b (fun _ => 0) (fun _ => 0))
      by (rewrite zip_with_length; lia).
    rewrite (zip_with_nth smul ca x_start b 0 (fun _ => 0)) by lia.
    rewrite (zip_with_nth smul cb noise b 0 (fun _ => 0)) by lia.
    unfold sadd, smul, ca, cb.
    rewrite !(map_nth_in_range _ t b 0%nat 0) by lia.
    reflexivity.
Qed.

End ForwardExtras.

Lemma q_sample_pointwise_witness :
  exists x_t,
    @q_sample Stub.backend [Stub.const 2] [0%nat] [1] [0]
      (Some [Stub.const 3]) = Ok x_t /\
    length x_t = 1%nat.
Proof.
  destruct (@q_sample_pointwise Stub.backend [Stub.const 2] [Stub.const 3]
              [0%nat] [1] [0]) as (x_t & E & L & _).
  - reflexivity.
  - reflexivity.
  - constructor; [simpl; lia | constructor].
  - constructor; [simpl; lia | constructor].
  - exists x_t. split; [exact E | exact L].
Defined.

Section ForwardErrors.
Context `{Backend}.

Lemma broadcast2_incompatible {A B C : Type} (f : A -> B -> C)
    (a : list A) (b : list B) :
  length a <> length b -> length a <> 1%nat -> length b <> 1%nat ->
  broadcast2 f a b = Raise RuntimeError.
Proof.
  intros Hne Ha Hb. unfold broadcast2.
  rewrite (proj2 (Nat.eqb_neq _ _) Hne).
  destruct a as [|a0 [|a1 a']]; destruct b as [|b0 [|b1 b']];
    simpl in *; try congruence; reflexivity.
Qed.

(** How [q_sample] and [extract_x0] fail: a timestep outside either
    coefficient table raises [IndexError], whatever the shapes and the noise
    are; with valid timesteps, a timestep vector whose size is neither the
    batch size nor 1 (for a batch of more than one element) raises
    [RuntimeError]. *)
Theorem forward_process_errors (x : Tensor) (noise : option Tensor)
    (epsilon : Tensor) (t : list nat)
    (sqrt_alphas_cumprod sqrt_one_minus_alphas_cumprod : list R) :
  (Exists (fun i => (length sqrt_alphas_cumprod <= i)%nat
                    \/ (length sqrt_one_minus_alphas_cumprod <= i)%nat) t ->
   q_sample x t sqrt_alphas_cumprod sqrt_one_minus_alphas_cumprod noise
     = Raise IndexError /\
   extract_x0 x epsilon t sqrt_alphas_cumprod sqrt_one_minus_alphas_cumprod
     = Raise IndexError) /\
  (Forall (fun i => (i < length sqrt_alphas_cumprod)%nat) t ->
   Forall (fun i => (i < length sqrt_one_minus_alphas_cumprod)%nat) t ->
   length t <> length x -> length t <> 1%nat -> length x <> 1%nat ->
   q_sample x t sqrt_alphas_cumprod sqrt_one_minus_alphas_cumprod noise
     = Raise RuntimeError).
Proof.
  split.
  - intros Hex.
    assert (Hcase :
      Exists (fun i => (length sqrt_alphas_cumprod <= i)%nat) t \/
      (Forall (fun i => (i < length sqrt_alphas_cumprod)%nat) t /\
       Exists (fun i => (length sqrt_one_minus_alphas_cumprod <= i)%nat) t)).
    { induction t as [|i t IH]; [inversion Hex|].
      destruct (le_lt_dec (length sqrt_alphas_cumprod) i) as [Hi|Hi];
        [left; now constructor|].
      inversion Hex as [? ? [Ha|Hb]|? ? Ht]; subst.
      - lia.
      - destruct (Exists_dec (fun i => (length sqrt_alphas_cumprod <= i)%nat)
                    t (fun i => le_dec _ _)) as [He|Hn].
        + left. now constructor 2.
        + right. split; [|now constructor].
          constructor; [exact Hi|].
          apply Forall_forall. intros j Hj.
          destruct (le_lt_dec (length sqrt_alphas_cumprod) j); [|assumption].
          exfalso. apply Hn. apply Exists_exists. eauto.
      - destruct (IH Ht) as [He|[Hf He]].
        + left. now constructor 2.
        + right. split; [now constructor | now constructor 2]. }
    unfold q_sample, extract_x0.
    destruct Hcase as [He|[Hf He]].
    + rewrite (gather_Raise _ _ He). split; reflexivity.
    + rewrite (gather_Ok _ _ Hf), (gather_Raise _ _ He). split; reflexivity.
  - intros Ha Hb Hne Ht Hx. unfold q_sample.
    rewrite (gather_Ok _ _ Ha), (gather_Ok _ _ Hb). simpl.
    rewrite broadcast2_incompatible; [reflexivity | | | exact Hx];
      rewrite length_map; assumption.
Qed.

End ForwardErrors.

Lemma forward_process_errors_witness :
  @q_sample Stub.backend [Stub.const 2] [5%nat] [1] [0]
    (Some [Stub.const 3]) = Raise IndexError /\
  @q_sample Stub.backend [Stub.const 2; Stub.const 2; Stub.const 2]
    [0%nat; 0%nat] [1] [0] None = Raise RuntimeError.
Proof.
  split.
  - apply (@forward_process_errors Stub.backend [Stub.const 2]
             (Some [Stub.const 3]) [] [5%nat] [1] [0]).
    constructor. left. simpl. lia.
  - apply (@forward_process_errors Stub.backend
             [Stub.const 2; Stub.const 2; Stub.const 2] None []
             [0%nat; 0%nat] [1] [0]).
    + repeat constructor.
    + repeat constructor.
    + discriminate.
    + discriminate.
    + discriminate.
Defined.

Section ForwardInverse.
Context `{Backend}.

Lemma sample_inverse_trip (a b : R) (s e : Idx -> R) :
  a <> 0 -> sadd (smul a (sdiv (ssub s (smul b e)) a)) (smul b e) = s.
Proof.
  intros Ha. extensionality i. unfold sdiv, ssub, sadd, smul. now field.
Qed.

Lemma zip_inverse_trip (x e : Tensor) (ca cb : list R) :
  length ca = length x -> length cb = length x -> length e = length x ->
  Forall (fun a => a <> 0) ca ->
  zip_with sadd
    (zip_with smul ca
       (zip_with sdiv (zip_with ssub x (zip_with smul cb e)) ca))
    (zip_with smul cb e) = x.
Proof.
  revert e ca cb; induction x as [|s x IH];
    intros [|m e] [|a ca] [|b cb]; simpl; intros Ea Eb En Hnz;
    try discriminate; try reflexivity.
  inversion Hnz; subst.
  rewrite sample_inverse_trip by assumption.
  f_equal. apply IH; auto.
Qed.

(** The other round trip: corrupting the estimate that [extract_x0]
    recovers from [x_t] and [epsilon], at the same timesteps and with
    [epsilon] as noise, gives [x_t] back. *)
Theorem q_sample_extract_x0_round_trip (x_t epsilon : Tensor) (t : list nat)
    (sqrt_alphas_cumprod sqrt_one_minus_alphas_cumprod : list R) :
  length t = length x_t ->
  length epsilon = length x_t ->
  Forall (fun i => exists a, index sqrt_alphas_cumprod i = Ok a /\ a <> 0) t ->
  Forall (fun i => (i < length sqrt_one_minus_alphas_cumprod)%nat) t ->
  exists x0,
    extract_x0 x_t epsilon t sqrt_alphas_cumprod
      sqrt_one_minus_alphas_cumprod = Ok x0 /\
    q_sample x0 t sqrt_alphas_cumprod sqrt_one_minus_alphas_cumprod
      (Some epsilon) = Ok x_t.
Proof.
  intros Et En Ha Hb.
  assert (Ha' : Forall (fun i => (i < length sqrt_alphas_cumprod)%nat) t).
  { eapply Forall_impl; [|exact Ha]. intros i (a & Hi & _).
    eapply index_Ok_lt; eauto. }
  assert (Hnz : Forall (fun a => a <> 0)
                  (map (fun i => nth i sqrt_alphas_cumprod 0) t)).
  { apply Forall_map. eapply Forall_impl; [|exact Ha].
    intros i (a & Hi & Hne). cbv beta.
    rewrite (index_nth _ i 0) in Hi by (eapply index_Ok_lt; eauto).
    congruence. }
  set (ca := map (fun i => nth i sqrt_alphas_cumprod 0) t) in *.
  set (cb := map (fun i => nth i sqrt_one_minus_alphas_cumprod 0) t).
  assert (Eca : length ca = length x_t)
    by (unfold ca; now rewrite length_map).
  assert (Ecb : length cb = length x_t)
    by (unfold cb; now rewrite length_map).
  exists (zip_with sdiv (zip_with ssub x_t (zip_with smul cb epsilon)) ca).
  unfold q_sample, extract_x0, tadd, tsub.
  rewrite (gather_Ok _ _ Ha'), (gather_Ok _ _ Hb). fold ca cb. simpl.
  rewrite (broadcast2_same_length smul cb epsilon) by lia. simpl.
  rewrite broadcast2_same_length by (rewrite !zip_with_length; lia).
  simpl.
  rewrite broadcast2_same_length by (rewrite !zip_with_length; lia).
  split; [reflexivity|]. simpl.
  rewrite broadcast2_same_length by (rewrite !zip_with_length; lia).
  simpl.
  rewrite broadcast2_same_length by (rewrite !zip_with_length; lia).
  f_equal. apply zip_inverse_trip; auto.
Qed.

End ForwardInverse.

Lemma q_sample_extract_x0_round_trip_witness :
  exists x0,
    @extract_x0 Stub.backend [Stub.const 2] [Stub.const 3] [0%nat] [1] [0]
      = Ok x0 /\
    @q_sample Stub.backend x0 [0%nat] [1] [0] (Some [Stub.const 3])
      = Ok [Stub.const 2].
Proof.
  apply (@q_sample_extract_x0_round_trip Stub.backend
           [Stub.const 2] [Stub.const 3] [0%nat] [1] [0]).
  - reflexivity.
  - reflexivity.
  - constructor; [|constructor]. exists 1. split; [reflexivity | lra].
  - constructor; [simpl; lia | constructor].
Defined.

(** ** The reverse steps inside and outside the schedule *)

Section StepRange.
Context `{Backend} {G : Type} `{!Generator G}.

Lemma mbind_lift_Ok {A B : Type} (r : result A) (a : A) (k : A -> M G B)
    (g : G) :
  r = Ok a -> mbind (lift r) k g = k a g.
Proof. intros ->. reflexivity. Qed.

Lemma mbind_lift_Raise {A B : Type} (r : result A) (e : exn)
    (k : A -> M G B) (g : G) :
  r = Raise e -> mbind (lift r) k g = Raise e.
Proof. intros ->. reflexivity. Qed.

Lemma tsub_Ok (a b : Tensor) :
  length a = length b -> tsub a b = Ok (zip_with ssub a b).
Proof. apply broadcast2_same_length. Qed.

Lemma tadd_Ok (a b : Tensor) :
  length a = length b -> tadd a b = Ok (zip_with sadd a b).
Proof. apply broadcast2_same_length. Qed.

Lemma scale_length (c : R) (x : Tensor) : length (scale c x) = length x.
Proof. apply length_map. Qed.

Lemma tdiv_length (x : Tensor) (c : R) : length (tdiv x c) = length x.
Proof. apply length_map. Qed.

Lemma guided_Ok (self : module) (a b : Tensor) :
  length a = length b ->
  guided self a b
  = Ok (zip_with ssub (scale (1 + sampling_w (hp self)) a)
          (scale (sampling_w (hp self)) b)).
Proof.
  intros E. unfold guided. apply tsub_Ok. now rewrite !scale_length.
Qed.

End StepRange.

Ltac tensor_len :=
  repeat first
    [ rewrite zip_with_length | rewrite scale_length | rewrite tdiv_length
    | rewrite length_map ];
  try lia; try congruence.

Section StepTotal.
Context `{Backend} {G : Type} `{!Generator G}.
Variable self : module.
Variable T : nat.
Hypothesis betas_length : length (Schedule.betas (schedule self)) = T.
Hypothesis alphas_length : length (Schedule.alphas (schedule self)) = T.
Hypothesis sqrt_recip_alphas_length :
  length (Schedule.sqrt_recip_alphas (schedule self)) = T.
Hypothesis sqrt_alphas_cumprod_length :
  length (Schedule.sqrt_alphas_cumprod (schedule self)) = T.
Hypothesis sqrt_one_minus_alphas_cumprod_length :
  length (Schedule.sqrt_one_minus_alphas_cumprod (schedule self)) = T.
Hypothesis posterior_variance_length :
  length (Schedule.posterior_variance (schedule self)) = T.
Variable t_index : nat.
Hypothesis in_range : (t_index < T)%nat.

Ltac lookup_ok :=
  erewrite mbind_lift_Ok;
  [| apply (index_nth _ _ 0);
     rewrite ?betas_length, ?alphas_length, ?sqrt_recip_alphas_length,
       ?sqrt_alphas_cumprod_length, ?sqrt_one_minus_alphas_cumprod_length,
       ?posterior_variance_length; lia ].

Ltac tsub_ok := erewrite mbind_lift_Ok; [| apply tsub_Ok; tensor_len ].
Ltac tadd_ok := erewrite mbind_lift_Ok; [| apply tadd_Ok; tensor_len ].

Lemma x0_posterior_Ok (sigma : R) (x0_pred x : Tensor) (g : G) :
  length x0_pred = length x ->
  exists y g',
    x0_posterior self sigma x0_pred x t_index g = Ok (y, g') /\
    length y = length x.
Proof.
  intros L. unfold x0_posterior.
  lookup_ok. lookup_ok. tsub_ok. lookup_ok. tadd_ok.
  destruct (randn_like_Ok x g) as (noise & g1 & Er & Ln).
  unfold mbind at 1. rewrite Er.
  unfold lift. rewrite tadd_Ok by tensor_len.
  eexists _, g1. split; [reflexivity|]. tensor_len.
Qed.

Lemma ddpm_x0_update_Ok (x0_pred x : Tensor) (g : G) :
  length x0_pred = length x ->
  exists y g',
    ddpm_x0_update self x0_pred x t_index g = Ok (y, g') /\
    length y = length x.
Proof.
  intros L. unfold ddpm_x0_update.
  destruct (t_index =? 0)%nat.
  - lookup_ok. lookup_ok. lookup_ok.
    eexists _, g. split; [reflexivity|]. tensor_len.
  - lookup_ok. lookup_ok. lookup_ok. now apply x0_posterior_Ok.
Qed.

Lemma ddim_x0_update_Ok (x0_pred x : Tensor) (g : G) :
  length x0_pred = length x ->
  exists y g',
    ddim_x0_update self x0_pred x t_index g = Ok (y, g') /\
    length y = length x.
Proof.
  intros L. unfold ddim_x0_update.
  destruct (t_index =? 0)%nat.
  - lookup_ok. eexists _, g. split; [reflexivity|]. tensor_len.
  - now apply x0_posterior_Ok.
Qed.

Lemma finish_Ok (m : M G Tensor) (side : Side) (x : Tensor)
    (g : G) :
  (exists y g', m g = Ok (y, g') /\ length y = length x) ->
  exists y side' g',
    mbind m (fun model_mean => ret (model_mean, side)) g
      = Ok ((y, side'), g') /\
    length y = length x.
Proof.
  intros (y & g' & E & L). exists y, side, g'.
  unfold mbind. rewrite E. split; [reflexivity | exact L].
Qed.

Ltac network_call :=
  match goal with
  | |- context [forward ?x ?c ?t ?k] =>
      let L := fresh "L" in
      pose proof (forward_shape x c t k) as L;
      destruct (forward x c t k) as [? ?]; cbn [fst] in L
  end.

Lemma reverse_step_Ok (v : variant) (x : Tensor) (c : Cond) (g : G) :
  (v = Inpainting_ddpm_x0 ->
   exists it i_f, inpainting_t (hp self) = Some it /\
                  inpainting_f (hp self) = Some i_f) ->
  exists y side g',
    reverse_step self v x c t_index g = Ok ((y, side), g') /\
    length y = length x.
Proof.
  intros Hinp. destruct v; cbn [reverse_step].
  - unfold ddpm. lookup_ok. lookup_ok. lookup_ok. cbv beta.
    network_call. tsub_ok. cbv beta.
    destruct (t_index =? 0)%nat.
    + eexists _, _, g. split; [reflexivity|]. tensor_len.
    + lookup_ok. cbv beta.
      destruct (randn_like_Ok x g) as (noise & g1 & Er & Ln).
      unfold mbind at 1. rewrite Er.
      tadd_ok. eexists _, _, g1. split; [reflexivity|]. tensor_len.
  - unfold ddpm_x0. network_call.
    apply finish_Ok. now apply ddpm_x0_update_Ok.
  - unfold ddim_x0. network_call.
    apply finish_Ok. now apply ddim_x0_update_Ok.
  - unfold ddim. network_call.
    destruct (t_index =? 0)%nat.
    + lookup_ok. tsub_ok. lookup_ok.
      eexists _, _, g. split; [reflexivity|]. tensor_len.
    + lookup_ok. lookup_ok. tsub_ok. lookup_ok. lookup_ok. tadd_ok.
      eexists _, _, g. split; [reflexivity|]. tensor_len.
  - unfold ddim2ddpm. network_call.
    destruct (t_index =? 0)%nat.
    + lookup_ok. tsub_ok. lookup_ok.
      eexists _, _, g. split; [reflexivity|]. tensor_len.
    + lookup_ok. lookup_ok. lookup_ok. cbv beta zeta.
      lookup_ok. tsub_ok. lookup_ok. tadd_ok.
      destruct (randn_like_Ok x g) as (noise & g1 & Er & Ln).
      unfold mbind at 1. rewrite Er.
      tadd_ok. eexists _, _, g1. split; [reflexivity|]. tensor_len.
  - unfold cfdg_ddpm_x0. network_call. network_call.
    erewrite mbind_lift_Ok by (apply guided_Ok; congruence).
    apply finish_Ok. apply ddpm_x0_update_Ok. tensor_len.
  - unfold generation_ddpm_x0. network_call.
    apply finish_Ok. now apply ddpm_x0_update_Ok.
  - unfold inpainting_ddpm_x0.
    destruct (Hinp eq_refl) as (it & i_f & -> & ->).
    cbn [hparam]. rewrite !(mbind_lift_Ok _ _ _ _ eq_refl).
    network_call. network_call.
    erewrite mbind_lift_Ok by (apply guided_Ok; congruence).
    apply finish_Ok. apply ddpm_x0_update_Ok. tensor_len.
  - unfold cfdg_ddim_x0. network_call. network_call.
    erewrite mbind_lift_Ok by (apply guided_Ok; congruence).
    apply finish_Ok. apply ddim_x0_update_Ok. tensor_len.
Qed.

End StepTotal.

Lemma reverse_step_in_range_generic `{Backend} {G : Type} `{!Generator G}
    (h : hparams) (v : variant) (x : Tensor) (c : Cond) (t_index : nat)
    (g : G) :
  (t_index < timesteps h)%nat ->
  (v = Inpainting_ddpm_x0 ->
   exists it i_f, inpainting_t h = Some it /\ inpainting_f h = Some i_f) ->
  exists y side g',
    reverse_step (module_of h) v x c t_index g = Ok ((y, side), g') /\
    length y = length x.
Proof.
  intros Ht Hinp.
  destruct (build_lengths (timesteps h))
    as (Lb & Lal & Lr & La & Lo & Lp).
  apply (reverse_step_Ok (module_of h) (timesteps h));
    try assumption.
Qed.

(** ** Sampling with a configured variant *)




(** Inside the schedule every variant returns, and the new state has the
    batch size of the old one; [inpainting_ddpm_x0] needs its two
    hyper-parameters for that. *)
Theorem reverse_step_in_range `{Backend} {G : Type} `{!Generator G}
    (h : hparams) (v : variant) (x : Tensor) (c : Cond) (t_index : nat)
    (g : G) :
  (t_index < timesteps h)%nat ->
  (v = Inpainting_ddpm_x0 ->
   exists it i_f, inpainting_t h = Some it /\ inpainting_f h = Some i_f) ->
  exists y side g',
    reverse_step (module_of h) v x c t_index g = Ok ((y, side), g') /\
    length y = length x.
Proof.
  intros Ht Hinp.
  destruct (build_lengths (timesteps h))
    as (Lb & Lal & Lr & La & Lo & Lp).
  apply (reverse_step_Ok (module_of h) (timesteps h));
    try assumption.
Qed.

Lemma reverse_step_in_range_witness :
  exists y side g',
    @reverse_step Stub.backend unit Stub.generator
      (module_of (Stub.hparams_of 10 "l1" "ddim2ddpm")) Ddim2ddpm
      [Stub.const 0; Stub.const 1] tt 3 tt = Ok ((y, side), g') /\
    length y = 2%nat.
Proof.
  apply (@reverse_step_in_range Stub.backend unit Stub.generator
           (Stub.hparams_of 10 "l1" "ddim2ddpm") Ddim2ddpm
           [Stub.const 0; Stub.const 1] tt 3 tt).
  - simpl. lia.
  - discriminate.
Defined.

Section StepOutOfRange.
Context `{Backend} {G : Type} `{!Generator G}.
Variable self : module.
Variable T : nat.
Hypothesis betas_length : length (Schedule.betas (schedule self)) = T.
Hypothesis alphas_length : length (Schedule.alphas (schedule self)) = T.
Hypothesis sqrt_alphas_cumprod_length :
  length (Schedule.sqrt_alphas_cumprod (schedule self)) = T.
Hypothesis sqrt_one_minus_alphas_cumprod_length :
  length (Schedule.sqrt_one_minus_alphas_cumprod (schedule self)) = T.
Variable t_index : nat.
Hypothesis out_of_range : (T <= t_index)%nat.

Lemma index_out {A : Type} (l : list A) (i : nat) :
  (length l <= i)%nat -> index l i = Raise IndexError.
Proof.
  intros Hi. unfold index.
  now rewrite (proj2 (nth_error_None l i) Hi).
Qed.

Lemma index_cases {A : Type} (l : list A) (i : nat) :
  index l i = Raise IndexError \/ exists a, index l i = Ok a.
Proof.
  unfold index. destruct (nth_error l i); [right; eauto | left; reflexivity].
Qed.

Ltac lookup_fails :=
  erewrite mbind_lift_Raise;
  [ reflexivity
  | apply index_out;
    rewrite ?betas_length, ?alphas_length, ?sqrt_alphas_cumprod_length,
      ?sqrt_one_minus_alphas_cumprod_length; lia ].

Ltac lookup_any :=
  match goal with
  | |- mbind (lift (index ?l ?i)) _ _ = _ =>
      let E := fresh "E" in
      destruct (index_cases l i) as [E|[? E]];
      [ rewrite (mbind_lift_Raise _ _ _ _ E); reflexivity
      | rewrite (mbind_lift_Ok _ _ _ _ E) ]
  end.

Lemma x0_posterior_out (sigma : R) (x0_pred x : Tensor) (g : G) :
  x0_posterior self sigma x0_pred x t_index g = Raise IndexError.
Proof. unfold x0_posterior. lookup_any. lookup_fails. Qed.

Lemma ddpm_x0_update_out (x0_pred x : Tensor) (g : G) :
  ddpm_x0_update self x0_pred x t_index g = Raise IndexError.
Proof.
  unfold ddpm_x0_update. destruct (t_index =? 0)%nat.
  - lookup_fails.
  - lookup_any. lookup_fails.
Qed.

Lemma ddim_x0_update_out (x0_pred x : Tensor) (g : G) :
  ddim_x0_update self x0_pred x t_index g = Raise IndexError.
Proof.
  unfold ddim_x0_update. destruct (t_index =? 0)%nat.
  - lookup_fails.
  - apply x0_posterior_out.
Qed.

Lemma finish_out (m : M G Tensor) (side : Side) (g : G) (e : exn) :
  m g = Raise e ->
  mbind m (fun model_mean => ret (model_mean, side)) g = Raise e.
Proof. intros E. unfold mbind. now rewrite E. Qed.

Ltac network_call' :=
  match goal with
  | |- context [forward ?x ?c ?t ?k] =>
      let L := fresh "L" in
      pose proof (forward_shape x c t k) as L;
      destruct (forward x c t k) as [? ?]; cbn [fst] in L
  end.

Lemma reverse_step_out (v : variant) (x : Tensor) (c : Cond) (g : G) :
  (v = Inpainting_ddpm_x0 ->
   exists it i_f, inpainting_t (hp self) = Some it /\
                  inpainting_f (hp self) = Some i_f) ->
  reverse_step self v x c t_index g = Raise IndexError.
Proof.
  intros Hinp. destruct v; cbn [reverse_step].
  - unfold ddpm. lookup_fails.
  - unfold ddpm_x0. network_call'.
    apply finish_out, ddpm_x0_update_out.
  - unfold ddim_x0. network_call'.
    apply finish_out, ddim_x0_update_out.
  - unfold ddim. network_call'. destruct (t_index =? 0)%nat.
    + lookup_fails.
    + lookup_any. lookup_fails.
  - unfold ddim2ddpm. network_call'. destruct (t_index =? 0)%nat.
    + lookup_fails.
    + lookup_any. lookup_fails.
  - unfold cfdg_ddpm_x0. network_call'. network_call'.
    erewrite mbind_lift_Ok by (apply guided_Ok; congruence).
    apply finish_out, ddpm_x0_update_out.
  - unfold generation_ddpm_x0. network_call'.
    apply finish_out, ddpm_x0_update_out.
  - unfold inpainting_ddpm_x0.
    destruct (Hinp eq_refl) as (it & i_f & -> & ->).
    cbn [hparam]. rewrite !(mbind_lift_Ok _ _ _ _ eq_refl).
    network_call'. network_call'.
    erewrite mbind_lift_Ok by (apply guided_Ok; congruence).
    apply finish_out, ddpm_x0_update_out.
  - unfold cfdg_ddim_x0. network_call'. network_call'.
    erewrite mbind_lift_Ok by (apply guided_Ok; congruence).
    apply finish_out, ddim_x0_update_out.
Qed.

End StepOutOfRange.

(** At or beyond the end of the schedule every variant raises
    [IndexError], on every state; and [inpainting_ddpm_x0] raises
    [AttributeError] at every timestep when one of its two hyper-parameters
    is absent. *)
Theorem reverse_step_out_of_range `{Backend} {G : Type} `{!Generator G}
    (h : hparams) (x : Tensor) (c : Cond) (t_index : nat) (g : G) :
  (forall v : variant,
     (timesteps h <= t_index)%nat ->
     (v = Inpainting_ddpm_x0 ->
      exists it i_f, inpainting_t h = Some it /\ inpainting_f h = Some i_f) ->
     reverse_step (module_of h) v x c t_index g = Raise IndexError) /\
  (inpainting_t h = None \/ inpainting_f h = None ->
   reverse_step (module_of h) Inpainting_ddpm_x0 x c t_index g
   = Raise AttributeError).
Proof.
  split.
  - intros v Ht Hinp.
    destruct (build_lengths (timesteps h))
      as (Lb & Lal & Lr & La & Lo & Lp).
    apply (reverse_step_out (module_of h) (timesteps h)); assumption.
  - intros Hmiss. cbn [reverse_step]. unfold inpainting_ddpm_x0.
    cbn [hp module_of].
    destruct (inpainting_t h) as [it|]; [|reflexivity].
    destruct Hmiss as [Hm|Hm]; [discriminate|]. rewrite Hm. reflexivity.
Qed.

Lemma reverse_step_out_of_range_witness :
  @reverse_step Stub.backend unit Stub.generator
    (module_of (Stub.hparams_of 10 "l1" "ddpm_x0")) Ddpm_x0
    [Stub.const 0] tt 10 tt = Raise IndexError /\
  @reverse_step Stub.backend unit Stub.generator
    (module_of (Stub.hparams_of 10 "l1" "inpainting_ddpm_x0"))
    Inpainting_ddpm_x0 [Stub.const 0] tt 3 tt = Raise AttributeError.
Proof.
  split.
  - apply (@reverse_step_out_of_range Stub.backend unit Stub.generator
             (Stub.hparams_of 10 "l1" "ddpm_x0") [Stub.const 0] tt 10 tt).
    + simpl. lia.
    + discriminate.
  - apply (@reverse_step_out_of_range Stub.backend unit Stub.generator
             (Stub.hparams_of 10 "l1" "inpainting_ddpm_x0")
             [Stub.const 0] tt 3 tt).
    left. reflexivity.
Defined.

(** ** Deterministic steps and the forward process *)

Section DdimForward.
Context `{Backend} {G : Type} `{!Generator G}.

Lemma gather_repeat (table : list R) (i n : nat) :
  (i < length table)%nat ->
  gather table (repeat i n) = Ok (repeat (nth i table 0) n).
Proof.
  intros Hi. induction n as [|n IH]; simpl; [reflexivity|].
  rewrite (index_nth table i 0 Hi). simpl. rewrite IH. reflexivity.
Qed.

Lemma zip_with_repeat_l {A B C : Type} (f : A -> B -> C) (a : A)
    (l : list B) :
  zip_with f (repeat a (length l)) l = map (f a) l.
Proof. induction l; simpl; congruence. Qed.

Lemma zip_with_repeat_r {A B C : Type} (f : A -> B -> C) (b : B)
    (l : list A) :
  zip_with f l (repeat b (length l)) = map (fun a => f a b) l.
Proof. induction l; simpl; congruence. Qed.

(** [q_sample] and [extract_x0] with one timestep for the whole batch. *)
Lemma q_sample_uniform (x0 n : Tensor) (t : nat) (ca cb : list R) :
  length n = length x0 ->
  (t < length ca)%nat -> (t < length cb)%nat ->
  q_sample x0 (repeat t (length x0)) ca cb (Some n)
  = Ok (zip_with sadd (scale (nth t ca 0) x0) (scale (nth t cb 0) n)).
Proof.
  intros Ln Ha Hb. unfold q_sample, tadd.
  rewrite !gather_repeat by assumption. simpl.
  rewrite broadcast2_same_length by (now rewrite repeat_length).
  simpl. rewrite zip_with_repeat_l.
  rewrite broadcast2_same_length by (rewrite repeat_length; congruence).
  simpl. rewrite <- Ln, zip_with_repeat_l.
  rewrite broadcast2_same_length by (rewrite !length_map; congruence).
  reflexivity.
Qed.

Lemma extract_x0_uniform (x eps : Tensor) (t : nat) (ca cb : list R) :
  length eps = length x ->
  (t < length ca)%nat -> (t < length cb)%nat ->
  extract_x0 x eps (repeat t (length x)) ca cb
  = Ok (tdiv (zip_with ssub x (scale (nth t cb 0) eps)) (nth t ca 0)).
Proof.
  intros Le Ha Hb. unfold extract_x0, tsub.
  rewrite !gather_repeat by assumption. simpl.
  rewrite broadcast2_same_length by (rewrite repeat_length; congruence).
  simpl. rewrite <- Le, zip_with_repeat_l.
  rewrite broadcast2_same_length by (rewrite length_map; congruence).
  simpl.
  assert (Lz : length (zip_with ssub x (map (smul (nth t cb 0)) eps))
               = length eps)
    by (rewrite zip_with_length, length_map; lia).
  rewrite broadcast2_same_length by (rewrite repeat_length; exact Lz).
  rewrite <- Lz, zip_with_repeat_r. reflexivity.
Qed.

End DdimForward.

Section BuiltCoefficients.
Import Schedule ScheduleFacts.

(** The two square-root tables of a built schedule, entry by entry. *)
Lemma build_nth (timesteps t : nat) :
  (t < timesteps)%nat ->
  exists p,
    0 < p < 1 /\
    nth t (Schedule.sqrt_alphas_cumprod (build timesteps)) 0 = sqrt p /\
    nth t (Schedule.sqrt_one_minus_alphas_cumprod (build timesteps)) 0
      = sqrt (1 - p).
Proof.
  intros Ht.
  set (bs := cosine_beta_schedule timesteps default_s).
  assert (Hlen : length bs = timesteps)
    by apply cosine_beta_schedule_length.
  assert (Hr : Forall in_clip_range bs)
    by apply cosine_beta_schedule_range.
  exists (nth t (alphas_cumprod_of bs) 0).
  split; [apply alphas_cumprod_pos_lt_1; [exact Hr | lia]|].
  unfold build, of_betas.
  cbn [Schedule.sqrt_alphas_cumprod Schedule.sqrt_one_minus_alphas_cumprod].
  fold bs. split.
  - apply map_nth_in_range. rewrite alphas_cumprod_of_length; lia.
  - apply (map_nth_in_range (fun a => sqrt (1 - a))).
    rewrite alphas_cumprod_of_length; lia.
Qed.

End BuiltCoefficients.

Section DdimOracle.
Context `{Backend} {G : Type} `{!Generator G}.
Variable self : module.
Variable T : nat.
Hypothesis sqrt_alphas_cumprod_length :
  length (Schedule.sqrt_alphas_cumprod (schedule self)) = T.
Hypothesis sqrt_one_minus_alphas_cumprod_length :
  length (Schedule.sqrt_one_minus_alphas_cumprod (schedule self)) = T.

Let a (t : nat) : R :=
  nth t (Schedule.sqrt_alphas_cumprod (schedule self)) 0.
Let b (t : nat) : R :=
  nth t (Schedule.sqrt_one_minus_alphas_cumprod (schedule self)) 0.

Lemma lookup_a (t : nat) :
  (t < T)%nat ->
  index (Schedule.sqrt_alphas_cumprod (schedule self)) t = Ok (a t).
Proof. intros Ht. apply index_nth. now rewrite sqrt_alphas_cumprod_length. Qed.

Lemma lookup_b (t : nat) :
  (t < T)%nat ->
  index (Schedule.sqrt_one_minus_alphas_cumprod (schedule self)) t
  = Ok (b t).
Proof.
  intros Ht. apply index_nth.
  now rewrite sqrt_one_minus_alphas_cumprod_length.
Qed.

Lemma ddim_terminal (x : Tensor) (c : Cond) (g : G) :
  (0 < T)%nat ->
  let '(eps, spec) := forward x c (t_tensor_of x 0) NoKwargs in
  ddim self x c 0 g
    = Ok ((tdiv (zip_with ssub x (scale (b 0) eps)) (a 0), spec), g) /\
  ddim2ddpm self x c 0 g
    = Ok ((tdiv (zip_with ssub x (scale (b 0) eps)) (a 0), spec), g).
Proof.
  intros HT. unfold ddim, ddim2ddpm.
  pose proof (forward_shape x c (t_tensor_of x 0) NoKwargs) as L.
  destruct (forward x c (t_tensor_of x 0) NoKwargs) as [eps spec].
  cbn [fst] in L. cbn [Nat.eqb].
  rewrite !(mbind_lift_Ok _ _ _ _ (lookup_b 0 HT)).
  rewrite !(mbind_lift_Ok _ _ _ _
              (tsub_Ok x (scale (b 0) eps)
                 ltac:(rewrite scale_length; congruence))).
  rewrite !(mbind_lift_Ok _ _ _ _ (lookup_a 0 HT)).
  split; reflexivity.
Qed.

Lemma ddim_general (x : Tensor) (c : Cond) (t : nat) (g : G) :
  (1 <= t)%nat -> (t < T)%nat ->
  let '(eps, spec) := forward x c (t_tensor_of x t) NoKwargs in
  ddim self x c t g
  = Ok ((zip_with sadd
           (scale (a (t - 1))
              (tdiv (zip_with ssub x (scale (b t) eps)) (a t)))
           (scale (b (t - 1)) eps), spec), g).
Proof.
  intros H1 Ht. unfold ddim.
  pose proof (forward_shape x c (t_tensor_of x t) NoKwargs) as L.
  destruct (forward x c (t_tensor_of x t) NoKwargs) as [eps spec].
  cbn [fst] in L.
  rewrite (proj2 (Nat.eqb_neq t 0)) by lia.
  rewrite (mbind_lift_Ok _ _ _ _ (lookup_a (t - 1) ltac:(lia))).
  rewrite (mbind_lift_Ok _ _ _ _ (lookup_b t Ht)).
  rewrite (mbind_lift_Ok _ _ _ _
             (tsub_Ok x (scale (b t) eps)
                ltac:(rewrite scale_length; congruence))).
  rewrite (mbind_lift_Ok _ _ _ _ (lookup_a t Ht)).
  rewrite (mbind_lift_Ok _ _ _ _ (lookup_b (t - 1) ltac:(lia))).
  erewrite mbind_lift_Ok; [reflexivity|].
  apply tadd_Ok.
  rewrite !scale_length, tdiv_length, zip_with_length, scale_length. lia.
Qed.

Lemma ddim_x0_general (x : Tensor) (c : Cond) (t : nat) (g : G) :
  (1 <= t)%nat -> (t < T)%nat ->
  exists noise g',
    randn_like x g = Ok (noise, g') /\
    let '(x0_pred, spec) := forward x c (t_tensor_of x t) NoKwargs in
    ddim_x0 self x c t g
    = Ok ((zip_with sadd
             (zip_with sadd
                (scale (a (t - 1)) x0_pred)
                (tdiv (scale (sqrt (1 - a (t - 1) ^ 2 - 0 ^ 2))
                         (zip_with ssub x (scale (a t) x0_pred)))
                   (b t)))
             (scale 0 noise), spec), g').
Proof.
  intros H1 Ht.
  destruct (randn_like_Ok x g) as (noise & g1 & Er & Ln).
  exists noise, g1. split; [exact Er|].
  unfold ddim_x0, ddim_x0_update.
  pose proof (forward_shape x c (t_tensor_of x t) NoKwargs) as L.
  destruct (forward x c (t_tensor_of x t) NoKwargs) as [x0_pred spec].
  cbn [fst] in L.
  rewrite (proj2 (Nat.eqb_neq t 0)) by lia.
  cbv zeta. unfold x0_posterior.
  unfold mbind at 1.
  rewrite (mbind_lift_Ok _ _ _ _ (lookup_a (t - 1) ltac:(lia))).
  rewrite (mbind_lift_Ok _ _ _ _ (lookup_a t Ht)).
  rewrite (mbind_lift_Ok _ _ _ _
             (tsub_Ok x (scale (a t) x0_pred)
                ltac:(rewrite scale_length; congruence))).
  rewrite (mbind_lift_Ok _ _ _ _ (lookup_b t Ht)).
  erewrite mbind_lift_Ok;
    [| apply tadd_Ok;
       rewrite !scale_length, tdiv_length, scale_length, zip_with_length,
         scale_length; lia ].
  unfold mbind at 1. rewrite Er.
  unfold lift. rewrite tadd_Ok; [reflexivity|].
  rewrite !zip_with_length, !scale_length, tdiv_length, scale_length,
    zip_with_length, scale_length. lia.
Qed.

End DdimOracle.

Section DdimClaims.
Context `{Backend} {G : Type} `{!Generator G}.

Lemma ddim_algebra (x0 n : Tensor) (a b a' b' : R) :
  length n = length x0 -> a <> 0 ->
  zip_with sadd
    (scale a'
       (tdiv (zip_with ssub (zip_with sadd (scale a x0) (scale b n))
                (scale b n)) a))
    (scale b' n)
  = zip_with sadd (scale a' x0) (scale b' n).
Proof.
  intros L Ha. revert n L. induction x0 as [|s x0 IH]; intros [|m n] L;
    simpl in *; try discriminate; [reflexivity|].
  f_equal.
  - extensionality i. unfold sadd, smul, sdiv, ssub. now field.
  - apply IH. congruence.
Qed.

Lemma ddim_x0_algebra (x0 n noise : Tensor) (a b a' b' : R) :
  length n = length x0 -> length noise = length x0 -> b <> 0 ->
  zip_with sadd
    (zip_with sadd (scale a' x0)
       (tdiv (scale b'
                (zip_with ssub (zip_with sadd (scale a x0) (scale b n))
                   (scale a x0))) b))
    (scale 0 noise)
  = zip_with sadd (scale a' x0) (scale b' n).
Proof.
  intros L L' Hb. revert n noise L L'.
  induction x0 as [|s x0 IH]; intros [|m n] [|z noise] L L';
    simpl in *; try discriminate; [reflexivity|].
  f_equal.
  - extensionality i. unfold sadd, smul, sdiv, ssub. now field.
  - apply IH; congruence.
Qed.

(** At [t_index = 0], [ddim] and [ddim2ddpm] return exactly what
    [extract_x0] recovers from the state and the predicted noise at
    timestep 0, and leave the generator alone. *)
Theorem ddim_terminal_is_extract_x0 (h : hparams) (x : Tensor) (c : Cond)
    (g : G) :
  (1 <= timesteps h)%nat ->
  exists x0,
    extract_x0 x (fst (forward x c (t_tensor_of x 0) NoKwargs))
      (t_tensor_of x 0)
      (Schedule.sqrt_alphas_cumprod (schedule (module_of h)))
      (Schedule.sqrt_one_minus_alphas_cumprod (schedule (module_of h)))
    = Ok x0 /\
    ddim (module_of h) x c 0 g
    = Ok ((x0, snd (forward x c (t_tensor_of x 0) NoKwargs)), g) /\
    ddim2ddpm (module_of h) x c 0 g
    = Ok ((x0, snd (forward x c (t_tensor_of x 0) NoKwargs)), g).
Proof.
  intros HT.
  destruct (build_table_lengths (timesteps h)) as [La Lb].
  pose proof (ddim_terminal (module_of h) (timesteps h) La Lb x c g
                ltac:(lia)) as Hd.
  pose proof (forward_shape x c (t_tensor_of x 0) NoKwargs) as L.
  destruct (forward x c (t_tensor_of x 0) NoKwargs) as [eps spec].
  cbn [fst snd] in *. destruct Hd as [Hd1 Hd2].
  eexists. split; [|split; [exact Hd1 | exact Hd2]].
  unfold t_tensor_of. apply extract_x0_uniform.
  - exact L.
  - unfold module_of; cbn [schedule]. rewrite La. lia.
  - unfold module_of; cbn [schedule]. rewrite Lb. lia.
Qed.

(** With a network that predicts the injected noise exactly, one [ddim]
    step maps the forward sample of [x0] at timestep [t] to the forward
    sample of [x0] at timestep [t - 1] with the same noise. *)
Theorem ddim_step_follows_forward_process (h : hparams) (x0 n x_t : Tensor)
    (c : Cond) (t : nat) (g : G) :
  (1 <= t)%nat -> (t < timesteps h)%nat ->
  length n = length x0 ->
  q_sample x0 (repeat t (length x0))
    (Schedule.sqrt_alphas_cumprod (schedule (module_of h)))
    (Schedule.sqrt_one_minus_alphas_cumprod (schedule (module_of h)))
    (Some n) = Ok x_t ->
  fst (forward x_t c (t_tensor_of x_t t) NoKwargs) = n ->
  exists x_prev,
    q_sample x0 (repeat (t - 1)%nat (length x0))
      (Schedule.sqrt_alphas_cumprod (schedule (module_of h)))
      (Schedule.sqrt_one_minus_alphas_cumprod (schedule (module_of h)))
      (Some n) = Ok x_prev /\
    ddim (module_of h) x_t c t g
    = Ok ((x_prev, snd (forward x_t c (t_tensor_of x_t t) NoKwargs)), g).
Proof.
  intros H1 Ht Ln Hq Hnet.
  destruct (build_table_lengths (timesteps h)) as [La Lb].
  destruct (build_nth (timesteps h) t Ht) as (p & Hp & Hat & _).
  rewrite q_sample_uniform in Hq;
    [ | exact Ln
      | unfold module_of; cbn [schedule]; rewrite La; lia
      | unfold module_of; cbn [schedule]; rewrite Lb; lia ].
  apply (f_equal (fun r => match r with Ok v => v | Raise _ => x_t end))
    in Hq.
  cbv beta iota in Hq. subst x_t.
  eexists. split.
  - apply q_sample_uniform;
      [ exact Ln
      | unfold module_of; cbn [schedule]; rewrite La; lia
      | unfold module_of; cbn [schedule]; rewrite Lb; lia ].
  - pose proof (ddim_general (module_of h) (timesteps h) La Lb
                  (zip_with sadd
                     (scale (nth t (Schedule.sqrt_alphas_cumprod
                                      (schedule (module_of h))) 0) x0)
                     (scale (nth t (Schedule.sqrt_one_minus_alphas_cumprod
                                      (schedule (module_of h))) 0) n))
                  c t g H1 Ht) as Hd.
    destruct (forward _ c _ NoKwargs) as [eps spec].
    change (eps = n) in Hnet. subst eps.
    change (snd (n, spec)) with spec.
    etransitivity; [exact Hd|]. f_equal. f_equal. f_equal.
    apply ddim_algebra; [exact Ln|].
    unfold module_of; cbn [schedule]. rewrite Hat.
    apply Rgt_not_eq, sqrt_lt_R0. lra.
Qed.

(** With a network that predicts the clean sample exactly, one [ddim_x0]
    step maps the forward sample of [x0] at timestep [t] to the forward
    sample of [x0] at timestep [t - 1] with the same noise; the noise that
    the step draws does not enter the result. *)
Theorem ddim_x0_step_follows_forward_process (h : hparams)
    (x0 n x_t : Tensor) (c : Cond) (t : nat) (g : G) :
  (1 <= t)%nat -> (t < timesteps h)%nat ->
  length n = length x0 ->
  q_sample x0 (repeat t (length x0))
    (Schedule.sqrt_alphas_cumprod (schedule (module_of h)))
    (Schedule.sqrt_one_minus_alphas_cumprod (schedule (module_of h)))
    (Some n) = Ok x_t ->
  fst (forward x_t c (t_tensor_of x_t t) NoKwargs) = x0 ->
  exists x_prev g',
    q_sample x0 (repeat (t - 1)%nat (length x0))
      (Schedule.sqrt_alphas_cumprod (schedule (module_of h)))
      (Schedule.sqrt_one_minus_alphas_cumprod (schedule (module_of h)))
      (Some n) = Ok x_prev /\
    ddim_x0 (module_of h) x_t c t g
    = Ok ((x_prev, snd (forward x_t c (t_tensor_of x_t t) NoKwargs)), g').
Proof.
  intros H1 Ht Ln Hq Hnet.
  destruct (build_table_lengths (timesteps h)) as [La Lb].
  destruct (build_nth (timesteps h) t Ht) as (p & Hp & _ & Hbt).
  destruct (build_nth (timesteps h) (t - 1) ltac:(lia))
    as (p' & Hp' & Hat' & Hbt').
  rewrite q_sample_uniform in Hq;
    [ | exact Ln
      | unfold module_of; cbn [schedule]; rewrite La; lia
      | unfold module_of; cbn [schedule]; rewrite Lb; lia ].
  apply (f_equal (fun r => match r with Ok v => v | Raise _ => x_t end))
    in Hq.
  cbv beta iota in Hq. subst x_t.
  set (x_t := zip_with sadd
                (scale (nth t (Schedule.sqrt_alphas_cumprod
                                 (schedule (module_of h))) 0) x0)
                (scale (nth t (Schedule.sqrt_one_minus_alphas_cumprod
                                 (schedule (module_of h))) 0) n)) in *.
  destruct (ddim_x0_general (module_of h) (timesteps h) La Lb x_t c t g
              H1 Ht) as (noise & g' & Er & Hd).
  assert (Lnoise : length noise = length x0).
  { destruct (randn_like_Ok x_t g) as (noise' & g1 & Er' & Ln').
    rewrite Er in Er'. injection Er' as <- <-.
    rewrite Ln'. unfold x_t.
    rewrite zip_with_length, !scale_length. lia. }
  eexists _, g'. split.
  - apply q_sample_uniform;
      [ exact Ln
      | unfold module_of; cbn [schedule]; rewrite La; lia
      | unfold module_of; cbn [schedule]; rewrite Lb; lia ].
  - destruct (forward x_t c (t_tensor_of x_t t) NoKwargs) as [x0p spec].
    change (x0p = x0) in Hnet. subst x0p.
    change (snd (x0, spec)) with spec.
    etransitivity; [exact Hd|]. f_equal. f_equal. f_equal.
    unfold module_of in *; cbn [schedule] in *.
    assert (Hs : sqrt (1 - nth (t - 1)
                     (Schedule.sqrt_alphas_cumprod
                        (Schedule.build (timesteps h))) 0 ^ 2 - 0 ^ 2)
                 = nth (t - 1)
                     (Schedule.sqrt_one_minus_alphas_cumprod
                        (Schedule.build (timesteps h))) 0).
    { rewrite Hat', Hbt'. f_equal. simpl. rewrite !Rmult_1_r.
      rewrite sqrt_sqrt by lra. lra. }
    rewrite Hs. unfold x_t.
    apply ddim_x0_algebra; [exact Ln | exact Lnoise |].
    rewrite Hbt. apply Rgt_not_eq, sqrt_lt_R0. lra.
Qed.

End DdimClaims.

Lemma ddim_terminal_is_extract_x0_witness :
  exists x0,
    @ddim Stub.backend unit
      (module_of (Stub.hparams_of 10 "l1" "ddim")) [Stub.const 1] tt 0 tt
    = Ok ((x0, tt), tt) /\
    @ddim2ddpm Stub.backend unit Stub.generator
      (module_of (Stub.hparams_of 10 "l1" "ddim")) [Stub.const 1] tt 0 tt
    = Ok ((x0, tt), tt).
Proof.
  destruct (@ddim_terminal_is_extract_x0 Stub.backend unit Stub.generator
              (Stub.hparams_of 10 "l1" "ddim") [Stub.const 1] tt tt)
    as (x0 & _ & E1 & E2).
  - simpl. lia.
  - exists x0. split; [exact E1 | exact E2].
Defined.

Lemma ddim_step_follows_forward_process_witness :
  exists x_t x_prev,
    @q_sample (Stub.constant 3) [fun _ => 2] [3%nat]
      (Schedule.sqrt_alphas_cumprod (Schedule.build 10))
      (Schedule.sqrt_one_minus_alphas_cumprod (Schedule.build 10))
      (Some [fun _ => 3]) = Ok x_t /\
    @q_sample (Stub.constant 3) [fun _ => 2] [2%nat]
      (Schedule.sqrt_alphas_cumprod (Schedule.build 10))
      (Schedule.sqrt_one_minus_alphas_cumprod (Schedule.build 10))
      (Some [fun _ => 3]) = Ok x_prev /\
    @ddim (Stub.constant 3) unit
      (module_of (Stub.hparams_of 10 "l1" "ddim")) x_t tt 3 tt
    = Ok ((x_prev, tt), tt).
Proof.
  destruct (build_table_lengths 10) as [La Lb].
  assert (Hq :
    @q_sample (Stub.constant 3) [fun _ => 2] (repeat 3%nat 1)
      (Schedule.sqrt_alphas_cumprod
         (schedule (module_of (Stub.hparams_of 10 "l1" "ddim"))))
      (Schedule.sqrt_one_minus_alphas_cumprod
         (schedule (module_of (Stub.hparams_of 10 "l1" "ddim"))))
      (Some [fun _ => 3])
    = Ok (zip_with sadd
            (scale (nth 3 (Schedule.sqrt_alphas_cumprod
                             (Schedule.build 10)) 0) [fun _ => 2])
            (scale (nth 3 (Schedule.sqrt_one_minus_alphas_cumprod
                             (Schedule.build 10)) 0) [fun _ => 3]))).
  { apply (@q_sample_uniform (Stub.constant 3) [fun _ => 2] [fun _ => 3] 3);
      [reflexivity | |].
    - unfold module_of, Stub.hparams_of; cbn [schedule timesteps].
      rewrite La. lia.
    - unfold module_of, Stub.hparams_of; cbn [schedule timesteps].
      rewrite Lb. lia. }
  destruct (@ddim_step_follows_forward_process (Stub.constant 3) unit
              (Stub.hparams_of 10 "l1" "ddim")
              [fun _ => 2] [fun _ => 3] _ tt 3 tt
              ltac:(lia) ltac:(simpl; lia) eq_refl Hq eq_refl)
    as (x_prev & Eprev & Ed).
  eexists _, x_prev. split; [exact Hq|]. split; [exact Eprev | exact Ed].
Defined.

Lemma ddim_x0_step_follows_forward_process_witness :
  exists x_t x_prev g',
    @q_sample (Stub.constant 2) [fun _ => 2] [3%nat]
      (Schedule.sqrt_alphas_cumprod (Schedule.build 10))
      (Schedule.sqrt_one_minus_alphas_cumprod (Schedule.build 10))
      (Some [fun _ => 3]) = Ok x_t /\
    @q_sample (Stub.constant 2) [fun _ => 2] [2%nat]
      (Schedule.sqrt_alphas_cumprod (Schedule.build 10))
      (Schedule.sqrt_one_minus_alphas_cumprod (Schedule.build 10))
      (Some [fun _ => 3]) = Ok x_prev /\
    @ddim_x0 (Stub.constant 2) unit (Stub.constant_generator 2)
      (module_of (Stub.hparams_of 10 "l1" "ddim_x0")) x_t tt 3 tt
    = Ok ((x_prev, tt), g').
Proof.
  destruct (build_table_lengths 10) as [La Lb].
  assert (Hq :
    @q_sample (Stub.constant 2) [fun _ => 2] (repeat 3%nat 1)
      (Schedule.sqrt_alphas_cumprod
         (schedule (module_of (Stub.hparams_of 10 "l1" "ddim_x0"))))
      (Schedule.sqrt_one_minus_alphas_cumprod
         (schedule (module_of (Stub.hparams_of 10 "l1" "ddim_x0"))))
      (Some [fun _ => 3])
    = Ok (zip_with sadd
            (scale (nth 3 (Schedule.sqrt_alphas_cumprod
                             (Schedule.build 10)) 0) [fun _ => 2])
            (scale (nth 3 (Schedule.sqrt_one_minus_alphas_cumprod
                             (Schedule.build 10)) 0) [fun _ => 3]))).
  { apply (@q_sample_uniform (Stub.constant 2) [fun _ => 2] [fun _ => 3] 3);
      [reflexivity | |].
    - unfold module_of, Stub.hparams_of; cbn [schedule timesteps].
      rewrite La. lia.
    - unfold module_of, Stub.hparams_of; cbn [schedule timesteps].
      rewrite Lb. lia. }
  destruct (@ddim_x0_step_follows_forward_process (Stub.constant 2) unit
              (Stub.constant_generator 2)
              (Stub.hparams_of 10 "l1" "ddim_x0")
              [fun _ => 2] [fun _ => 3] _ tt 3 tt
              ltac:(lia) ltac:(simpl; lia) eq_refl Hq eq_refl)
    as (x_prev & g' & Eprev & Ed).
  eexists _, x_prev, g'.
  split; [exact Hq|]. split; [exact Eprev | exact Ed].
Defined.

(** ** The deterministic integrators *)

Section DdimDeterminism.
Context `{Backend} {G : Type} `{!Generator G}.

Lemma value_determined_ret {A : Type} (a : A) :
  value_determined (G := G) (ret a).
Proof. exists (Ok a). intros g. exists g. reflexivity. Qed.

Lemma value_determined_bind {A B : Type} (m : M G A) (k : A -> M G B) :
  value_determined m -> (forall a, value_determined (k a)) ->
  value_determined (mbind m k).
Proof.
  intros [[a|e] Hm] Hk.
  - destruct (Hk a) as [[b|e] Hr].
    + exists (Ok b). intros g. destruct (Hm g) as (g1 & E).
      destruct (Hr g1) as (g2 & E2). exists g2.
      unfold mbind. now rewrite E.
    + exists (Raise e). intros g. destruct (Hm g) as (g1 & E).
      unfold mbind. rewrite E. apply Hr.
  - exists (Raise e). intros g. unfold mbind. now rewrite (Hm g).
Qed.

Lemma value_determined_lift_bind {A B : Type} (r : result A)
    (k : A -> M G B) :
  (forall a, r = Ok a -> value_determined (k a)) ->
  value_determined (mbind (lift r) k).
Proof.
  intros Hk. destruct r as [a|e].
  - destruct (Hk a eq_refl) as [r Hr]. exists r. exact Hr.
  - exists (Raise e). intros g. reflexivity.
Qed.

Lemma zip_add_zero (s noise : Tensor) :
  length noise = length s -> zip_with sadd s (scale 0 noise) = s.
Proof.
  revert noise; induction s as [|a s IH]; intros [|z noise] L;
    simpl in *; try discriminate; [reflexivity|].
  f_equal.
  - extensionality i. unfold sadd, smul. ring.
  - apply IH. congruence.
Qed.

Lemma x0_posterior_sigma0 (self : module) (x0_pred x : Tensor) (t : nat) :
  length x0_pred = length x ->
  value_determined (G := G) (x0_posterior self 0 x0_pred x t).
Proof.
  intros L. unfold x0_posterior.
  apply value_determined_lift_bind. intros a_prev _.
  apply value_determined_lift_bind. intros a_t _.
  apply value_determined_lift_bind. intros d Ed.
  rewrite tsub_Ok in Ed by (rewrite scale_length; congruence).
  injection Ed as <-.
  apply value_determined_lift_bind. intros b_t _.
  apply value_determined_lift_bind. intros s Es.
  rewrite tadd_Ok in Es
    by (rewrite !scale_length, tdiv_length, scale_length, zip_with_length,
          scale_length; lia).
  assert (Ls : length s = length x).
  { injection Es as <-.
    rewrite zip_with_length, !scale_length, tdiv_length, scale_length,
      zip_with_length, scale_length. lia. }
  exists (Ok s). intros g.
  destruct (randn_like_Ok x g) as (noise & g1 & Er & Ln).
  exists g1. unfold mbind. rewrite Er. unfold lift.
  rewrite tadd_Ok by (rewrite scale_length; congruence).
  rewrite zip_add_zero by congruence. reflexivity.
Qed.

Lemma ddim_x0_update_value (self : module) (x0_pred x : Tensor) (t : nat) :
  length x0_pred = length x ->
  value_determined (G := G) (ddim_x0_update self x0_pred x t).
Proof.
  intros L. unfold ddim_x0_update. destruct (t =? 0)%nat.
  - apply value_determined_lift_bind. intros a_t _.
    apply value_determined_ret.
  - now apply x0_posterior_sigma0.
Qed.

(** The DDIM variants are reproducible at every timestep: [ddim] neither
    reads nor advances the generator, and [ddim_x0] and [cfdg_ddim_x0],
    which still draw noise, return a value that does not depend on it. *)
Theorem ddim_variants_reproducible (self : module) (x : Tensor) (c : Cond)
    (t_index : nat) :
  generator_free (G := G) (ddim self x c t_index) /\
  value_determined (G := G) (ddim_x0 self x c t_index) /\
  value_determined (G := G) (cfdg_ddim_x0 self x c t_index).
Proof.
  split; [|split].
  - unfold ddim.
    destruct (forward x c (t_tensor_of x t_index) NoKwargs) as [eps spec].
    destruct (t_index =? 0)%nat; generator_free_steps.
  - unfold ddim_x0.
    pose proof (forward_shape x c (t_tensor_of x t_index) NoKwargs) as L.
    destruct (forward x c (t_tensor_of x t_index) NoKwargs) as [p spec].
    apply value_determined_bind.
    + now apply ddim_x0_update_value.
    + intros a. apply value_determined_ret.
  - unfold cfdg_ddim_x0.
    pose proof (forward_shape x c (t_tensor_of x t_index) NoKwargs) as L.
    pose proof (forward_shape x (zeros_like c) (t_tensor_of x t_index)
                  NoKwargs) as L0.
    destruct (forward x c (t_tensor_of x t_index) NoKwargs) as [pc spec].
    destruct (forward x (zeros_like c) (t_tensor_of x t_index) NoKwargs)
      as [p0 side0].
    cbn [fst] in L, L0.
    apply value_determined_lift_bind. intros x0_pred Eg.
    rewrite guided_Ok in Eg by congruence. injection Eg as <-.
    apply value_determined_bind.
    + apply ddim_x0_update_value.
      rewrite zip_with_length, !scale_length. lia.
    + intros a. apply value_determined_ret.
Qed.

(** With guidance weight [w = 0], [cfdg_ddim_x0] returns what [ddim_x0]
    returns, for every state, condition, timestep and generator state. *)
Theorem cfdg_ddim_x0_w0 (self : module) :
  sampling_w (hp self) = 0 ->
  forall (x : Tensor) (waveform : Cond) (t_index : nat) (g : G),
    cfdg_ddim_x0 self x waveform t_index g
    = ddim_x0 self x waveform t_index g.
Proof.
  intros Hw x waveform t_index g. unfold cfdg_ddim_x0, ddim_x0.
  pose proof (forward_shape x waveform (t_tensor_of x t_index) NoKwargs)
    as Lc.
  pose proof (forward_shape x (zeros_like waveform) (t_tensor_of x t_index)
                NoKwargs) as L0.
  destruct (forward x waveform (t_tensor_of x t_index) NoKwargs)
    as [x0_pred_c spec].
  destruct (forward x (zeros_like waveform) (t_tensor_of x t_index)
              NoKwargs) as [x0_pred_0 side0].
  simpl in Lc, L0.
  unfold mbind at 1.
  rewrite (guided_w0 self x0_pred_c x0_pred_0 Hw) by congruence.
  reflexivity.
Qed.

End DdimDeterminism.

Lemma cfdg_ddim_x0_w0_witness :
  @cfdg_ddim_x0 Stub.backend unit Stub.generator
    (module_of (Stub.hparams_of 10 "l1" "cfdg_ddim_x0"))
    [Stub.const 0] tt 3 tt
  = @ddim_x0 Stub.backend unit Stub.generator
      (module_of (Stub.hparams_of 10 "l1" "cfdg_ddim_x0"))
      [Stub.const 0] tt 3 tt.
Proof.
  apply (@cfdg_ddim_x0_w0 Stub.backend unit Stub.generator). reflexivity.
Defined.

(** ** Sampling with the configured variants *)

Section SamplingWithVariants.
Context `{Backend} {G : Type} `{!Generator G}.

Lemma sampling_loop_shapes (f : strategy (G := G)) (c : Cond) (n : nat)
    (ts : list nat) :
  (forall x t g, In t ts -> length x = n ->
     exists y side g', f x c t g = Ok ((y, side), g') /\ length y = n) ->
  forall (x : Tensor) (nl : list (Tensor * nat)) (sp : option Side) (g : G),
    length x = n ->
    Forall (fun e => length (fst e) = n) nl ->
    exists x' nl' sp' g',
      sampling_loop f c ts x nl sp g = Ok ((x', nl', sp'), g') /\
      map snd nl' = map snd nl ++ ts /\
      Forall (fun e => length (fst e) = n) nl' /\
      (sp <> None \/ ts <> [] -> sp' <> None).
Proof.
  induction ts as [|t ts IH]; intros Hf x nl sp g Lx Hnl.
  - exists x, nl, sp, g. simpl. rewrite app_nil_r.
    repeat split; auto. intros [Hs|Hs]; congruence.
  - destruct (Hf x t g (or_introl eq_refl) Lx)
      as (y & side & g1 & Ef & Ly).
    destruct (IH (fun x0 t0 g0 Hin => Hf x0 t0 g0 (or_intror Hin))
                y (nl ++ [(y, t)]) (Some side) g1 Ly)
      as (x' & nl' & sp' & g' & E & Hm & Hall & Hs).
    { apply Forall_app. split; [exact Hnl|]. constructor; [exact Ly|].
      constructor. }
    exists x', nl', sp', g'. split; [|split; [|split]].
    + simpl. unfold mbind at 1. rewrite Ef. exact E.
    + rewrite Hm, map_app, <- app_assoc. reflexivity.
    + exact Hall.
    + intros _. apply Hs. left. discriminate.
Qed.

Lemma in_reversed_range (t n : nat) : In t (reversed_range n) -> (t < n)%nat.
Proof.
  unfold reversed_range. rewrite <- in_rev, in_seq. lia.
Qed.

(** With any of the nine variants as strategy (and, for
    [inpainting_ddpm_x0], its two hyper-parameters present),
    [LatentRollDiffusion.sampling] returns for every number of timesteps
    and [SpecRollDiffusion.sampling] returns whenever there are at least
    175 of them; every state in the returned trace has the batch size of
    the input frames. *)
Theorem sampling_with_variant (h : hparams) (v : variant) (b : batch)
    (g : G) :
  (v = Inpainting_ddpm_x0 ->
   exists it i_f, inpainting_t h = Some it /\ inpainting_f h = Some i_f) ->
  (exists noise_list g',
     latent_sampling (reverse_step (module_of h) v) (module_of h) b g
       = Ok ((noise_list, dac_latents b), g') /\
     map snd noise_list = timesteps h :: reversed_range (timesteps h) /\
     Forall (fun e => length (fst e) = length (frame b)) noise_list) /\
  ((fixed_t <= timesteps h)%nat ->
   exists noise_list spec g',
     spec_sampling (reverse_step (module_of h) v) (module_of h) b g
       = Ok ((noise_list, spec), g') /\
     map snd noise_list = fixed_t :: reversed_range fixed_t /\
     Forall (fun e => length (fst e) = length (frame b)) noise_list).
Proof.
  intros Hinp.
  destruct (randn_like_Ok (normalize (frame b)) g) as (n0 & g0 & Er & Ln).
  pose proof (normalize_shape (frame b)) as Hn.
  assert (Ln0 : length n0 = length (frame b)) by congruence.
  split.
  - unfold latent_sampling.
    destruct (sampling_loop_shapes (reverse_step (module_of h) v)
                (if debug (hp (module_of h))
                 then cond_of_roll (normalize (frame b))
                 else dac_latents b)
                (length (frame b))
                (reversed_range (timesteps (hp (module_of h)))))
      with (x := n0) (nl := [(n0, timesteps (hp (module_of h)))])
           (sp := @None Side) (g := g0)
      as (x' & nl' & sp' & g' & E & Hm & Hall & _).
    + intros x t g1 Hin Lx. rewrite <- Lx.
      apply reverse_step_in_range_generic;
        [exact (in_reversed_range _ _ Hin) | exact Hinp].
    + exact Ln0.
    + constructor; [exact Ln0 | constructor].
    + exists nl', g'. split; [|split; [exact Hm | exact Hall]].
      unfold mbind at 1. rewrite Er.
      unfold mbind at 1. rewrite E. reflexivity.
  - intros HT. unfold spec_sampling.
    destruct (build_table_lengths (timesteps h)) as [La Lb].
    assert (Eq : q_sample (normalize (frame b))
                   (repeat (fixed_t - 1)%nat (length (frame b)))
                   (Schedule.sqrt_alphas_cumprod (schedule (module_of h)))
                   (Schedule.sqrt_one_minus_alphas_cumprod
                      (schedule (module_of h)))
                   (Some n0)
                 = Ok (zip_with sadd
                         (scale (nth (fixed_t - 1)
                                   (Schedule.sqrt_alphas_cumprod
                                      (schedule (module_of h))) 0)
                            (normalize (frame b)))
                         (scale (nth (fixed_t - 1)
                                   (Schedule.sqrt_one_minus_alphas_cumprod
                                      (schedule (module_of h))) 0) n0))).
    { rewrite <- Hn. apply q_sample_uniform; [exact Ln | |];
        unfold module_of; cbn [schedule]; unfold fixed_t in *; lia. }
    set (x_t := zip_with sadd _ _) in Eq.
    assert (Lx : length x_t = length (frame b)).
    { unfold x_t. rewrite zip_with_length, !scale_length. lia. }
    destruct (sampling_loop_shapes (reverse_step (module_of h) v)
                (if debug (hp (module_of h))
                 then cond_of_roll (normalize (frame b))
                 else audio b)
                (length (frame b)) (reversed_range fixed_t))
      with (x := x_t) (nl := [(x_t, fixed_t)])
           (sp := @None Side) (g := g0)
      as (x' & nl' & sp' & g' & E & Hm & Hall & Hs).
    + intros x t g1 Hin Lx'. rewrite <- Lx'.
      apply reverse_step_in_range_generic; [|exact Hinp].
      apply in_reversed_range in Hin. lia.
    + exact Lx.
    + constructor; [exact Lx | constructor].
    + assert (Hsp : sp' <> None).
      { apply Hs. right. intros Hnil.
        apply (f_equal (@length nat)) in Hnil.
        rewrite reversed_range_length in Hnil. discriminate Hnil. }
      destruct sp' as [spec|]; [|congruence].
      exists nl', spec, g'. split; [|split; [exact Hm | exact Hall]].
      unfold mbind at 1. rewrite Er.
      unfold mbind at 1. unfold lift at 1. rewrite Eq.
      unfold mbind at 1. fold x_t. rewrite E. reflexivity.
Qed.

End SamplingWithVariants.

Lemma sampling_with_variant_witness :
  exists noise_list g',
    @latent_sampling Stub.backend unit Stub.generator
      (@reverse_step Stub.backend unit Stub.generator
         (module_of (Stub.hparams_of 3 "l1" "ddim")) Ddim)
      (module_of (Stub.hparams_of 3 "l1" "ddim")) Stub.one_frame tt
    = Ok ((noise_list, tt), g') /\
    map snd noise_list = [3; 2; 1; 0]%nat.
Proof.
  destruct (@sampling_with_variant Stub.backend unit Stub.generator
              (Stub.hparams_of 3 "l1" "ddim") Ddim Stub.one_frame tt)
    as [(noise_list & g' & E & Hm & _) _].
  - discriminate.
  - exists noise_list, g'. split; [exact E | exact Hm].
Defined.

(** With fewer than 175 timesteps and a non-empty batch,
    [SpecRollDiffusion.sampling] raises [IndexError] in its forward
    corruption to timestep 174, whatever the strategy is: the strategy is
    never called. *)
Theorem spec_sampling_below_horizon `{Backend} {G : Type} `{!Generator G}
    (f : strategy (G := G)) (h : hparams) (b : batch) (g : G) :
  frame b <> [] ->
  (timesteps h < fixed_t)%nat ->
  spec_sampling f (module_of h) b g = Raise IndexError.
Proof.
  intros Hne HT. unfold spec_sampling.
  destruct (randn_like_Ok (normalize (frame b)) g) as (n0 & g0 & Er & Ln).
  unfold mbind at 1. rewrite Er.
  destruct (build_table_lengths (timesteps h)) as [La Lb].
  assert (Eq : q_sample (normalize (frame b))
                 (repeat (fixed_t - 1)%nat (length (frame b)))
                 (Schedule.sqrt_alphas_cumprod (schedule (module_of h)))
                 (Schedule.sqrt_one_minus_alphas_cumprod
                    (schedule (module_of h)))
                 (Some n0) = Raise IndexError).
  { unfold q_sample. rewrite gather_Raise; [reflexivity|].
    destruct (frame b) as [|s rest]; [congruence|].
    cbn [length repeat]. constructor.
    unfold module_of; cbn [schedule]. rewrite La.
    unfold fixed_t in *. lia. }
  unfold mbind at 1. unfold lift at 1. rewrite Eq. reflexivity.
Qed.

Lemma spec_sampling_below_horizon_witness :
  @spec_sampling Stub.backend unit Stub.generator Stub.keep
    (module_of (Stub.hparams_of 100 "l1" "ddim")) Stub.one_frame tt
  = Raise IndexError.
Proof.
  apply (@spec_sampling_below_horizon Stub.backend unit Stub.generator).
  - discriminate.
  - unfold fixed_t. simpl. lia.
Defined.

(** ** What the extracted notes are *)

Section NotesCollect.
Import Notes.
Local Open Scope nat_scope.

Variables onsets frames : ndarray Z.
Hypothesis frames_nrows : nrows frames = nrows onsets.
Hypothesis frames_ncols : ncols frames = ncols onsets.

(** The [while] loop stops at the first frame at which neither grid is
    set, or at the end of the grid. *)
Lemma note_end_maximal (pitch : nat) :
  pitch < ncols onsets ->
  forall fuel offset,
    offset < nrows onsets -> nrows onsets - offset <= fuel ->
    exists off,
      note_end onsets frames pitch fuel offset = Some (Ok off) /\
      offset <= off <= nrows onsets /\
      (forall k, offset <= k < off ->
         lit onsets k pitch || lit frames k pitch = true) /\
      (off = nrows onsets \/
       lit onsets off pitch || lit frames off pitch = false).
Proof.
  intros Hp. induction fuel as [|fuel IH]; intros offset Ho Hf; [lia|].
  simpl. unfold get.
  rewrite (proj2 (Nat.ltb_lt _ _) Ho), (proj2 (Nat.ltb_lt _ _) Hp). simpl.
  rewrite frames_nrows, frames_ncols.
  rewrite (proj2 (Nat.ltb_lt _ _) Ho), (proj2 (Nat.ltb_lt _ _) Hp). simpl.
  assert (Hnext : forall c : Z, c <> 0%Z ->
    lit onsets offset pitch || lit frames offset pitch = true ->
    exists off,
      (if Z.eqb c 0 then Some (Ok offset)
       else if offset + 1 =? nrows onsets then Some (Ok (offset + 1))
            else note_end onsets frames pitch fuel (offset + 1))
      = Some (Ok off) /\ offset <= off <= nrows onsets /\
      (forall k, offset <= k < off ->
         lit onsets k pitch || lit frames k pitch = true) /\
      (off = nrows onsets \/
       lit onsets off pitch || lit frames off pitch = false)).
  { intros c Hc Hlit. rewrite (proj2 (Z.eqb_neq _ _) Hc).
    destruct (Nat.eqb_spec (offset + 1) (nrows onsets)) as [E|E].
    - exists (offset + 1). split; [reflexivity|]. split; [lia|].
      split; [|left; exact E].
      intros k Hk. assert (k = offset) by lia. subst k. exact Hlit.
    - destruct (IH (offset + 1)) as (off & E1 & B & Hall & Hend);
        [lia | lia |].
      exists off. split; [exact E1|]. split; [lia|]. split; [|exact Hend].
      intros k Hk. destruct (Nat.eq_dec k offset) as [->|Hne];
        [exact Hlit | apply Hall; lia]. }
  unfold lit in *.
  destruct (Z.eqb_spec (at_ onsets offset pitch) 0) as [Eo|Eo];
    cbv beta iota.
  - destruct (Z.eqb_spec (at_ frames offset pitch) 0) as [Ef|Ef].
    + exists offset. split; [reflexivity|]. split; [lia|].
      split; [intros k Hk; lia|]. right.
      rewrite Eo, Ef. reflexivity.
    + destruct (Hnext _ Ef) as (off & E1 & B & Hall & Hend).
      { reflexivity. }
      rewrite (proj2 (Z.eqb_neq _ _) Ef) in E1.
      exists off. auto.
  - destruct (Hnext _ Eo) as (off & E1 & B & Hall & Hend).
    { reflexivity. }
    exists off. auto.
Qed.

(** The loop over the positions keeps every position at which the onset
    grid is set, in order, and pairs it with the end that [note_end]
    finds. *)
Lemma collect_all (Q : nat -> nat -> nat -> Prop)
    (positions : list (nat * nat)) :
  Forall (fun p => exists off,
            note_end onsets frames (snd p) (nrows onsets) (fst p)
              = Some (Ok off) /\
            fst p < off /\ Q (fst p) off (snd p)) positions ->
  forall pitches intervals,
    Forall2 (fun iv p => Q (fst iv) (snd iv) p) intervals pitches ->
    exists pitches' intervals',
      collect onsets frames positions pitches intervals
        = Some (Ok (pitches', intervals')) /\
      Forall2 (fun iv p => Q (fst iv) (snd iv) p) intervals' pitches' /\
      map fst intervals' = map fst intervals ++ map fst positions /\
      pitches' = pitches ++ map snd positions.
Proof.
  induction 1 as [|[frame pitch] positions (off & E & Hlt & HQ) _ IH];
    intros pitches intervals HF; simpl.
  - exists pitches, intervals. rewrite !app_nil_r. auto.
  - simpl in E, Hlt, HQ. rewrite E.
    rewrite (proj2 (Nat.ltb_lt _ _) Hlt).
    destruct (IH (pitches ++ [pitch]) (intervals ++ [(frame, off)]))
      as (ps & ivs & Ec & HF' & Hm & Hp).
    { apply Forall2_app; [exact HF|]. constructor; [exact HQ | constructor]. }
    exists ps, ivs. split; [exact Ec|]. split; [exact HF'|]. split.
    + rewrite Hm, map_app, <- app_assoc. reflexivity.
    + rewrite Hp, <- app_assoc. reflexivity.
Qed.

End NotesCollect.

Section RowMajor.
Import Notes.
Local Open Scope nat_scope.

Lemma filter_pair_map (P : nat * nat -> bool) (i : nat) (js : list nat) :
  filter P (map (pair i) js) = map (pair i) (filter (fun j => P (i, j)) js).
Proof.
  induction js as [|j js IH]; simpl; [reflexivity|].
  destruct (P (i, j)); simpl; now rewrite IH.
Qed.

Lemma nonzero_filter (a : ndarray bool) :
  nonzero a
  = filter (fun p => at_ a (fst p) (snd p)) (row_major (nrows a) (ncols a)).
Proof.
  unfold nonzero, row_major.
  induction (seq 0 (nrows a)) as [|i l IH]; simpl; [reflexivity|].
  rewrite filter_app, filter_pair_map, IH. reflexivity.
Qed.

Lemma in_row_major (n m i j : nat) :
  In (i, j) (row_major n m) -> i < n /\ j < m.
Proof.
  unfold row_major. rewrite in_flat_map. intros (i' & Hi & Hj).
  apply in_map_iff in Hj. destruct Hj as (j' & E & Hj).
  injection E as -> ->. apply in_seq in Hi. apply in_seq in Hj. lia.
Qed.

End RowMajor.

Section NotesMask.
Import Notes.
Local Open Scope nat_scope.
Context {A : Type}.
Variable gtb : A -> A -> bool.
Variables onsets frames : ndarray A.
Variables onset_threshold frame_threshold : A.
Hypothesis frames_nrows : nrows frames = nrows onsets.
Hypothesis frames_ncols : ncols frames = ncols onsets.

(** The mask built from the thresholded grids marks exactly the note
    starts. *)
Lemma onset_mask_note_start (rule : string) :
  rule = "rule1"%string \/ rule = "rule2"%string ->
  exists mask,
    onset_mask (above gtb onset_threshold onsets)
      (above gtb frame_threshold frames) rule = Ok mask /\
    nonzero mask
    = filter (fun p => note_start gtb onsets frames onset_threshold
                         frame_threshold rule (fst p) (snd p))
        (row_major (nrows onsets) (ncols onsets)).
Proof.
  intros Hrule.
  assert (Hrows : Nat.min 1 (nrows onsets) + (nrows onsets - 1)
                  = nrows onsets) by lia.
  assert (Hcat : forall i j, i < nrows onsets -> j < ncols onsets ->
    Z.eqb 1
      (if i <? Nat.min 1 (nrows onsets)
       then (if gtb (at_ onsets i j) onset_threshold then 1 else 0)%Z
       else ((if gtb (at_ onsets
                       (bidx (nrows onsets - 1)
                          (i - Nat.min 1 (nrows onsets)) + 1)
                       (bidx (ncols onsets) j)) onset_threshold
              then 1 else 0)
             - (if gtb (at_ onsets
                          (bidx (nrows onsets - 1)
                             (i - Nat.min 1 (nrows onsets)))
                          (bidx (ncols onsets) j)) onset_threshold
                then 1 else 0))%Z)
    = rising gtb onsets onset_threshold i j).
  { intros i j Hi Hj. unfold rising.
    destruct (Nat.ltb_spec i (Nat.min 1 (nrows onsets))) as [Hlt|Hge].
    - assert (i = 0) by lia. subst i. simpl.
      destruct (gtb (at_ onsets 0 j) onset_threshold); reflexivity.
    - rewrite (bidx_in_range (ncols onsets) j Hj).
      rewrite (bidx_in_range (nrows onsets - 1)) by lia.
      replace (i - Nat.min 1 (nrows onsets) + 1) with i by lia.
      replace (i - Nat.min 1 (nrows onsets)) with (i - 1) by lia.
      rewrite (proj2 (Nat.eqb_neq i 0)) by lia.
      destruct (gtb (at_ onsets i j) onset_threshold);
        destruct (gtb (at_ onsets (i - 1) j) onset_threshold);
        reflexivity. }
  unfold onset_mask, amap2, above, amap, rows_from_1, rows_but_last,
    concatenate0, first_row.
  cbn [nrows ncols at_]. rewrite !bdim_same. cbn [rbind nrows ncols at_].
  rewrite Nat.eqb_refl. cbn [rbind nrows ncols at_].
  destruct Hrule as [-> | ->].
  - cbn [String.eqb Ascii.eqb Bool.eqb].
    rewrite Hrows, frames_nrows, frames_ncols, !bdim_same.
    eexists. split; [reflexivity|].
    rewrite nonzero_filter. cbn [nrows ncols at_].
    apply filter_ext_in. intros [i j] Hin.
    apply in_row_major in Hin. destruct Hin as [Hi Hj].
    cbn [fst snd]. unfold note_start.
    rewrite <- (Hcat i j Hi Hj).
    rewrite !(bidx_in_range (ncols onsets) j Hj).
    rewrite !(bidx_in_range (nrows onsets) i Hi).
    f_equal. cbn [String.eqb Ascii.eqb Bool.eqb orb].
    destruct (gtb (at_ frames i j) frame_threshold); reflexivity.
  - cbn [String.eqb Ascii.eqb Bool.eqb].
    eexists. split; [reflexivity|].
    rewrite nonzero_filter. cbn [nrows ncols at_].
    rewrite Hrows.
    apply filter_ext_in. intros [i j] Hin.
    apply in_row_major in Hin. destruct Hin as [Hi Hj].
    cbn [fst snd]. unfold note_start.
    rewrite <- (Hcat i j Hi Hj).
    cbn [String.eqb Ascii.eqb Bool.eqb orb]. now rewrite andb_true_r.
Qed.

End NotesMask.

Section NotesCharacterisation.
Import Notes.
Local Open Scope nat_scope.
Context {A : Type}.
Variable gtb : A -> A -> bool.

Lemma lit_above (threshold : A) (a : ndarray A) (i j : nat) :
  lit (above gtb threshold a) i j = gtb (at_ a i j) threshold.
Proof.
  unfold lit, above, amap. cbn [at_].
  destruct (gtb (at_ a i j) threshold); reflexivity.
Qed.

Lemma combine_fst_snd {B C : Type} (l : list (B * C)) :
  combine (map fst l) (map snd l) = l.
Proof. induction l as [|[b c] l IH]; simpl; congruence. Qed.

(** Everything the function returns, in one statement. *)
Lemma extract_notes_full (onsets frames : ndarray A)
    (onset_threshold frame_threshold : A) (rule : string) :
  nrows frames = nrows onsets -> ncols frames = ncols onsets ->
  rule = "rule1"%string \/ rule = "rule2"%string ->
  exists pitches intervals,
    extract_notes_wo_velocity gtb onsets frames
      onset_threshold frame_threshold rule
      = Some (Ok (pitches, intervals)) /\
    Forall2
      (fun iv p =>
         fst iv < snd iv <= nrows onsets /\
         (forall k, fst iv <= k < snd iv ->
            sounding gtb onsets frames onset_threshold frame_threshold k p
            = true) /\
         (snd iv = nrows onsets \/
          sounding gtb onsets frames onset_threshold frame_threshold
            (snd iv) p = false))
      intervals pitches /\
    combine (map fst intervals) pitches
    = filter (fun p => note_start gtb onsets frames onset_threshold
                         frame_threshold rule (fst p) (snd p))
        (row_major (nrows onsets) (ncols onsets)).
Proof.
  intros Hn Hm Hrule.
  set (O := above gtb onset_threshold onsets).
  set (F := above gtb frame_threshold frames).
  destruct (onset_mask_note_start gtb onsets frames onset_threshold
              frame_threshold Hn Hm rule Hrule) as (mask & Emask & Hnz).
  fold O F in Emask.
  set (positions := filter _ (row_major (nrows onsets) (ncols onsets)))
    in Hnz.
  set (Q := fun onset off p : nat =>
              onset < off <= nrows onsets /\
              (forall k, onset <= k < off ->
                 sounding gtb onsets frames onset_threshold frame_threshold
                   k p = true) /\
              (off = nrows onsets \/
               sounding gtb onsets frames onset_threshold frame_threshold
                 off p = false)).
  assert (Hall : Forall (fun p => exists off,
             note_end O F (snd p) (nrows O) (fst p) = Some (Ok off) /\
             fst p < off /\ Q (fst p) off (snd p)) positions).
  { apply Forall_forall. intros [i j] Hin. cbn [fst snd].
    unfold positions in Hin. apply filter_In in Hin.
    destruct Hin as [Hin Hstart].
    apply in_row_major in Hin. destruct Hin as [Hi Hj].
    cbn [fst snd] in Hstart. unfold note_start, rising in Hstart.
    apply andb_prop in Hstart. destruct Hstart as [Hris _].
    apply andb_prop in Hris. destruct Hris as [Hon _].
    destruct (note_end_maximal O F Hn Hm j Hj (nrows O) i Hi)
      as (off & E & B & Hsound & Hend); [simpl; lia|].
    destruct (note_end_bounds O F Hn Hm j Hj (nrows O) i Hi)
      as (off' & E' & _ & Hlt); [simpl; lia|].
    rewrite E in E'. injection E' as <-.
    assert (Hio : i < off).
    { apply Hlt. unfold O. simpl. rewrite Hon. discriminate. }
    exists off. split; [exact E|]. split; [exact Hio|].
    unfold Q, sounding. split; [simpl in B; lia|]. split.
    - intros k Hk. specialize (Hsound k Hk).
      unfold O, F in Hsound. now rewrite !lit_above in Hsound.
    - destruct Hend as [Hend|Hend]; [left; exact Hend|right].
      unfold O, F in Hend. now rewrite !lit_above in Hend. }
  destruct (collect_all O F Q positions Hall [] [])
    as (pitches & intervals & Ec & HF & Hmap & Hp); [constructor|].
  exists pitches, intervals.
  rewrite extract_notes_unfold. fold O F. rewrite Emask, Hnz.
  split; [exact Ec|]. split; [exact HF|].
  simpl in Hmap, Hp. rewrite Hmap, Hp. apply combine_fst_snd.
Qed.

End NotesCharacterisation.

(** The notes are exactly the note starts of the grid: listing the
    returned (onset, pitch) pairs gives, in row-major order (by frame, then
    by pitch), every position at which the onset grid rises above its
    threshold (and, under rule1, the frame grid is above its threshold),
    each once. *)
Theorem notes_are_the_note_starts {A : Type} (gtb : A -> A -> bool)
    (onsets frames : Notes.ndarray A) (onset_threshold frame_threshold : A)
    (rule : string) :
  Notes.nrows frames = Notes.nrows onsets ->
  Notes.ncols frames = Notes.ncols onsets ->
  rule = "rule1"%string \/ rule = "rule2"%string ->
  exists pitches intervals,
    Notes.extract_notes_wo_velocity gtb onsets frames
      onset_threshold frame_threshold rule
      = Some (Ok (pitches, intervals)) /\
    length pitches = length intervals /\
    combine (map fst intervals) pitches
    = filter (fun p => note_start gtb onsets frames onset_threshold
                         frame_threshold rule (fst p) (snd p))
        (row_major (Notes.nrows onsets) (Notes.ncols onsets)).
Proof.
  intros Hn Hm Hrule.
  destruct (extract_notes_full gtb onsets frames onset_threshold
              frame_threshold rule Hn Hm Hrule)
    as (pitches & intervals & E & HF & Hc).
  exists pitches, intervals. split; [exact E|]. split; [|exact Hc].
  symmetry. eapply Forall2_length. exact HF.
Qed.

Lemma notes_are_the_note_starts_witness :
  exists pitches intervals,
    Notes.extract_notes_wo_velocity Z.gtb Stub.grid_2x1 Stub.grid_2x1
      0%Z 0%Z "rule1" = Some (Ok (pitches, intervals)) /\
    combine (map fst intervals) pitches
    = filter (fun p => note_start Z.gtb Stub.grid_2x1 Stub.grid_2x1
                         0%Z 0%Z "rule1" (fst p) (snd p))
        (row_major 2 1).
Proof.
  destruct (notes_are_the_note_starts Z.gtb Stub.grid_2x1 Stub.grid_2x1
              0%Z 0%Z "rule1" eq_refl eq_refl (or_introl eq_refl))
    as (pitches & intervals & E & _ & Hc).
  exists pitches, intervals. split; [exact E | exact Hc].
Defined.

(** Every returned interval is a maximal run: one of the two grids is above
    its threshold at every frame from the onset up to the offset, and the
    offset is either the end of the grid or a frame at which neither grid
    is above its threshold. *)
Theorem notes_last_while_sounding {A : Type} (gtb : A -> A -> bool)
    (onsets frames : Notes.ndarray A) (onset_threshold frame_threshold : A)
    (rule : string) :
  Notes.nrows frames = Notes.nrows onsets ->
  Notes.ncols frames = Notes.ncols onsets ->
  rule = "rule1"%string \/ rule = "rule2"%string ->
  exists pitches intervals,
    Notes.extract_notes_wo_velocity gtb onsets frames
      onset_threshold frame_threshold rule
      = Some (Ok (pitches, intervals)) /\
    Forall2
      (fun iv p =>
         (forall k : nat, (fst iv <= k < snd iv)%nat ->
            sounding gtb onsets frames onset_threshold frame_threshold k p
            = true) /\
         (snd iv = Notes.nrows onsets \/
          sounding gtb onsets frames onset_threshold frame_threshold
            (snd iv) p = false))
      intervals pitches.
Proof.
  intros Hn Hm Hrule.
  destruct (extract_notes_full gtb onsets frames onset_threshold
              frame_threshold rule Hn Hm Hrule)
    as (pitches & intervals & E & HF & _).
  exists pitches, intervals. split; [exact E|].
  eapply Forall2_impl; [|exact HF].
  intros iv p (_ & Hs & He). split; assumption.
Qed.

Lemma notes_last_while_sounding_witness :
  exists pitches intervals,
    Notes.extract_notes_wo_velocity Z.gtb Stub.grid_2x1 Stub.grid_2x1
      0%Z 0%Z "rule2" = Some (Ok (pitches, intervals)) /\
    Forall2
      (fun iv p =>
         (forall k : nat, (fst iv <= k < snd iv)%nat ->
            sounding Z.gtb Stub.grid_2x1 Stub.grid_2x1 0%Z 0%Z k p = true) /\
         (snd iv = 2%nat \/
          sounding Z.gtb Stub.grid_2x1 Stub.grid_2x1 0%Z 0%Z (snd iv) p
          = false))
      intervals pitches.
Proof.
  apply (notes_last_while_sounding Z.gtb Stub.grid_2x1 Stub.grid_2x1
           0%Z 0%Z "rule2" eq_refl eq_refl (or_intror eq_refl)).
Defined.

(** When one grid serves as onsets and as frames with one threshold, as in
    every call in [test_step] and [predict_step], the two rules return the
    same notes. *)
Theorem rules_agree_on_one_grid {A : Type} (gtb : A -> A -> bool)
    (grid : Notes.ndarray A) (threshold : A) :
  Notes.extract_notes_wo_velocity gtb grid grid threshold threshold "rule1"
  = Notes.extract_notes_wo_velocity gtb grid grid threshold threshold
      "rule2".
Proof.
  destruct (onset_mask_note_start gtb grid grid threshold threshold
              eq_refl eq_refl "rule1" (or_introl eq_refl))
    as (mask1 & E1 & N1).
  destruct (onset_mask_note_start gtb grid grid threshold threshold
              eq_refl eq_refl "rule2" (or_intror eq_refl))
    as (mask2 & E2 & N2).
  rewrite !extract_notes_unfold, E1, E2, N1, N2.
  f_equal. apply filter_ext. intros [i j]. cbn [fst snd].
  unfold note_start, rising.
  cbn [String.eqb Ascii.eqb Bool.eqb orb].
  destruct (gtb (Notes.at_ grid i j) threshold); simpl;
    [now rewrite !andb_true_r | reflexivity].
Qed.

(** A rule other than ["rule1"] and ["rule2"] raises [NameError] for all
    grids and thresholds, before any note is looked for. *)
Theorem unknown_rule_raises {A : Type} (gtb : A -> A -> bool)
    (onsets frames : Notes.ndarray A) (onset_threshold frame_threshold : A)
    (rule : string) :
  rule <> "rule1"%string -> rule <> "rule2"%string ->
  Notes.extract_notes_wo_velocity gtb onsets frames
    onset_threshold frame_threshold rule = Some (Raise NameError).
Proof.
  intros H1 H2. rewrite extract_notes_unfold.
  unfold Notes.onset_mask, Notes.amap2, Notes.above, Notes.amap,
    Notes.rows_from_1, Notes.rows_but_last, Notes.concatenate0,
    Notes.first_row.
  cbn [Notes.nrows Notes.ncols Notes.at_]. rewrite !bdim_same.
  cbn [rbind Notes.nrows Notes.ncols Notes.at_].
  rewrite Nat.eqb_refl. cbn [rbind].
  rewrite (proj2 (String.eqb_neq _ _) H2), (proj2 (String.eqb_neq _ _) H1).
  reflexivity.
Qed.

Lemma unknown_rule_raises_witness :
  Notes.extract_notes_wo_velocity Z.gtb Stub.grid_2x1 Stub.grid_2x1
    0%Z 0%Z "rule3" = Some (Raise NameError).
Proof.
  apply (unknown_rule_raises Z.gtb Stub.grid_2x1 Stub.grid_2x1 0%Z 0%Z
           "rule3"); discriminate.
Defined.

(** ** MIDI export *)

Section MidiFacts.
Import Midi.
Context {P : Type}.
Variable to_note : P -> Z.

Lemma int_nonneg (q : Q) : (0 <= q)%Q -> int q = Qfloor q.
Proof.
  intros Hq. unfold int, Qfloor. destruct q as [a b]. cbn [Qnum Qden].
  apply Z.quot_div_nonneg; [|reflexivity].
  unfold Qle in Hq. cbn in Hq. lia.
Qed.

Lemma int_monotone (p q : Q) : (0 <= p)%Q -> (p <= q)%Q -> (int p <= int q)%Z.
Proof.
  intros Hp Hpq. rewrite !int_nonneg.
  - now apply Qfloor_resp_le.
  - eapply Qle_trans; eassumption.
  - exact Hp.
Qed.

Lemma int_0_le (q : Q) : (0 <= q)%Q -> (0 <= int q)%Z.
Proof.
  intros Hq. change 0%Z with (int 0). apply int_monotone; [apply Qle_refl|].
  exact Hq.
Qed.

Lemma insert_by_time_length (e : event P) (l : list (event P)) :
  length (insert_by_time e l) = S (length l).
Proof.
  induction l as [|x l IH]; simpl; [reflexivity|].
  destruct (Qle_bool (time e) (time x)); simpl; congruence.
Qed.

Lemma sort_by_time_length (l : list (event P)) :
  length (sort_by_time l) = length l.
Proof.
  induction l as [|e l IH]; simpl; [reflexivity|].
  now rewrite insert_by_time_length, IH.
Qed.

Lemma insert_by_time_Forall (Q0 : event P -> Prop) (e : event P)
    (l : list (event P)) :
  Q0 e -> Forall Q0 l -> Forall Q0 (insert_by_time e l).
Proof.
  intros He Hl. induction Hl as [|x l Hx Hl IH]; simpl.
  - constructor; [exact He | constructor].
  - destruct (Qle_bool (time e) (time x)).
    + constructor; [exact He|]. constructor; assumption.
    + constructor; assumption.
Qed.

Lemma sort_by_time_Forall (Q0 : event P -> Prop) (l : list (event P)) :
  Forall Q0 l -> Forall Q0 (sort_by_time l).
Proof.
  induction 1 as [|e l He Hl IH]; simpl; [constructor|].
  now apply insert_by_time_Forall.
Qed.

Lemma insert_by_time_sorted (e : event P) (l : list (event P)) :
  StronglySorted by_time l -> StronglySorted by_time (insert_by_time e l).
Proof.
  induction 1 as [|x l Hs IH Hx]; simpl.
  - constructor; constructor.
  - destruct (Qle_bool (time e) (time x)) eqn:E.
    + apply Qle_bool_iff in E. constructor.
      * constructor; assumption.
      * constructor; [exact E|].
        eapply Forall_impl; [|exact Hx].
        intros y Hy. unfold by_time in *. eapply Qle_trans; eassumption.
    + assert (Hlt : (time x <= time e)%Q).
      { destruct (Qlt_le_dec (time x) (time e)) as [H|H];
          [now apply Qlt_le_weak|].
        apply Qle_bool_iff in H. congruence. }
      constructor; [exact IH|].
      apply insert_by_time_Forall; assumption.
Qed.

Lemma sort_by_time_sorted (l : list (event P)) :
  StronglySorted by_time (sort_by_time l).
Proof.
  induction l as [|e l IH]; simpl; [constructor|].
  now apply insert_by_time_sorted.
Qed.

Lemma Message_Ok (k : kind) (note vel tm : Z) :
  (0 <= note <= 127)%Z -> (0 <= vel <= 127)%Z ->
  Message k note vel tm
  = Ok {| msg_type := k; msg_note := note; msg_velocity := vel;
          msg_time := tm |}.
Proof.
  intros Hn Hv. unfold Message.
  rewrite (proj2 (Z.leb_le 0 note)) by lia.
  rewrite (proj2 (Z.leb_le note 127)) by lia.
  rewrite (proj2 (Z.leb_le 0 vel)) by lia.
  rewrite (proj2 (Z.leb_le vel 127)) by lia.
  reflexivity.
Qed.

Lemma messages_bounds (tps : Q) (events : list (event P)) :
  (0 <= tps)%Q ->
  StronglySorted by_time events ->
  Forall (fun e => (0 <= time e)%Q /\ (0 <= velocity e)%Q
                   /\ (0 <= to_note (pitch e) <= 127)%Z) events ->
  forall last : Z,
    Forall (fun e => (last <= int (time e * tps))%Z) events ->
    exists track,
      messages to_note tps last events = Ok track /\
      length track = length events /\
      Forall (fun m => (0 <= msg_time m)%Z
                       /\ (0 <= msg_velocity m <= 127)%Z
                       /\ (0 <= msg_note m <= 127)%Z) track.
Proof.
  intros Htps Hs. induction Hs as [|e l Hs IH He]; intros Hpos last Hlast.
  { exists []. repeat split; constructor. }
  inversion Hpos as [|? ? (Ht & Hv & Hn) Hpos']; subst.
  inversion Hlast as [|? ? Hl0 Hlast']; subst.
  assert (Hv0 : (0 <= int (velocity e * inject_Z 127))%Z).
  { apply int_0_le. apply Qmult_le_0_compat; [exact Hv|]. discriminate. }
  set (vel := if (127 <? int (velocity e * inject_Z 127))%Z then 127%Z
              else int (velocity e * inject_Z 127)).
  assert (Hvel : (0 <= vel <= 127)%Z).
  { unfold vel.
    destruct (Z.ltb_spec 127 (int (velocity e * inject_Z 127))); lia. }
  destruct (IH Hpos' (int (time e * tps))) as (track & E & L & Hb).
  { rewrite Forall_forall in He, Hpos'. apply Forall_forall. intros y Hy.
    apply int_monotone.
    + apply Qmult_le_0_compat; assumption.
    + apply Qmult_le_compat_r; [exact (He y Hy) | exact Htps]. }
  eexists. split; [|split].
  - cbn [messages]. fold vel.
    rewrite (Message_Ok _ _ _ _ Hn Hvel). cbn [rbind].
    rewrite E. cbn [rbind]. reflexivity.
  - simpl. now rewrite L.
  - constructor; [|exact Hb].
    cbn [msg_time msg_velocity msg_note]. repeat split; lia.
Qed.

Lemma collect_events_Ok (pitches : list P) (intervals : list (Q * Q))
    (velocities : list Q) (d : P) (indices : list nat) :
  (length pitches <= length intervals)%nat ->
  (length pitches <= length velocities)%nat ->
  Forall (fun i => (i < length pitches)%nat) indices ->
  forall events,
    collect_events pitches intervals velocities indices events
    = Ok (events ++
          flat_map
            (fun i =>
               [ {| type := On; pitch := nth i pitches d;
                    time := fst (nth i intervals (0, 0)%Q);
                    velocity := nth i velocities 0%Q |};
                 {| type := Off; pitch := nth i pitches d;
                    time := snd (nth i intervals (0, 0)%Q);
                    velocity := nth i velocities 0%Q |} ])
            indices).
Proof.
  intros Li Lv. induction 1 as [|i indices Hi _ IH]; intros events; simpl.
  - now rewrite app_nil_r.
  - rewrite (index_nth pitches i d Hi).
    rewrite (index_nth intervals i (0, 0)%Q) by lia.
    rewrite (index_nth velocities i 0%Q) by lia.
    cbn [rbind]. rewrite IH, <- app_assoc. reflexivity.
Qed.

Lemma collect_events_short (pitches : list P) (intervals : list (Q * Q))
    (velocities : list Q) :
  (length intervals < length pitches)%nat
  \/ (length velocities < length pitches)%nat ->
  forall (k : nat) events,
    (k <= length intervals)%nat -> (k <= length velocities)%nat ->
    collect_events pitches intervals velocities
      (seq k (length pitches - k)) events = Raise IndexError.
Proof.
  intros Hshort k. remember (length pitches - k)%nat as n eqn:En.
  revert k En. induction n as [|n IH]; intros k En events Hki Hkv.
  - lia.
  - simpl. destruct (index pitches k) as [p|e] eqn:Ep;
      [|unfold index in Ep; destruct (nth_error pitches k);
        [discriminate | injection Ep as <-; reflexivity]].
    cbn [rbind].
    destruct (Nat.eq_dec k (length intervals)) as [Ei|Ei].
    { rewrite (index_out intervals k) by lia. reflexivity. }
    rewrite (index_nth intervals k (0, 0)%Q) by lia. cbn [rbind].
    destruct (Nat.eq_dec k (length velocities)) as [Ev|Ev].
    { rewrite (index_out velocities k) by lia. reflexivity. }
    rewrite (index_nth velocities k 0%Q) by lia. cbn [rbind].
    apply IH; lia.
Qed.

Lemma insert_by_time_Exists (Q0 : event P -> Prop) (e : event P)
    (l : list (event P)) :
  Q0 e \/ Exists Q0 l -> Exists Q0 (insert_by_time e l).
Proof.
  induction l as [|x l IH]; simpl; intros Hq.
  - destruct Hq as [He | Hl]; [now constructor | inversion Hl].
  - destruct (Qle_bool (time e) (time x)).
    + destruct Hq as [He | Hl];
        [now apply Exists_cons_hd | now apply Exists_cons_tl].
    + destruct Hq as [He | Hl].
      * apply Exists_cons_tl. apply IH. now left.
      * inversion Hl; subst.
        -- now apply Exists_cons_hd.
        -- apply Exists_cons_tl. apply IH. now right.
Qed.

Lemma sort_by_time_Exists (Q0 : event P -> Prop) (l : list (event P)) :
  Exists Q0 l -> Exists Q0 (sort_by_time l).
Proof.
  induction 1 as [e l He | e l Hl IH]; simpl;
    apply insert_by_time_Exists; [now left | now right].
Qed.

Lemma Message_refused (k : kind) (note vel tm : Z) :
  ~ (0 <= note <= 127)%Z -> Message k note vel tm = Raise ValueError.
Proof.
  intros Hn. unfold Message.
  destruct (Z.leb_spec 0 note); [|reflexivity].
  destruct (Z.leb_spec note 127); [lia | reflexivity].
Qed.

Lemma Message_cases (k : kind) (note vel tm : Z) :
  (exists m, Message k note vel tm = Ok m)
  \/ Message k note vel tm = Raise ValueError.
Proof.
  unfold Message.
  destruct ((0 <=? note) && (note <=? 127)
            && (0 <=? vel) && (vel <=? 127))%Z;
    [left; eexists; reflexivity | right; reflexivity].
Qed.

Lemma messages_refused (tps : Q) (events : list (event P)) :
  Exists (fun e => ~ (0 <= to_note (pitch e) <= 127)%Z) events ->
  forall last : Z, messages to_note tps last events = Raise ValueError.
Proof.
  induction 1 as [e l He | e l Hl IH]; intros last; cbn [messages].
  - now rewrite (Message_refused _ _ _ _ He).
  - destruct (Message_cases (type e) (to_note (pitch e))
                (if (127 <? int (velocity e * inject_Z 127))%Z then 127%Z
                 else int (velocity e * inject_Z 127))
                (int (time e * tps) - last)%Z) as [(m & E) | E];
      rewrite E; cbn [rbind]; [|reflexivity].
    now rewrite IH.
Qed.

End MidiFacts.

Section MidiClaims.
Import Midi.
Context {P : Type}.
Variable to_note : P -> Z.
Variable ticks_per_beat : Z.

(** For notes with non-negative times and velocities whose pitches convert
    to MIDI notes in 0..127, [save_midi] builds its track: two messages per
    note, every delta time non-negative (the events are emitted in time
    order), and every velocity and every note in 0..127. *)
Theorem save_midi_track (pitches : list P) (intervals : list (Q * Q))
    (velocities : list Q) :
  (length pitches <= length intervals)%nat ->
  (length pitches <= length velocities)%nat ->
  (0 <= ticks_per_beat)%Z ->
  Forall (fun iv => (0 <= fst iv)%Q /\ (0 <= snd iv)%Q) intervals ->
  Forall (fun v => (0 <= v)%Q) velocities ->
  Forall (fun p => (0 <= to_note p <= 127)%Z) pitches ->
  exists track,
    save_midi to_note ticks_per_beat pitches intervals velocities
      = Ok track /\
    length track = (2 * length pitches)%nat /\
    Forall (fun m => (0 <= msg_time m)%Z
                     /\ (0 <= msg_velocity m <= 127)%Z
                     /\ (0 <= msg_note m <= 127)%Z) track.
Proof.
  intros Li Lv Htpb Hiv Hvel Hnote. unfold save_midi.
  destruct pitches as [|d rest] eqn:Ep.
  { exists []. simpl. repeat split; constructor. }
  rewrite <- Ep in *. clear Ep rest.
  rewrite (collect_events_Ok pitches intervals velocities d) with (events := [])
    by (try assumption; apply Forall_forall; intros i Hi;
        apply in_seq in Hi; lia).
  cbn [rbind app].
  set (events := flat_map _ _).
  assert (Htps : (0 <= inject_Z ticks_per_beat * inject_Z 2)%Q).
  { apply Qmult_le_0_compat; [|discriminate].
    change 0%Q with (inject_Z 0). now rewrite <- Zle_Qle. }
  assert (Hev : Forall (fun e => (0 <= time e)%Q /\ (0 <= velocity e)%Q
                                 /\ (0 <= to_note (pitch e) <= 127)%Z)
                  events).
  { unfold events. apply Forall_flat_map. apply Forall_forall.
    intros i Hi. apply in_seq in Hi.
    assert (Hi1 : (0 <= fst (nth i intervals (0, 0)%Q))%Q
                  /\ (0 <= snd (nth i intervals (0, 0)%Q))%Q).
    { rewrite Forall_forall in Hiv. apply Hiv. apply nth_In. lia. }
    assert (Hi2 : (0 <= nth i velocities 0%Q)%Q).
    { rewrite Forall_forall in Hvel. apply Hvel. apply nth_In. lia. }
    assert (Hi3 : (0 <= to_note (nth i pitches d) <= 127)%Z).
    { rewrite Forall_forall in Hnote. apply Hnote. apply nth_In. lia. }
    destruct Hi1 as [Hon Hoff].
    repeat constructor; cbn [time velocity pitch]; try assumption; lia. }
  assert (Llen : length events = (2 * length pitches)%nat).
  { unfold events.
    assert (Hgen : forall n k,
      length (flat_map
                (fun i =>
                   [ {| type := On; pitch := nth i pitches d;
                        time := fst (nth i intervals (0, 0)%Q);
                        velocity := nth i velocities 0%Q |};
                     {| type := Off; pitch := nth i pitches d;
                        time := snd (nth i intervals (0, 0)%Q);
                        velocity := nth i velocities 0%Q |} ])
                (seq k n)) = (n + n)%nat).
    { induction n as [|n IH]; intros k; simpl; [reflexivity|].
      rewrite IH. lia. }
    rewrite Hgen. lia. }
  destruct (messages_bounds to_note
              (inject_Z ticks_per_beat * inject_Z 2)%Q
              (sort_by_time events) Htps (sort_by_time_sorted events)
              (sort_by_time_Forall _ events Hev) 0%Z)
    as (track & E & L & Hb).
  { apply sort_by_time_Forall.
    eapply Forall_impl; [|exact Hev].
    intros e (Ht & _). apply int_0_le.
    apply Qmult_le_0_compat; assumption. }
  exists track. split; [exact E|]. split; [|exact Hb].
  now rewrite L, sort_by_time_length.
Qed.

(** When [intervals] or [velocities] has fewer entries than [pitches],
    [save_midi] raises [IndexError] and writes nothing. *)
Theorem save_midi_short_input (pitches : list P) (intervals : list (Q * Q))
    (velocities : list Q) :
  (length intervals < length pitches)%nat
  \/ (length velocities < length pitches)%nat ->
  save_midi to_note ticks_per_beat pitches intervals velocities
  = Raise IndexError.
Proof.
  intros Hshort. unfold save_midi.
  pose proof (collect_events_short pitches intervals velocities Hshort
                0%nat [] ltac:(lia) ltac:(lia)) as E.
  rewrite Nat.sub_0_r in E. rewrite E. reflexivity.
Qed.

(** With enough intervals and velocities, a pitch that converts to a MIDI
    note outside 0..127 makes [save_midi] raise [ValueError] when its
    message is built, whatever the other notes are: no track is saved. *)
Theorem save_midi_note_out_of_range (pitches : list P)
    (intervals : list (Q * Q)) (velocities : list Q) :
  (length pitches <= length intervals)%nat ->
  (length pitches <= length velocities)%nat ->
  Exists (fun p => ~ (0 <= to_note p <= 127)%Z) pitches ->
  save_midi to_note ticks_per_beat pitches intervals velocities
  = Raise ValueError.
Proof.
  intros Li Lv Hbad. unfold save_midi.
  destruct pitches as [|d rest] eqn:Ep; [inversion Hbad|].
  rewrite <- Ep in *. clear Ep rest.
  rewrite (collect_events_Ok pitches intervals velocities d) with (events := [])
    by (try assumption; apply Forall_forall; intros i Hi;
        apply in_seq in Hi; lia).
  cbn [rbind app].
  apply messages_refused, sort_by_time_Exists.
  apply Exists_exists in Hbad. destruct Hbad as (p & Hin & Hp).
  destruct (In_nth pitches p d Hin) as (i & Hi & Enth).
  apply Exists_exists.
  exists {| type := On; pitch := nth i pitches d;
            time := fst (nth i intervals (0, 0)%Q);
            velocity := nth i velocities 0%Q |}.
  split.
  - apply in_flat_map. exists i. split; [apply in_seq; lia | now left].
  - cbn [pitch]. now rewrite Enth.
Qed.

End MidiClaims.

Lemma save_midi_track_witness :
  exists track,
    Midi.save_midi (fun p : Z => p) 480 [60%Z; 62%Z]
      [((1 # 2)%Q, 1%Q); (0%Q, (3 # 2)%Q)] [127%Q; 127%Q] = Ok track /\
    length track = 4%nat /\
    Forall (fun m => (0 <= Midi.msg_time m)%Z
                     /\ (0 <= Midi.msg_velocity m <= 127)%Z
                     /\ (0 <= Midi.msg_note m <= 127)%Z) track.
Proof.
  apply (save_midi_track (fun p : Z => p) 480 [60%Z; 62%Z]
           [((1 # 2)%Q, 1%Q); (0%Q, (3 # 2)%Q)] [127%Q; 127%Q]).
  - simpl. lia.
  - simpl. lia.
  - lia.
  - repeat constructor; discriminate.
  - repeat constructor; discriminate.
  - repeat constructor; lia.
Defined.

Lemma save_midi_short_input_witness :
  Midi.save_midi (fun p : Z => p) 480 [60%Z; 62%Z]
    [((1 # 2)%Q, 1%Q)] [127%Q; 127%Q] = Raise IndexError.
Proof.
  apply (save_midi_short_input (fun p : Z => p) 480). left. simpl. lia.
Defined.

Lemma save_midi_note_out_of_range_witness :
  Midi.save_midi (fun p : Z => p) 480 [60%Z; 200%Z]
    [((1 # 2)%Q, 1%Q); (0%Q, (3 # 2)%Q)] [127%Q; 127%Q]
  = Raise ValueError.
Proof.
  apply (save_midi_note_out_of_range (fun p : Z => p) 480).
  - simpl. lia.
  - simpl. lia.
  - apply Exists_cons_tl, Exists_cons_hd. lia.
Defined.

(** ** The training step *)

Section TrainingStep.
Context `{Backend} {G : Type} `{!Generator G} `{!IntGenerator G}.

Lemma q_sample_then_extract_x0 (x0 n : Tensor) (t : list nat)
    (ca cb : list R) :
  length t = length x0 ->
  length n = length x0 ->
  Forall (fun i => (i < length ca)%nat) t ->
  Forall (fun i => (i < length cb)%nat) t ->
  Forall (fun i => nth i ca 0 <> 0) t ->
  exists x_t,
    q_sample x0 t ca cb (Some n) = Ok x_t /\
    length x_t = length x0 /\
    extract_x0 x_t n t ca cb = Ok x0.
Proof.
  intros Et En Ha Hb Hnz.
  set (va := map (fun i => nth i ca 0) t).
  set (vb := map (fun i => nth i cb 0) t).
  assert (Eva : length va = length x0) by (unfold va; now rewrite length_map).
  assert (Evb : length vb = length x0) by (unfold vb; now rewrite length_map).
  exists (zip_with sadd (zip_with smul va x0) (zip_with smul vb n)).
  unfold q_sample, extract_x0, tadd, tsub.
  rewrite (gather_Ok _ _ Ha), (gather_Ok _ _ Hb). fold va vb. simpl.
  rewrite (broadcast2_same_length smul va x0) by lia. simpl.
  rewrite (broadcast2_same_length smul vb n) by lia. simpl.
  rewrite broadcast2_same_length by (rewrite !zip_with_length; lia).
  split; [reflexivity|].
  split; [rewrite !zip_with_length; lia|]. simpl.
  rewrite broadcast2_same_length by (rewrite !zip_with_length; lia).
  simpl.
  rewrite broadcast2_same_length by (rewrite !zip_with_length; lia).
  f_equal. apply zip_round_trip; auto.
  unfold va. apply Forall_map. exact Hnz.
Qed.

Lemma q_sample_length (x0 n x_t : Tensor) (t : list nat) (ca cb : list R) :
  length t = length x0 ->
  length n = length x0 ->
  q_sample x0 t ca cb (Some n) = Ok x_t ->
  length x_t = length x0.
Proof.
  intros Et En. unfold q_sample, tadd.
  destruct (gather ca t) as [va|] eqn:Ega; [|discriminate].
  destruct (gather cb t) as [vb|] eqn:Egb; [|discriminate].
  apply gather_length in Ega, Egb. cbn [rbind].
  rewrite (broadcast2_same_length smul va x0) by lia. cbn [rbind].
  rewrite (broadcast2_same_length smul vb n) by lia. cbn [rbind].
  rewrite broadcast2_same_length by (rewrite !zip_with_length; lia).
  intros E. injection E as <-. rewrite !zip_with_length. lia.
Qed.

(** What [step] has done when it reaches the test of the training mode. *)
Lemma latent_step_prefix (self : module) (b : batch) (g : G) :
  schedule self = Schedule.build (timesteps (hp self)) ->
  (1 <= timesteps (hp self))%nat ->
  exists t noise x_t g1 g2,
    length t = length (frame b) /\
    randn_like (normalize (frame b)) g1 = Ok (noise, g2) /\
    q_sample (normalize (frame b)) t
      (Schedule.sqrt_alphas_cumprod (schedule self))
      (Schedule.sqrt_one_minus_alphas_cumprod (schedule self))
      (Some noise) = Ok x_t /\
    length x_t = length (frame b) /\
    extract_x0 x_t noise t
      (Schedule.sqrt_alphas_cumprod (schedule self))
      (Schedule.sqrt_one_minus_alphas_cumprod (schedule self))
      = Ok (normalize (frame b)) /\
    forall mode,
      latent_step self mode b g =
      (if String.eqb mode "epsilon" then
         let '(epsilon_pred, latent_features) :=
           forward x_t
             (if debug (hp self) then cond_of_roll (normalize (frame b))
              else dac_latents b) t NoKwargs in
         diffusion_loss <-
           lift (p_losses noise epsilon_pred (loss_type (hp self))) ;;
         pred_roll <-
           lift (extract_x0 x_t epsilon_pred t
                   (Schedule.sqrt_alphas_cumprod (schedule self))
                   (Schedule.sqrt_one_minus_alphas_cumprod (schedule self))) ;;
         ret (diffusion_loss,
              (pred_roll, normalize (frame b), latent_features))
       else if String.eqb mode "x_0" then
         let '(pred_roll, latent_features) :=
           forward x_t (dac_latents b) t NoKwargs in
         diffusion_loss <-
           lift (p_losses (normalize (frame b)) pred_roll
                   (loss_type (hp self))) ;;
         ret (diffusion_loss,
              (pred_roll, normalize (frame b), latent_features))
       else lift (Raise NameError)) g2.
Proof.
  intros Hs HT.
  destruct (randint g (timesteps (hp self)) (length (frame b)))
    as [t g1] eqn:Er.
  pose proof (randint_length g (timesteps (hp self)) (length (frame b)))
    as Lt.
  pose proof (randint_range g (timesteps (hp self)) (length (frame b))
                ltac:(lia)) as Rt.
  rewrite Er in Lt, Rt. cbn [fst] in Lt, Rt.
  destruct (randn_like_Ok (normalize (frame b)) g1)
    as (noise & g2 & En & Ln).
  rewrite normalize_shape in Ln.
  destruct (build_lengths (timesteps (hp self)))
    as (_ & _ & _ & La & Lb & _).
  cbv zeta in La, Lb. rewrite <- Hs in La, Lb.
  destruct (q_sample_then_extract_x0 (normalize (frame b)) noise t
              (Schedule.sqrt_alphas_cumprod (schedule self))
              (Schedule.sqrt_one_minus_alphas_cumprod (schedule self)))
    as (x_t & Eq & Lx & Ex).
  - now rewrite normalize_shape.
  - now rewrite normalize_shape.
  - now rewrite La.
  - now rewrite Lb.
  - eapply Forall_impl; [|exact Rt]. intros i Hi. cbv beta in *.
    rewrite Hs.
    destruct (build_nth (timesteps (hp self)) i Hi) as (p & Hp & Ea & _).
    rewrite Ea. apply Rgt_not_eq, sqrt_lt_R0. lra.
  - rewrite normalize_shape in Lx.
    exists t, noise, x_t, g1, g2.
    repeat split; try assumption.
    intros mode. unfold latent_step.
    unfold mbind at 1. unfold torch_randint.
    destruct (timesteps (hp self) =? 0)%nat eqn:E0;
      [apply Nat.eqb_eq in E0; lia|].
    rewrite Er.
    unfold mbind at 1. rewrite En.
    rewrite (mbind_lift_Ok _ x_t) by exact Eq.
    reflexivity.
Qed.

Lemma p_losses_recognised (label prediction : Tensor) (loss_type : string) :
  recognised_loss loss_type ->
  exists loss, p_losses label prediction loss_type = Ok loss.
Proof.
  intros [-> | [-> | ->]]; eexists; reflexivity.
Qed.

Lemma p_losses_unrecognised (label prediction : Tensor)
    (loss_type : string) :
  ~ recognised_loss loss_type ->
  p_losses label prediction loss_type = Raise NotImplementedError.
Proof.
  intros Hn. unfold p_losses, recognised_loss in *.
  destruct (String.eqb_spec loss_type "l1"); [tauto|].
  destruct (String.eqb_spec loss_type "l2"); [tauto|].
  destruct (String.eqb_spec loss_type "huber"); [tauto|].
  reflexivity.
Qed.

(** With at least one timestep, the cosine schedule, a training mode of
    ['epsilon'] or ['x_0'] and a recognised loss type, one training step
    returns: the label is the normalised frame of the batch and the
    predicted roll has the batch size of the frame. *)
Theorem latent_step_returns (self : module) (mode : string) (b : batch)
    (g : G) :
  schedule self = Schedule.build (timesteps (hp self)) ->
  (1 <= timesteps (hp self))%nat ->
  mode = "epsilon"%string \/ mode = "x_0"%string ->
  recognised_loss (loss_type (hp self)) ->
  exists loss pred_roll side g',
    latent_step self mode b g
      = Ok ((loss, (pred_roll, normalize (frame b), side)), g') /\
    length pred_roll = length (frame b).
Proof.
  intros Hs HT Hmode Hloss.
  destruct (latent_step_prefix self b g Hs HT)
    as (t & noise & x_t & g1 & g2 & Lt & En & Eq & Lx & Ex & Estep).
  rewrite Estep.
  destruct (build_lengths (timesteps (hp self)))
    as (_ & _ & _ & La & Lb & _).
  cbv zeta in La, Lb. rewrite <- Hs in La, Lb.
  destruct Hmode as [-> | ->]; cbn [String.eqb Ascii.eqb Bool.eqb].
  - destruct (forward x_t _ t NoKwargs) as [eps side] eqn:Ef.
    pose proof (forward_shape x_t
      (if debug (hp self) then cond_of_roll (normalize (frame b))
       else dac_latents b) t NoKwargs) as Ls.
    rewrite Ef in Ls. cbn [fst] in Ls.
    destruct (p_losses_recognised noise eps _ Hloss) as (loss & El).
    rewrite (mbind_lift_Ok _ loss) by exact El.
    assert (Hex : exists pred,
      extract_x0 x_t eps t (Schedule.sqrt_alphas_cumprod (schedule self))
        (Schedule.sqrt_one_minus_alphas_cumprod (schedule self)) = Ok pred
      /\ length pred = length (frame b)).
    { unfold extract_x0 in *.
      destruct (gather (Schedule.sqrt_alphas_cumprod (schedule self)) t)
        as [va|] eqn:Ega; [|discriminate].
      destruct (gather (Schedule.sqrt_one_minus_alphas_cumprod
                          (schedule self)) t)
        as [vb|] eqn:Egb; [|discriminate].
      apply gather_length in Ega, Egb. cbn [rbind].
      rewrite (broadcast2_same_length smul vb eps) by lia. cbn [rbind].
      unfold tsub.
      rewrite broadcast2_same_length by (rewrite zip_with_length; lia).
      cbn [rbind].
      rewrite broadcast2_same_length by (rewrite !zip_with_length; lia).
      eexists. split; [reflexivity|]. rewrite !zip_with_length. lia. }
    destruct Hex as (pred & Ep & Lp).
    rewrite (mbind_lift_Ok _ pred) by exact Ep.
    exists loss, pred, side, g2. split; [reflexivity | exact Lp].
  - destruct (forward x_t (dac_latents b) t NoKwargs) as [pred side] eqn:Ef.
    pose proof (forward_shape x_t (dac_latents b) t NoKwargs) as Ls.
    rewrite Ef in Ls. cbn [fst] in Ls.
    destruct (p_losses_recognised (normalize (frame b)) pred _ Hloss)
      as (loss & El).
    rewrite (mbind_lift_Ok _ loss) by exact El.
    exists loss, pred, side, g2. split; [reflexivity | lia].
Qed.

(** How one training step fails.  With no timestep at all the draw of the
    timesteps raises [RuntimeError].  With at least one timestep and the
    cosine schedule, a training mode other than ['epsilon'] and ['x_0']
    leaves [diffusion_loss] unbound, so building the result raises
    [NameError]; and in either of the two modes a loss type that is not
    recognised raises [NotImplementedError]. *)
Theorem latent_step_failures (self : module) (mode : string) (b : batch)
    (g : G) :
  schedule self = Schedule.build (timesteps (hp self)) ->
  (timesteps (hp self) = 0%nat ->
   latent_step self mode b g = Raise RuntimeError) /\
  ((1 <= timesteps (hp self))%nat ->
   mode <> "epsilon"%string -> mode <> "x_0"%string ->
   latent_step self mode b g = Raise NameError) /\
  ((1 <= timesteps (hp self))%nat ->
   mode = "epsilon"%string \/ mode = "x_0"%string ->
   ~ recognised_loss (loss_type (hp self)) ->
   latent_step self mode b g = Raise NotImplementedError).
Proof.
  intros Hs. split; [|split].
  - intros E0. unfold latent_step. unfold mbind at 1.
    unfold torch_randint. rewrite E0. reflexivity.
  - intros HT Hne Hnx.
    destruct (latent_step_prefix self b g Hs HT)
      as (t & noise & x_t & g1 & g2 & _ & _ & _ & _ & _ & Estep).
    rewrite Estep.
    destruct (String.eqb_spec mode "epsilon"); [contradiction|].
    destruct (String.eqb_spec mode "x_0"); [contradiction|].
    reflexivity.
  - intros HT Hmode Hloss.
    destruct (latent_step_prefix self b g Hs HT)
      as (t & noise & x_t & g1 & g2 & _ & _ & _ & _ & _ & Estep).
    rewrite Estep.
    destruct Hmode as [-> | ->]; cbn [String.eqb Ascii.eqb Bool.eqb].
    + destruct (forward x_t _ t NoKwargs) as [eps side].
      apply mbind_lift_Raise. now apply p_losses_unrecognised.
    + destruct (forward x_t (dac_latents b) t NoKwargs) as [pred side].
      apply mbind_lift_Raise. now apply p_losses_unrecognised.
Qed.

(** In ['epsilon'] mode, when the network returns exactly the noise that
    the step injected, the predicted roll of the step is the label roll:
    the normalised frame of the batch. *)
Theorem latent_step_exact_noise (self : module) (b : batch) (g : G) :
  schedule self = Schedule.build (timesteps (hp self)) ->
  (1 <= timesteps (hp self))%nat ->
  recognised_loss (loss_type (hp self)) ->
  (forall t g1 noise g2 x_t,
     length t = length (frame b) ->
     randn_like (normalize (frame b)) g1 = Ok (noise, g2) ->
     q_sample (normalize (frame b)) t
       (Schedule.sqrt_alphas_cumprod (schedule self))
       (Schedule.sqrt_one_minus_alphas_cumprod (schedule self))
       (Some noise) = Ok x_t ->
     fst (forward x_t
            (if debug (hp self) then cond_of_roll (normalize (frame b))
             else dac_latents b) t NoKwargs) = noise) ->
  exists loss side g',
    latent_step self "epsilon" b g
      = Ok ((loss, (normalize (frame b), normalize (frame b), side)), g').
Proof.
  intros Hs HT Hloss Hexact.
  destruct (latent_step_prefix self b g Hs HT)
    as (t & noise & x_t & g1 & g2 & Lt & En & Eq & Lx & Ex & Estep).
  rewrite Estep. cbn [String.eqb Ascii.eqb Bool.eqb].
  pose proof (Hexact t g1 noise g2 x_t Lt En Eq) as Hf.
  destruct (forward x_t _ t NoKwargs) as [eps side].
  cbn [fst] in Hf. subst eps.
  destruct (p_losses_recognised noise noise _ Hloss) as (loss & El).
  rewrite (mbind_lift_Ok _ loss) by exact El.
  rewrite (mbind_lift_Ok _ (normalize (frame b))) by exact Ex.
  exists loss, side, g2. reflexivity.
Qed.

End TrainingStep.

Lemma latent_step_returns_witness :
  exists loss pred_roll side g',
    @latent_step Stub.backend unit Stub.generator Stub.zero_randint
      (module_of (Stub.hparams_of 2 "l1" "ddpm")) "epsilon"
      Stub.one_frame tt
      = Ok ((loss, (pred_roll, @normalize Stub.backend
                                 (@frame Stub.backend Stub.one_frame), side)),
            g') /\
    length pred_roll = 1%nat.
Proof.
  apply (@latent_step_returns Stub.backend unit Stub.generator
           Stub.zero_randint (module_of (Stub.hparams_of 2 "l1" "ddpm"))
           "epsilon" Stub.one_frame tt).
  - reflexivity.
  - unfold module_of, Stub.hparams_of; cbn [hp timesteps]. lia.
  - left. reflexivity.
  - left. reflexivity.
Defined.

Lemma latent_step_failures_witness :
  @latent_step Stub.backend unit Stub.generator Stub.zero_randint
    (module_of (Stub.hparams_of 0 "l1" "ddpm")) "epsilon" Stub.one_frame tt
    = Raise RuntimeError /\
  @latent_step Stub.backend unit Stub.generator Stub.zero_randint
    (module_of (Stub.hparams_of 2 "l1" "ddpm")) "v" Stub.one_frame tt
    = Raise NameError /\
  @latent_step Stub.backend unit Stub.generator Stub.zero_randint
    (module_of (Stub.hparams_of 2 "l3" "ddpm")) "x_0" Stub.one_frame tt
    = Raise NotImplementedError.
Proof.
  split; [|split].
  - apply (@latent_step_failures Stub.backend unit Stub.generator
             Stub.zero_randint (module_of (Stub.hparams_of 0 "l1" "ddpm"))
             "epsilon" Stub.one_frame tt eq_refl).
    reflexivity.
  - apply (@latent_step_failures Stub.backend unit Stub.generator
             Stub.zero_randint (module_of (Stub.hparams_of 2 "l1" "ddpm"))
             "v" Stub.one_frame tt eq_refl).
    + unfold module_of, Stub.hparams_of; cbn [hp timesteps]. lia.
    + discriminate.
    + discriminate.
  - apply (@latent_step_failures Stub.backend unit Stub.generator
             Stub.zero_randint (module_of (Stub.hparams_of 2 "l3" "ddpm"))
             "x_0" Stub.one_frame tt eq_refl).
    + unfold module_of, Stub.hparams_of; cbn [hp timesteps]. lia.
    + right. reflexivity.
    + unfold recognised_loss, module_of, Stub.hparams_of;
        cbn [hp loss_type].
      intros [E | [E | E]]; discriminate E.
Defined.

Lemma latent_step_exact_noise_witness :
  exists loss side g',
    @latent_step (Stub.constant 0) unit (Stub.constant_generator 0)
      Stub.zero_randint (module_of (Stub.hparams_of 2 "l2" "ddpm"))
      "epsilon"
      (@Build_batch (Stub.constant 0) [fun _ => 0] tt tt) tt
      = Ok ((loss, ([fun _ => 0], [fun _ => 0], side)), g').
Proof.
  apply (@latent_step_exact_noise (Stub.constant 0) unit
           (Stub.constant_generator 0) Stub.zero_randint
           (module_of (Stub.hparams_of 2 "l2" "ddpm"))
           (@Build_batch (Stub.constant 0) [fun _ => 0] tt tt) tt).
  - reflexivity.
  - unfold module_of, Stub.hparams_of; cbn [hp timesteps]. lia.
  - right. left. reflexivity.
  - intros t g1 noise g2 x_t Lt En Eq.
    cbn in En. injection En as <- <-.
    apply (@q_sample_length (Stub.constant 0)) in Eq;
      [| exact Lt | reflexivity].
    destruct x_t as [|s [|s' x_t]]; try discriminate Eq.
    reflexivity.
Defined.
